(** * tcb-cli: chapter selection, naming and download coordination

    A shallow embedding of [cmd/tcb-cli/main.go] (and of the archive
    variant of the same program) together with the properties stated
    about it in the specification.  The selection parser, the chapter
    number and the names on disk have the same text in both.  The
    coordinator is modelled twice: with the single wait group of
    [cmd/tcb-cli/main.go] ([Batch]) and with the wait group per chapter
    of the other variants ([Nested]); the archive is the one of the
    archive variant.  The parser of the oldest variant, which has no
    check of the start of a range against its end, is [Earlier].  The
    three variants resolve the numbers selected to chapters in three
    ways ([selectChapters], [getSelectedChapters], [selectFirst]), and
    two of them choose the manga in two ways ([mangaSelection],
    [Archive.mangaSelection]); the prompts read what is typed as a list
    of reads.  The scraping itself and the transfer of an image are not
    modelled.

    Go values are modelled as follows.
    - [string] is a sequence of bytes: Rocq's [string] of [ascii].
    - [float64] is [spec_float], the IEEE 754 binary64 specification of
      the standard library, compared with [SFltb], [SFleb] and [SFeqb].
    - [map[float64]V] is an association list whose keys are compared
      with the floating-point [==] (so [NaN] never matches a key and
      the two zeros are the same key).
    - a function returning [(T, error)] returns a [result].
    - a [zip.Writer] is what it was given and whether a write of it has
      failed; an archive file is what a reader finds in it, which is
      nothing before [Close] has returned without error. *)

From Stdlib Require Import String Ascii List ZArith Lia Bool Arith.
From Stdlib Require Import SpecFloat Permutation Sorted.
Import ListNotations.

Local Open Scope string_scope.
Local Open Scope list_scope.

(** ** Results *)

Inductive result (E A : Type) : Type :=
| Ok (a : A)
| Err (e : E).

Arguments Ok {E A} a.
Arguments Err {E A} e.

(** ** Package [strings] *)

Module strings.

(** [strings.Contains(s, sep)] for a one-byte [sep]. *)
Fixpoint Contains (s : string) (sep : ascii) : bool :=
  match s with
  | EmptyString => false
  | String c s' => if Ascii.eqb c sep then true else Contains s' sep
  end.

(** [strings.Split(s, sep)] for a one-byte [sep]: the pieces between
    the occurrences of [sep]; one piece more than there are
    separators, and [[""]] for the empty string. *)
Fixpoint Split (s : string) (sep : ascii) : list string :=
  match s with
  | EmptyString => [EmptyString]
  | String c s' =>
      if Ascii.eqb c sep then EmptyString :: Split s' sep
      else match Split s' sep with
           | [] => [String c EmptyString]
           | p :: ps => String c p :: ps
           end
  end.

(** [strings.Join(elems, sep)]. *)
Fixpoint Join (elems : list string) (sep : string) : string :=
  match elems with
  | [] => EmptyString
  | [e] => e
  | e :: es => e ++ sep ++ Join es sep
  end.

Definition rev (s : string) : string :=
  string_of_list_ascii (List.rev (list_ascii_of_string s)).

Definition byteIn (c : ascii) (cutset : string) : bool := Contains cutset c.

Fixpoint TrimLeft (s cutset : string) : string :=
  match s with
  | EmptyString => EmptyString
  | String c s' => if byteIn c cutset then TrimLeft s' cutset else s
  end.

(** [strings.Trim(s, cutset)] for an ASCII [cutset]. *)
Definition Trim (s cutset : string) : string :=
  rev (TrimLeft (rev (TrimLeft s cutset)) cutset).

(** The white space of [unicode.IsSpace] below U+0080. *)
Definition asciiSpace (c : ascii) : bool :=
  match nat_of_ascii c with
  | 9 | 10 | 11 | 12 | 13 | 32 => true
  | _ => false
  end.

(** The UTF-8 encodings of the remaining white space: U+0085, U+00A0,
    U+1680, U+2000 to U+200A, U+2028, U+2029, U+202F, U+205F, U+3000. *)
Definition space2 (b0 b1 : nat) : bool :=
  Nat.eqb b0 194 && (Nat.eqb b1 133 || Nat.eqb b1 160).

Definition space3 (b0 b1 b2 : nat) : bool :=
  (Nat.eqb b0 225 && Nat.eqb b1 154 && Nat.eqb b2 128)
  || (Nat.eqb b0 226 && Nat.eqb b1 128
      && ((Nat.leb 128 b2 && Nat.leb b2 138)
          || Nat.eqb b2 168 || Nat.eqb b2 169 || Nat.eqb b2 175))
  || (Nat.eqb b0 226 && Nat.eqb b1 129 && Nat.eqb b2 159)
  || (Nat.eqb b0 227 && Nat.eqb b1 128 && Nat.eqb b2 128).

(** [strings.TrimLeftFunc(s, unicode.IsSpace)]. *)
Fixpoint trimLeftSpace (s : string) : string :=
  match s with
  | EmptyString => EmptyString
  | String c0 s1 =>
      if asciiSpace c0 then trimLeftSpace s1
      else match s1 with
           | String c1 s2 =>
               if space2 (nat_of_ascii c0) (nat_of_ascii c1)
               then trimLeftSpace s2
               else match s2 with
                    | String c2 s3 =>
                        if space3 (nat_of_ascii c0) (nat_of_ascii c1)
                                  (nat_of_ascii c2)
                        then trimLeftSpace s3 else s
                    | EmptyString => s
                    end
           | EmptyString => s
           end
  end.

(** [strings.TrimRightFunc(s, unicode.IsSpace)], on the reversed
    string: the encodings are read last byte first. *)
Fixpoint trimLeftSpaceRev (s : string) : string :=
  match s with
  | EmptyString => EmptyString
  | String c0 s1 =>
      if asciiSpace c0 then trimLeftSpaceRev s1
      else match s1 with
           | String c1 s2 =>
               if space2 (nat_of_ascii c1) (nat_of_ascii c0)
               then trimLeftSpaceRev s2
               else match s2 with
                    | String c2 s3 =>
                        if space3 (nat_of_ascii c2) (nat_of_ascii c1)
                                  (nat_of_ascii c0)
                        then trimLeftSpaceRev s3 else s
                    | EmptyString => s
                    end
           | EmptyString => s
           end
  end.

(** [strings.TrimSpace(s)]: leading and trailing Unicode white space
    removed. *)
Definition TrimSpace (s : string) : string :=
  rev (trimLeftSpaceRev (rev (trimLeftSpace s))).

End strings.

(** ** [float64] *)

Definition float64 : Type := spec_float.

Definition prec64 : Z := 53.
Definition emax64 : Z := 1024.

(** The comparison operators of the language on [float64]. *)
Definition flt (x y : float64) : bool := SFltb x y.
Definition fle (x y : float64) : bool := SFleb x y.
Definition fgt (x y : float64) : bool := flt y x.
Definition fge (x y : float64) : bool := fle y x.
Definition feq (x y : float64) : bool := SFeqb x y.

(** [math.IsNaN]. *)
Definition isNaN (x : float64) : bool :=
  match x with S754_nan => true | _ => false end.

Definition isZero (x : float64) : bool :=
  match x with S754_zero _ => true | _ => false end.

(** Pairwise different keys, as [==] sees them. *)
Definition distinctKeys (l : list float64) : Prop :=
  ForallOrdPairs (fun a b => feq a b = false) l.

(** Strictly ascending. *)
Definition ascending (l : list float64) : Prop :=
  StronglySorted (fun a b => flt a b = true) l.

(** ** Maps keyed by [float64]

    An entry is found by [==] on its key.  Assigning to a key that is
    present overwrites the stored key as well as the value (the runtime
    does so for floating-point keys, whose two zeros are equal);
    assigning to a key that is absent, which a [NaN] always is, adds an
    entry.  The entries are kept in the order in which they were added;
    the language leaves the iteration order open, and
    [sortFloat64s_perm_unique] below shows that the sorted key slice
    does not depend on it. *)

Definition gomap (V : Type) : Type := list (float64 * V).

Fixpoint mapaccess {V : Type} (m : gomap V) (k : float64) : option V :=
  match m with
  | [] => None
  | (k', v) :: m' => if feq k' k then Some v else mapaccess m' k
  end.

Fixpoint mapassign {V : Type} (m : gomap V) (k : float64) (v : V) : gomap V :=
  match m with
  | [] => [(k, v)]
  | (k', v') :: m' =>
      if feq k' k then (k, v) :: m' else (k', v') :: mapassign m' k v
  end.

Definition mapkeys {V : Type} (m : gomap V) : list float64 := map fst m.

(** ** Package [sort] *)

(** [Float64Slice.Less]: ascending, with the [NaN]s first. *)
Definition lessFloat64 (x y : float64) : bool :=
  flt x y || (isNaN x && negb (isNaN y)).

Fixpoint insertFloat64 (x : float64) (l : list float64) : list float64 :=
  match l with
  | [] => [x]
  | y :: l' => if lessFloat64 y x then y :: insertFloat64 x l' else x :: l
  end.

(** [sort.Float64s], as an insertion sort. *)
Fixpoint sortFloat64s (l : list float64) : list float64 :=
  match l with
  | [] => []
  | x :: l' => insertFloat64 x (sortFloat64s l')
  end.

(** In the order of [sort.Float64s]: no element is less than one before
    it. *)
Definition inOrder (l : list float64) : Prop :=
  StronglySorted (fun a b => lessFloat64 b a = false) l.

(** [slices.Contains] on [[]float64]. *)
Definition slicesContains (s : list float64) (v : float64) : bool :=
  existsb (fun e => feq e v) s.

(** ** Errors *)

(** The error of [strconv.ParseFloat]: a [*strconv.NumError] whose
    [Err] is [ErrSyntax] or [ErrRange]. *)
Inductive NumError : Type :=
| ErrSyntax
| ErrRange.

(** The errors [parseChapterSelection] returns: the four messages it
    builds with [fmt.Errorf], each with the strings it prints, and the
    error of [strconv.ParseFloat] handed on as it is.  [PanicIndex]
    stands for the run-time panic of indexing a slice out of range. *)
Inductive error : Type :=
| ErrInvalidRangeFormat (part : string)
| ErrInvalidStart (start : string)
| ErrInvalidEnd (stop : string)
| ErrStartGreater (start stop : string)
| ErrNum (e : NumError)
| PanicIndex.

(** The error kinds of the specification. *)
Inductive ErrorKind : Type :=
| InvalidNumber
| InvalidRangeFormat
| InvalidRange
| RuntimePanic.

Definition kindOf (e : error) : ErrorKind :=
  match e with
  | ErrInvalidRangeFormat _ => InvalidRangeFormat
  | ErrInvalidStart _ | ErrInvalidEnd _ | ErrNum _ => InvalidNumber
  | ErrStartGreater _ _ => InvalidRange
  | PanicIndex => RuntimePanic
  end.

Definition isErr {E A : Type} (r : result E A) : bool :=
  match r with Err _ => true | Ok _ => false end.

(** ** The selection parser

    [strconv.ParseFloat(s, 64)] belongs to the language's library; the
    parser is written over any function of its type, and [strconv.ParseFloat]
    below is the instance the examples run. *)

Section Selection.

Variable ParseFloat : string -> result NumError float64.

(** [parseRange]. *)
Definition parseRange (rangeParts : list string) : result error (float64 * float64) :=
  match rangeParts with
  | [] => Err PanicIndex
  | p0 :: rest =>
      match ParseFloat (strings.TrimSpace p0) with
      | Err _ => Err (ErrInvalidStart p0)
      | Ok start =>
          match rest with
          | [] => Err PanicIndex
          | p1 :: _ =>
              match ParseFloat (strings.TrimSpace p1) with
              | Err _ => Err (ErrInvalidEnd p1)
              | Ok stop =>
                  if fgt start stop then Err (ErrStartGreater p0 p1)
                  else Ok (start, stop)
              end
          end
      end
  end.

(** The inner loop of [parseChapterSelection]:
    [for _, chapter := range availableChapters]. *)
Fixpoint addRange (availableChapters : list float64) (start stop : float64)
         (chapterMap : gomap bool) : gomap bool :=
  match availableChapters with
  | [] => chapterMap
  | chapter :: rest =>
      addRange rest start stop
        (if fge chapter start && fle chapter stop
         then mapassign chapterMap chapter true
         else chapterMap)
  end.

(** The outer loop of [parseChapterSelection]:
    [for _, part := range parts], leaving at the first error. *)
Fixpoint parseParts (parts : list string) (availableChapters : list float64)
         (chapterMap : gomap bool) : result error (gomap bool) :=
  match parts with
  | [] => Ok chapterMap
  | part :: rest =>
      if strings.Contains part "-" then
        let rangeParts := strings.Split part "-" in
        if negb (Nat.eqb (length rangeParts) 2) then
          Err (ErrInvalidRangeFormat part)
        else
          match parseRange rangeParts with
          | Err e => Err e
          | Ok (start, stop) =>
              parseParts rest availableChapters
                (addRange availableChapters start stop chapterMap)
          end
      else
        match ParseFloat (strings.TrimSpace part) with
        | Err e => Err (ErrNum e)
        | Ok chapter =>
            parseParts rest availableChapters (mapassign chapterMap chapter true)
        end
  end.

(** One turn of that loop: what one part does to the map. *)
Definition parsePart (part : string) (availableChapters : list float64)
           (chapterMap : gomap bool) : result error (gomap bool) :=
  parseParts [part] availableChapters chapterMap.

(** [mapToSlice]. *)
Definition mapToSlice (chapterMap : gomap bool) : list float64 :=
  sortFloat64s (mapkeys chapterMap).

(** [parseChapterSelection]. *)
Definition parseChapterSelection (input : string) (availableChapters : list float64)
  : result error (list float64) :=
  match parseParts (strings.Split input ",") availableChapters [] with
  | Err e => Err e
  | Ok chapterMap => Ok (mapToSlice chapterMap)
  end.

(** The parts are number tokens that parse to [xs]. *)
Definition numberTokens (parts : list string) (xs : list float64) : Prop :=
  Forall2 (fun part x =>
             strings.Contains part "-" = false
             /\ ParseFloat (strings.TrimSpace part) = Ok x)
          parts xs.

End Selection.

(** ** The parser of the oldest variant

    It has no [parseRange] and no check of the start of a range against
    its end; it appends to a slice, removes the repeats with a map and
    sorts. *)

Module Earlier.

Section Selection.

Variable ParseFloat : string -> result NumError float64.

(** [for _, availableChapter := range availableChapters]; [res] is
    the slice [result] of the source. *)
Fixpoint appendRange (availableChapters : list float64) (start stop : float64)
         (res : list float64) : list float64 :=
  match availableChapters with
  | [] => res
  | availableChapter :: rest =>
      appendRange rest start stop
        (if fge availableChapter start && fle availableChapter stop
         then res ++ [availableChapter]
         else res)
  end.

(** [for _, part := range parts]. *)
Fixpoint parseParts (parts : list string) (availableChapters : list float64)
         (res : list float64) : result error (list float64) :=
  match parts with
  | [] => Ok res
  | part :: rest =>
      if strings.Contains part "-" then
        match strings.Split part "-" with
        | [p0; p1] =>
            match ParseFloat (strings.TrimSpace p0) with
            | Err e => Err (ErrNum e)
            | Ok start =>
                match ParseFloat (strings.TrimSpace p1) with
                | Err e => Err (ErrNum e)
                | Ok stop =>
                    parseParts rest availableChapters
                      (appendRange availableChapters start stop res)
                end
            end
        | _ => Err (ErrInvalidRangeFormat part)
        end
      else
        match ParseFloat (strings.TrimSpace part) with
        | Err e => Err (ErrNum e)
        | Ok singleChapter =>
            parseParts rest availableChapters (res ++ [singleChapter])
        end
  end.

(** [for _, chapter := range result]: a chapter is appended unless
    [uniqueMap[chapter]] is [true]. *)
Fixpoint unique (res : list float64) (uniqueMap : gomap bool)
         (uniqueResult : list float64) : list float64 :=
  match res with
  | [] => uniqueResult
  | chapter :: rest =>
      match mapaccess uniqueMap chapter with
      | Some true => unique rest uniqueMap uniqueResult
      | _ => unique rest (mapassign uniqueMap chapter true)
                    (uniqueResult ++ [chapter])
      end
  end.

(** [parseChapterSelection]. *)
Definition parseChapterSelection (input : string) (availableChapters : list float64)
  : result error (list float64) :=
  match parseParts (strings.Split input ",") availableChapters [] with
  | Err e => Err e
  | Ok res => Ok (sortFloat64s (unique res [] []))
  end.

End Selection.

End Earlier.

(** ** Package [strconv]: [ParseFloat(s, 64)]

    The syntax follows [readFloat], [special] and [underscoreOK]; the
    value is the exact rational the text denotes, rounded to the nearest
    binary64 (ties to even), which is what the library computes. *)

Module strconv.

Local Open Scope Z_scope.

Definition code (c : ascii) : Z := Z.of_nat (nat_of_ascii c).

(** ['A'..'Z'] to lower case, other bytes unchanged. *)
Definition toLower (c : ascii) : Z :=
  let n := code c in if (65 <=? n) && (n <=? 90) then n + 32 else n.

Definition isDigit (c : ascii) : bool := (48 <=? code c) && (code c <=? 57).

Definition isHexLetter (c : ascii) : bool :=
  let n := toLower c in (97 <=? n) && (n <=? 102).

(** [commonPrefixLenIgnoreCase(s, prefix)], [prefix] in lower case. *)
Fixpoint commonPrefixLenIgnoreCase (s prefix : string) : nat :=
  match s, prefix with
  | String c s', String p prefix' =>
      if toLower c =? code p then S (commonPrefixLenIgnoreCase s' prefix') else 0
  | _, _ => 0
  end.

Definition infinityLen (s : string) : option nat :=
  let n := commonPrefixLenIgnoreCase s "infinity" in
  let n := if (3 <? n)%nat && (n <? 8)%nat then 3%nat else n in
  if (n =? 3)%nat || (n =? 8)%nat then Some n else None.

(** [special]: the value and the number of bytes read. *)
Definition special (s : string) : option (float64 * nat) :=
  match s with
  | EmptyString => None
  | String c s' =>
      if (code c =? 43) || (code c =? 45) then
        match infinityLen s' with
        | Some n => Some (S754_infinity (code c =? 45), S n)
        | None => None
        end
      else if toLower c =? 105 then
        match infinityLen s with
        | Some n => Some (S754_infinity false, n)
        | None => None
        end
      else if toLower c =? 110 then
        if (commonPrefixLenIgnoreCase s "nan" =? 3)%nat
        then Some (S754_nan, 3%nat) else None
      else None
  end.

(** The state of the mantissa loop of [readFloat]; [mantissa] keeps
    every digit. *)
Record mant : Type := mkMant {
  mantissa : Z;
  nd : Z;
  dp : Z;
  sawdot : bool;
  sawdigits : bool;
  underscores : bool
}.

Fixpoint readMantissa (hex : bool) (s : string) (st : mant) : mant * string :=
  match s with
  | EmptyString => (st, s)
  | String c s' =>
      if code c =? 95 then
        readMantissa hex s'
          (mkMant (mantissa st) (nd st) (dp st) (sawdot st) (sawdigits st) true)
      else if code c =? 46 then
        if sawdot st then (st, s)
        else readMantissa hex s'
               (mkMant (mantissa st) (nd st) (nd st) true (sawdigits st)
                       (underscores st))
      else if isDigit c then
        if (code c =? 48) && (nd st =? 0) then
          readMantissa hex s'
            (mkMant (mantissa st) (nd st) (dp st - 1) (sawdot st) true
                    (underscores st))
        else
          readMantissa hex s'
            (mkMant (mantissa st * (if hex then 16 else 10) + (code c - 48))
                    (nd st + 1) (dp st) (sawdot st) true (underscores st))
      else if hex && isHexLetter c then
        readMantissa hex s'
          (mkMant (mantissa st * 16 + (toLower c - 97 + 10))
                  (nd st + 1) (dp st) (sawdot st) true (underscores st))
      else (st, s)
  end.

(** The digits of the exponent: the value stops growing once it has
    reached 10000. *)
Fixpoint readExponent (s : string) (e : Z) (us : bool) : Z * bool * string :=
  match s with
  | EmptyString => (e, us, s)
  | String c s' =>
      if code c =? 95 then readExponent s' e true
      else if isDigit c then
        readExponent s' (if e <? 10000 then e * 10 + (code c - 48) else e) us
      else (e, us, s)
  end.

(** [underscoreOK], after the optional sign; [saw] is the kind of the
    last byte: 0 a digit or base prefix, 1 an underscore, 2 another
    byte, 3 the beginning. *)
Fixpoint underscoreScan (hex : bool) (s : string) (saw : nat) : bool :=
  match s with
  | EmptyString => negb (saw =? 1)%nat
  | String c s' =>
      if isDigit c || (hex && isHexLetter c) then underscoreScan hex s' 0%nat
      else if code c =? 95 then
        if (saw =? 0)%nat then underscoreScan hex s' 1%nat else false
      else if (saw =? 1)%nat then false
      else underscoreScan hex s' 2%nat
  end.

Definition dropSign (s : string) : string :=
  match s with
  | String c s' => if (code c =? 43) || (code c =? 45) then s' else s
  | EmptyString => s
  end.

Definition underscoreOK (s : string) : bool :=
  match dropSign s with
  | String c0 (String c1 s') =>
      if (code c0 =? 48)
         && ((toLower c1 =? 98) || (toLower c1 =? 111) || (toLower c1 =? 120))
      then underscoreScan (toLower c1 =? 120) s' 0%nat
      else underscoreScan false (dropSign s) 3%nat
  | s0 => underscoreScan false s0 3%nat
  end.

(** What [readFloat] hands on: the sign, the digits as an integer, the
    base of the exponent and the exponent. *)
Record number : Type := mkNumber {
  neg : bool;
  digits : Z;
  hexadecimal : bool;
  exponent : Z
}.

Definition readFloat (s : string) : option number :=
  let isneg := match s with String c _ => code c =? 45 | _ => false end in
  let s1 := dropSign s in
  let hex :=
    match s1 with
    | String c0 (String c1 (String _ _)) => (code c0 =? 48) && (toLower c1 =? 120)
    | _ => false
    end in
  let s2 := if hex then match s1 with String _ (String _ r) => r | _ => s1 end else s1 in
  let '(st, s3) := readMantissa hex s2 (mkMant 0 0 0 false false false) in
  if negb (sawdigits st) then None
  else
    let dp0 := if sawdot st then dp st else nd st in
    let scale := if hex then 4 else 1 in
    let expChar := if hex then 112 else 101 in
    let tail :=
      match s3 with
      | String c s4 =>
          if toLower c =? expChar then
            match s4 with
            | EmptyString => None
            | String c' s5 =>
                let esign := if code c' =? 45 then (-1) else 1 in
                let s6 := if (code c' =? 43) || (code c' =? 45) then s5 else s4 in
                match s6 with
                | String d _ =>
                    if isDigit d then
                      let '(e, us, rest) := readExponent s6 0 (underscores st) in
                      Some (e * esign, us, rest)
                    else None
                | EmptyString => None
                end
            end
          else if hex then None else Some (0, underscores st, s3)
      | EmptyString => if hex then None else Some (0, underscores st, s3)
      end in
    match tail with
    | None => None
    | Some (e, us, rest) =>
        match rest with
        | String _ _ => None
        | EmptyString =>
            if us && negb (underscoreOK s) then None
            else Some (mkNumber isneg (mantissa st) hex
                                (scale * dp0 + e - scale * nd st))
        end
    end.

(** [m * 10^e], or [m * 2^e] for a hexadecimal text, rounded to the
    nearest binary64. *)
Definition roundToFloat64 (n : number) : float64 :=
  match digits n with
  | Zpos m =>
      if hexadecimal n then binary_round prec64 emax64 (neg n) m (exponent n)
      else if 0 <=? exponent n then
        binary_round prec64 emax64 (neg n)
          (Z.to_pos (Zpos m * 10 ^ exponent n)) 0
      else
        let den := 10 ^ (- exponent n) in
        let shift := Z.max 0 (64 + Z.log2 den - Z.log2 (Zpos m)) in
        let '(q, r) := Z.div_eucl (Z.shiftl (Zpos m) shift) den in
        binary_round_aux prec64 emax64 (neg n) q (- shift) (new_location den r)
  | _ => S754_zero (neg n)
  end.

(** [strconv.ParseFloat(s, 64)]. *)
Definition ParseFloat (s : string) : result NumError float64 :=
  match special s with
  | Some (f, n) => if (n =? String.length s)%nat then Ok f else Err ErrSyntax
  | None =>
      match readFloat s with
      | None => Err ErrSyntax
      | Some n =>
          match roundToFloat64 n with
          | S754_infinity _ => Err ErrRange
          | f => Ok f
          end
      end
  end.

(** *** [FormatFloat(f, 'g', -1, 64)]

    The digits are the shortest decimal that [ParseFloat] reads back as
    [f], and of those the one nearest to [f]; the layout follows [%e]
    and [%f] as [FormatFloat] chooses between them. *)

(** The decimal digits of a non-negative integer. *)
Fixpoint digitsOf (fuel : nat) (n : Z) (acc : string) : string :=
  match fuel with
  | O => acc
  | S fuel' =>
      let acc' := String (ascii_of_nat (Z.to_nat (48 + n mod 10))) acc in
      if n <? 10 then acc' else digitsOf fuel' (n / 10) acc'
  end.

(** [strconv.Itoa] on a non-negative integer. *)
Definition formatInt (n : Z) : string :=
  digitsOf (S (Z.to_nat (Z.log2 n))) n EmptyString.

(** [num / den >= 10^j]. *)
Definition geqPow10 (num den j : Z) : bool :=
  if 0 <=? j then den * 10 ^ j <=? num else den <=? num * 10 ^ (- j).

Fixpoint findExp (fuel : nat) (num den k : Z) : Z :=
  match fuel with
  | O => k
  | S fuel' => if geqPow10 num den k then findExp fuel' num den (k + 1) else k
  end.

(** The least [k] with [num / den < 10^k]. *)
Definition decimalExponent (num den : Z) : Z :=
  findExp 8 num den ((Z.log2 num - Z.log2 den) * 30103 / 100000 - 1).

Fixpoint stripZeros (fuel : nat) (c : Z) : Z :=
  match fuel with
  | O => c
  | S fuel' => if (c mod 10 =? 0) && (0 <? c) then stripZeros fuel' (c / 10) else c
  end.

(** A decimal [0.d1d2... * 10^dp]: the digits as an integer and [dp]. *)
Record decimal : Type := mkDecimal { dig : Z; decpt : Z }.

(** The candidates with [n] digits: the decimal just below [f] and the
    one just above, kept when they read back as [f]. *)
Definition candidate (m : positive) (e : Z) (num den k : Z) (n : Z) : option decimal :=
  let '(N, D) := if 0 <=? n - k then (num * 10 ^ (n - k), den)
                 else (num, den * 10 ^ (k - n)) in
  let lo := N / D in
  let r := N mod D in
  let back c := match roundToFloat64 (mkNumber false c false (k - n)) with
                | S754_finite false m' e' => (Zpos m' =? Zpos m) && (e' =? e)
                | _ => false
                end in
  let mk c := Some (mkDecimal (stripZeros 20 c) (Z.of_nat (String.length (formatInt c)) + k - n)) in
  let lo_ok := back lo in
  let hi_ok := negb (r =? 0) && back (lo + 1) in
  if lo_ok && hi_ok then
    match 2 * r ?= D with
    | Lt => mk lo
    | Gt => mk (lo + 1)
    | Eq => if Z.even lo then mk lo else mk (lo + 1)
    end
  else if lo_ok then mk lo
  else if hi_ok then mk (lo + 1)
  else None.

Fixpoint shortestFrom (fuel : nat) (m : positive) (e : Z) (num den k : Z) (n : Z) : decimal :=
  match fuel with
  | O => mkDecimal 0 0
  | S fuel' =>
      match candidate m e num den k n with
      | Some d => d
      | None => shortestFrom fuel' m e num den k (n + 1)
      end
  end.

(** The shortest decimal of the finite number [m * 2^e]. *)
Definition shortest (m : positive) (e : Z) : decimal :=
  let '(num, den) := if 0 <=? e then (Zpos m * 2 ^ e, 1) else (Zpos m, 2 ^ (- e)) in
  shortestFrom 17 m e num den (decimalExponent num den) 1.

Definition zeros (n : Z) : string :=
  string_of_list_ascii (repeat "0"%char (Z.to_nat n)).

(** [%e] with all the digits of [d]. *)
Definition fmtE (d : decimal) : string :=
  let ds := formatInt (dig d) in
  let ex := decpt d - 1 in
  let mantissa :=
    match ds with
    | String c EmptyString => ds
    | String c rest => String c (String "." rest)
    | EmptyString => ds
    end in
  (mantissa ++ "e" ++ (if (ex <? 0)%Z then "-" else "+")
   ++ (if (Z.abs ex <? 10)%Z then "0" else "") ++ formatInt (Z.abs ex))%string.

(** [%f] with all the digits of [d]. *)
Definition fmtF (d : decimal) : string :=
  let ds := formatInt (dig d) in
  let nd := Z.of_nat (String.length ds) in
  if decpt d <=? 0 then ("0." ++ zeros (- decpt d)%Z ++ ds)%string
  else if nd <=? decpt d then (ds ++ zeros (decpt d - nd)%Z)%string
  else (substring 0 (Z.to_nat (decpt d)) ds ++ "."
        ++ substring (Z.to_nat (decpt d)) (Z.to_nat (nd - decpt d)%Z) ds)%string.

Definition FormatFloat (f : float64) : string :=
  match f with
  | S754_nan => "NaN"
  | S754_infinity s => if s then "-Inf" else "+Inf"
  | S754_zero s => if s then "-0" else "0"
  | S754_finite s m e =>
      let d := shortest m e in
      let ex := decpt d - 1 in
      ((if s then "-" else "")
       ++ (if ((ex <? -4) || (6 <=? ex))%Z then fmtE d else fmtF d))%string
  end.

End strconv.

(** ** Mangas and chapters *)

Record Manga : Type := mkManga {
  MangaURL : string;
  MangaTitle : string
}.

Record Chapter : Type := mkChapter {
  URL : string;
  Number : float64;
  Title : string;
  ImageURLs : list string;
  Folder : string
}.

(** [getChapterNumbers]. *)
Definition getChapterNumbers (chapters : list Chapter) : list float64 :=
  map Number chapters.

(** The map [chapterSelection] builds:
    [chapterMap[chapter.Number] = chapter] for each chapter in turn. *)
Definition chapterMapOf (allChapters : list Chapter) : gomap Chapter :=
  fold_left (fun m chapter => mapassign m (Number chapter) chapter) allChapters [].

(** [getSelectedChapters]. *)
Fixpoint getSelectedChapters (selectedNumbers : list float64)
         (chapterMap : gomap Chapter) : list Chapter :=
  match selectedNumbers with
  | [] => []
  | num :: rest =>
      match mapaccess chapterMap num with
      | Some chapter => chapter :: getSelectedChapters rest chapterMap
      | None => getSelectedChapters rest chapterMap
      end
  end.

(** ** Package [fmt] *)

Module fmt.

(** [s] padded on the left with [c] to [wid] bytes. *)
Definition padLeft (c : ascii) (wid : nat) (s : string) : string :=
  (string_of_list_ascii (repeat c (wid - String.length s)) ++ s)%string.

(** [%03d]. *)
Definition fmt03d (n : Z) : string :=
  if (n <? 0)%Z then String "-" (padLeft "0" 2 (strconv.formatInt (- n)))
  else padLeft "0" 3 (strconv.formatInt n).

(** [fmtFloat] for [%g], with the flag [0] and the width [wid] when
    [zero] is set: an infinity or a [NaN] is padded with spaces, a
    negative number has its zeros after the sign, and the [+] of a
    positive number is not written. *)
Definition fmtFloat (zero : bool) (wid : nat) (v : float64) : string :=
  let num := strconv.FormatFloat v in
  match v with
  | S754_nan => padLeft " " wid num
  | S754_infinity _ => padLeft " " wid num
  | S754_zero true | S754_finite true _ _ =>
      if zero && (String.length num <? wid)%nat then
        match num with
        | String sign rest => String sign (padLeft "0" (wid - 1) rest)
        | EmptyString => num
        end
      else padLeft " " wid num
  | _ => padLeft (if zero then "0" else " ")%char wid num
  end.

(** [fmt.Sprintf("%03g %s", number, title)]. *)
Definition Sprintf_03g_s (number : float64) (title : string) : string :=
  (fmtFloat true 3 number ++ " " ++ title)%string.

(** [fmt.Sprintf("%03g %s.cbz", number, title)]. *)
Definition Sprintf_03g_s_cbz (number : float64) (title : string) : string :=
  (fmtFloat true 3 number ++ " " ++ title ++ ".cbz")%string.

(** [fmt.Sprintf("%g %s", number, title)]. *)
Definition Sprintf_g_s (number : float64) (title : string) : string :=
  (fmtFloat false 0 number ++ " " ++ title)%string.

(** [fmt.Sprintf("%03d%s", n, extension)]. *)
Definition Sprintf_03d_s (n : Z) (extension : string) : string :=
  (fmt03d n ++ extension)%string.

End fmt.

(** ** Package [path/filepath], with [/] as the separator *)

Module filepath.

Definition isSeparator (c : ascii) : bool := Ascii.eqb c "/".

(** [filepath.Ext]: from the last dot of the last element on. *)
Fixpoint Ext (path : string) : string :=
  match path with
  | EmptyString => EmptyString
  | String c path' =>
      if strings.Contains path' "/" || strings.Contains path' "."
      then Ext path'
      else if Ascii.eqb c "." then path else EmptyString
  end.

(** One element of the path met by [Clean]; [out] holds the elements
    kept so far, the last one first. *)
Definition cleanStep (rooted : bool) (out : list string) (elem : string) : list string :=
  if String.eqb elem "" || String.eqb elem "." then out
  else if String.eqb elem ".." then
    match out with
    | top :: out' =>
        if String.eqb top ".." then elem :: out else out'
    | [] => if rooted then out else [elem]
    end
  else elem :: out.

(** [filepath.Clean]. *)
Definition Clean (path : string) : string :=
  match path with
  | EmptyString => "."
  | String c _ =>
      let rooted := isSeparator c in
      let out := fold_left (cleanStep rooted) (strings.Split path "/") [] in
      match out, rooted with
      | [], false => "."
      | _, _ =>
          ((if rooted then "/" else "") ++ strings.Join (List.rev out) "/")%string
      end
  end.

Fixpoint dropEmpty (elem : list string) : list string :=
  match elem with
  | EmptyString :: elem' => dropEmpty elem'
  | _ => elem
  end.

(** [filepath.Join]: the elements from the first non-empty one on,
    joined with the separator and cleaned. *)
Definition Join (elem : list string) : string :=
  match dropEmpty elem with
  | [] => EmptyString
  | elem' => Clean (strings.Join elem' "/")
  end.

(** What [Join] puts before the name of a file of the directory
    [dir]. *)
Definition dirPrefix (dir : string) : string :=
  match dir with
  | EmptyString => EmptyString
  | String c _ =>
      let rooted := isSeparator c in
      let out := fold_left (cleanStep rooted) (strings.Split dir "/") [] in
      ((if rooted then "/" else "")
       ++ match out with
          | [] => ""
          | _ :: _ => strings.Join (List.rev out) "/" ++ "/"
          end)%string
  end.

End filepath.

(** ** Names on disk *)

(** The bytes of the character class of [getCleanChapterTitle]: the
    angle brackets, the colon, the double quote, the slash, the
    backslash, the bar, the question mark and the star. *)
Definition illegalChar (c : ascii) : bool :=
  match nat_of_ascii c with
  | 60 | 62 | 58 | 34 | 47 | 92 | 124 | 63 | 42 => true
  | _ => false
  end.

(** [r.ReplaceAllString] with the empty replacement: every match
    removed. *)
Fixpoint removeIllegal (title : string) : string :=
  match title with
  | EmptyString => EmptyString
  | String c title' =>
      if illegalChar c then removeIllegal title' else String c (removeIllegal title')
  end.

(** [getCleanChapterTitle]. *)
Definition getCleanChapterTitle (title : string) : string :=
  removeIllegal (strings.Trim title " .").

(** The directory of a chapter, as [downloadImages] computes it. *)
Definition chapterDirPath (selectedDownloadLocation : string) (manga : Manga)
           (chapter : Chapter) : string :=
  strings.TrimSpace
    (filepath.Join [selectedDownloadLocation; MangaTitle manga;
                    fmt.Sprintf_03g_s (Number chapter) (Title chapter)]).

(** The archive of a chapter, as [downloadImages] computes it. *)
Definition cbzFilename (selectedDownloadLocation : string) (manga : Manga)
           (chapter : Chapter) : string :=
  filepath.Join [selectedDownloadLocation; MangaTitle manga;
                 fmt.Sprintf_03g_s_cbz (Number chapter) (Title chapter)].

(** The digit [d] as a byte, and the three digits of a number below
    1000. *)
Definition digitChar (d : nat) : ascii := ascii_of_nat (48 + d).

Definition threeDigits (n : nat) : string :=
  String (digitChar (n / 100))
    (String (digitChar (n / 10 mod 10))
       (String (digitChar (n mod 10)) EmptyString)).

(** The name of the file of the image at index [i] (from 0), as the
    worker of that image computes it. *)
Definition imageName (i : nat) (imageURL : string) : string :=
  fmt.Sprintf_03d_s (Z.of_nat (i + 1)) (filepath.Ext imageURL).

Definition imageFilename (dirPath : string) (i : nat) (imageURL : string) : string :=
  filepath.Join [dirPath; imageName i imageURL].

(** The files of a chapter, one per image URL:
    [for i, imageURL := range chapter.ImageURLs]. *)
Fixpoint imageFilenamesFrom (dirPath : string) (i : nat) (imageURLs : list string)
  : list string :=
  match imageURLs with
  | [] => []
  | imageURL :: rest =>
      imageFilename dirPath i imageURL :: imageFilenamesFrom dirPath (S i) rest
  end.

Definition imageFilenames (dirPath : string) (chapter : Chapter) : list string :=
  imageFilenamesFrom dirPath 0 (ImageURLs chapter).

(** *** The path of a URL

    The specification speaks of the extension of the path of the URL of
    an image, where the code takes [filepath.Ext] of the URL as it is.
    These definitions follow the words of the specification, to compare
    the two: a URL is read as [scheme://authority/path?query#fragment],
    and without [://] as a path with its query and fragment. *)

(** What follows the first [://], if there is one. *)
Fixpoint afterScheme (url : string) : option string :=
  match url with
  | EmptyString => None
  | String c url' =>
      match url' with
      | String c1 (String c2 rest) =>
          if Ascii.eqb c ":" && Ascii.eqb c1 "/" && Ascii.eqb c2 "/" then Some rest
          else afterScheme url'
      | _ => afterScheme url'
      end
  end.

(** What comes before the query and the fragment. *)
Fixpoint beforeQuery (s : string) : string :=
  match s with
  | EmptyString => EmptyString
  | String c s' =>
      if Ascii.eqb c "?" || Ascii.eqb c "#" then EmptyString
      else String c (beforeQuery s')
  end.

(** From the first slash on: what follows the authority. *)
Fixpoint fromSlash (s : string) : string :=
  match s with
  | EmptyString => EmptyString
  | String c s' => if Ascii.eqb c "/" then s else fromSlash s'
  end.

Definition urlPath (url : string) : string :=
  match afterScheme (beforeQuery url) with
  | Some rest => fromSlash rest
  | None => beforeQuery url
  end.

(** The extension of the path of a URL: from the last dot of the last
    element of the path on. *)
Definition urlPathExtension (url : string) : string :=
  filepath.Ext (urlPath url).

(** ** The archive of a chapter

    The part of the file system that [createCbzArchive] and the end of
    [downloadImages] touch: the directories, each with the names of its
    files in the order in which [filepath.Walk] visits them, and the
    archive files.  An archive file is described by what a reader of it
    finds: the entries of its central directory, and whether it has
    one.  An entry is complete when all the bytes of its file are in
    it. *)

Record zipEntry : Type := mkEntry {
  entryName : string;
  entryComplete : bool
}.

Record zipFile : Type := mkZip {
  entries : list zipEntry;
  finished : bool
}.

Record fileSystem : Type := mkFS {
  dirs : list (string * list string);
  archives : list (string * zipFile)
}.

(** The calls that fail in a run: the operating system decides. *)
Record faults : Type := mkFaults {
  failCreate : string -> bool;
  failWalk : string -> bool;
  failOpen : string -> bool;
  failZipCreate : string -> bool;
  failCopy : string -> bool;
  failZipClose : bool;
  failRemoveAll : string -> bool
}.

Inductive ioError : Type :=
| ECreate
| EWalk
| EOpen
| EZipCreate
| ECopy
| ERemoveAll.

Fixpoint lookup {V : Type} (l : list (string * V)) (k : string) : option V :=
  match l with
  | [] => None
  | (k', v) :: l' => if String.eqb k' k then Some v else lookup l' k
  end.

Fixpoint remove {V : Type} (l : list (string * V)) (k : string) : list (string * V) :=
  match l with
  | [] => []
  | (k', v) :: l' => if String.eqb k' k then remove l' k else (k', v) :: remove l' k
  end.

Definition lookupDir (fs : fileSystem) (path : string) : option (list string) :=
  lookup (dirs fs) path.

Definition lookupArchive (fs : fileSystem) (path : string) : option zipFile :=
  lookup (archives fs) path.

Definition setArchive (fs : fileSystem) (path : string) (z : zipFile) : fileSystem :=
  mkFS (dirs fs) ((path, z) :: remove (archives fs) path).

Definition removeDir (fs : fileSystem) (path : string) : fileSystem :=
  mkFS (remove (dirs fs) path) (archives fs).

(** *** Package [archive/zip]

    A [zip.Writer] writes through a buffer; it completes an entry at
    the next [Create] or at [Close], and it writes the central directory
    at [Close].  So nothing that the writer was given is an entry of the
    file, for a reader, before [Close] has returned without an error.
    An error of a write stays with the buffer: every later write fails,
    and so does [Close].  The writer is described by the entries it was
    given, each with whether it was given all of its bytes, and by
    whether a write of it has failed. *)

Module zip.

Record Writer : Type := mkWriter {
  given : list zipEntry;
  broken : bool
}.

(** [zip.NewWriter(cbzFile)] on the file just created. *)
Definition NewWriter : Writer := mkWriter [] false.

(** The file after [w.Close()], where [fails] tells whether a write of
    [Close] itself fails: the archive of what the writer was given, or a
    file in which a reader finds no archive. *)
Definition Close (fails : bool) (w : Writer) : zipFile :=
  if fails || broken w then mkZip [] false else mkZip (given w) true.

End zip.

(** [addFileToZip]: the file is opened, the entry is begun by
    [zipWriter.Create] and filled by [io.Copy].  [zipWriter.Create]
    fails on a write only; [io.Copy] may fail on reading the file, which
    leaves the writer in order, and whether [Close] then fails is left
    to [failZipClose]. *)
Definition addFileToZip (ft : faults) (zipWriter : zip.Writer) (filePath fileName : string)
  : zip.Writer * option ioError :=
  if failOpen ft filePath then (zipWriter, Some EOpen)
  else if failZipCreate ft fileName then
    (zip.mkWriter (zip.given zipWriter) true, Some EZipCreate)
  else if failCopy ft filePath then
    (zip.mkWriter (zip.given zipWriter ++ [mkEntry fileName false]) (zip.broken zipWriter),
     Some ECopy)
  else
    (zip.mkWriter (zip.given zipWriter ++ [mkEntry fileName true]) (zip.broken zipWriter),
     None).

(** The walk over the files of [sourceDir]: it stops at the first
    error. *)
Fixpoint walkFiles (ft : faults) (zipWriter : zip.Writer) (sourceDir : string)
         (names : list string) : zip.Writer * option ioError :=
  match names with
  | [] => (zipWriter, None)
  | name :: rest =>
      match addFileToZip ft zipWriter (filepath.Join [sourceDir; name]) name with
      | (zipWriter', Some e) => (zipWriter', Some e)
      | (zipWriter', None) => walkFiles ft zipWriter' sourceDir rest
      end
  end.

(** [createCbzArchive]: [os.Create] makes the file, or empties the one
    that was there; the walk gives the files to the writer; the deferred
    [zipWriter.Close] runs whatever the walk returned, and its own error
    is printed and not returned.  The deferred [cbzFile.Close], whose
    error is dropped, is taken not to fail. *)
Definition createCbzArchive (ft : faults) (fs : fileSystem)
           (sourceDir cbzFilename : string) : fileSystem * option ioError :=
  if failCreate ft cbzFilename then (fs, Some ECreate)
  else
    let '(zipWriter, err) :=
      match lookupDir fs sourceDir with
      | None => (zip.NewWriter, Some EWalk)
      | Some names =>
          if failWalk ft sourceDir then (zip.NewWriter, Some EWalk)
          else walkFiles ft zip.NewWriter sourceDir names
      end in
    (setArchive fs cbzFilename (zip.Close (failZipClose ft) zipWriter), err).

(** The end of [downloadImages], after [wg.Wait()]: with [createCbz]
    the archive is made and then the directory removed.  A removal that
    fails is taken to leave the directory as it was. *)
Definition archiveChapter (ft : faults) (fs : fileSystem) (createCbz : bool)
           (selectedDownloadLocation : string) (manga : Manga) (chapter : Chapter)
  : fileSystem * option ioError :=
  let dirPath := chapterDirPath selectedDownloadLocation manga chapter in
  if createCbz then
    let cbz := cbzFilename selectedDownloadLocation manga chapter in
    match createCbzArchive ft fs dirPath cbz with
    | (fs', Some e) => (fs', Some e)
    | (fs', None) =>
        if failRemoveAll ft dirPath then (fs', Some ERemoveAll)
        else (removeDir fs' dirPath, None)
    end
  else (fs, None).

(** An archive that holds every file of [names], each whole, and is
    finished. *)
Definition archiveComplete (names : list string) (z : zipFile) : Prop :=
  entries z = map (fun name => mkEntry name true) names /\ finished z = true.




(** ** The goroutines of [downloadSelectedChapters]

    The coordinator shares one [sync.WaitGroup] with the goroutine of
    every chapter and, through [downloadImages], with the goroutine of
    every image.  A state holds the counter of the wait group and where
    each goroutine stands; a step is one goroutine doing its next
    statement.  [p.Wait()] of the progress container made with
    [mpb.WithWaitGroup(&wg)] returns only after [wg.Wait()] has; a worker
    ends with its deferred [wg.Done()]; [log.Fatalf] ends the process. *)

Module Batch.

(** The coordinator: in the loop with [rest] chapters to go, between
    [wg.Add(1)] and the [go] statement, in [p.Wait()], returned. *)
Inductive coordPC : Type :=
| CoLoop (rest : nat)
| CoGo (rest : nat)
| CoWait
| CoReturned.

(** The goroutine of a chapter: fetching the image URLs, in the loop of
    [downloadImages] with [rest] images to go, between [wg.Add(1)] and
    the [go] statement, returned. *)
Inductive chapterPC : Type :=
| ChFetch
| ChLoop (rest : nat)
| ChGo (rest : nat)
| ChDone.

Record state : Type := mkState {
  coord : coordPC;
  wg : Z;
  chapters : list chapterPC;
  workers : nat;
  exited : bool
}.

Definition init (selected : nat) : state :=
  mkState (CoLoop selected) 0 [] 0 false.

Fixpoint setNth {A : Type} (l : list A) (i : nat) (a : A) : list A :=
  match l, i with
  | [], _ => []
  | _ :: l', O => a :: l'
  | x :: l', S i' => x :: setNth l' i' a
  end.

Inductive step : state -> state -> Prop :=
| co_add (n : nat) (c : Z) (chs : list chapterPC) (w : nat) :
    step (mkState (CoLoop (S n)) c chs w false)
         (mkState (CoGo n) (c + 1) chs w false)
| co_go (n : nat) (c : Z) (chs : list chapterPC) (w : nat) :
    step (mkState (CoGo n) c chs w false)
         (mkState (CoLoop n) c (chs ++ [ChFetch]) w false)
| co_wait (c : Z) (chs : list chapterPC) (w : nat) :
    step (mkState (CoLoop 0) c chs w false)
         (mkState CoWait c chs w false)
| co_return (chs : list chapterPC) (w : nat) :
    step (mkState CoWait 0 chs w false)
         (mkState CoReturned 0 chs w false)
| ch_fetched (co : coordPC) (c : Z) (chs : list chapterPC) (w i images : nat) :
    nth_error chs i = Some ChFetch ->
    step (mkState co c chs w false)
         (mkState co c (setNth chs i (ChLoop images)) w false)
| ch_fatal (co : coordPC) (c : Z) (chs : list chapterPC) (w i : nat) :
    nth_error chs i = Some ChFetch ->
    step (mkState co c chs w false)
         (mkState co c chs w true)
| ch_add (co : coordPC) (c : Z) (chs : list chapterPC) (w i n : nat) :
    nth_error chs i = Some (ChLoop (S n)) ->
    step (mkState co c chs w false)
         (mkState co (c + 1) (setNth chs i (ChGo n)) w false)
| ch_go (co : coordPC) (c : Z) (chs : list chapterPC) (w i n : nat) :
    nth_error chs i = Some (ChGo n) ->
    step (mkState co c chs w false)
         (mkState co c (setNth chs i (ChLoop n)) (S w) false)
| ch_return (co : coordPC) (c : Z) (chs : list chapterPC) (w i : nat) :
    nth_error chs i = Some (ChLoop 0) ->
    step (mkState co c chs w false)
         (mkState co (c - 1) (setNth chs i ChDone) w false)
| worker_done (co : coordPC) (c : Z) (chs : list chapterPC) (w : nat) :
    step (mkState co c chs (S w) false)
         (mkState co (c - 1) chs w false)
| worker_fatal (co : coordPC) (c : Z) (chs : list chapterPC) (w : nat) :
    step (mkState co c chs (S w) false)
         (mkState co c chs (S w) true).

Inductive reachable (selected : nat) : state -> Prop :=
| reach_init : reachable selected (init selected)
| reach_step (s s' : state) :
    reachable selected s -> step s s' -> reachable selected s'.

(** What a goroutine of a chapter holds of the counter: one until it
    has returned, and one more between its [wg.Add(1)] and its [go]. *)
Definition held (ch : chapterPC) : Z :=
  match ch with
  | ChFetch | ChLoop _ => 1
  | ChGo _ => 2
  | ChDone => 0
  end.

Fixpoint heldAll (chs : list chapterPC) : Z :=
  match chs with
  | [] => 0
  | ch :: chs' => (held ch + heldAll chs')%Z
  end.

Definition heldCoord (co : coordPC) : Z :=
  match co with CoGo _ => 1 | _ => 0 end.

(** The counter is what the goroutines that have not ended hold. *)
Definition counted (s : state) : Prop :=
  wg s = (heldCoord (coord s) + heldAll (chapters s) + Z.of_nat (workers s))%Z.

(** The chapters whose goroutine has been started, and those to go. *)
Definition started (selected : nat) (s : state) : Prop :=
  match coord s with
  | CoLoop rest => (length (chapters s) + rest)%nat = selected
  | CoGo rest => (length (chapters s) + S rest)%nat = selected
  | CoWait | CoReturned => length (chapters s) = selected
  end.

Definition invariant (selected : nat) (s : state) : Prop :=
  counted s /\ started selected s /\ (coord s = CoReturned -> wg s = 0%Z).

End Batch.

(** ** The goroutines of the variants with a wait group per chapter

    In the archive variant and in the oldest one [downloadImages] has a
    wait group of its own and returns after [wg.Wait()]; the wait group
    of the coordinator counts the goroutines of the chapters only. *)

Module Nested.

Inductive coordPC : Type :=
| CoLoop (rest : nat)
| CoGo (rest : nat)
| CoWait
| CoReturned.

(** The goroutine of a chapter: fetching, in the loop of
    [downloadImages], between [wg.Add(1)] and the [go] statement, in
    [wg.Wait()], past it (where the archive variant packs the chapter
    and the oldest one calls [p.Wait()]), returned. *)
Inductive chapterPC : Type :=
| ChFetch
| ChLoop (rest : nat)
| ChGo (rest : nat)
| ChWait
| ChPast
| ChDone.

(** A chapter: where its goroutine stands, the counter of its wait
    group and its workers that have not ended. *)
Record chapterG : Type := mkChapterG {
  cpc : chapterPC;
  inner : Z;
  cworkers : nat
}.

Record state : Type := mkState {
  coord : coordPC;
  outer : Z;
  chapters : list chapterG;
  exited : bool
}.

Definition init (selected : nat) : state :=
  mkState (CoLoop selected) 0 [] false.

Inductive step : state -> state -> Prop :=
| co_add (n : nat) (c : Z) (chs : list chapterG) :
    step (mkState (CoLoop (S n)) c chs false)
         (mkState (CoGo n) (c + 1) chs false)
| co_go (n : nat) (c : Z) (chs : list chapterG) :
    step (mkState (CoGo n) c chs false)
         (mkState (CoLoop n) c (chs ++ [mkChapterG ChFetch 0 0]) false)
| co_wait (c : Z) (chs : list chapterG) :
    step (mkState (CoLoop 0) c chs false)
         (mkState CoWait c chs false)
| co_return (chs : list chapterG) :
    step (mkState CoWait 0 chs false)
         (mkState CoReturned 0 chs false)
| ch_fetched (co : coordPC) (c : Z) (chs : list chapterG) (i images : nat)
             (k : Z) (w : nat) :
    nth_error chs i = Some (mkChapterG ChFetch k w) ->
    step (mkState co c chs false)
         (mkState co c (Batch.setNth chs i (mkChapterG (ChLoop images) k w)) false)
| ch_add (co : coordPC) (c : Z) (chs : list chapterG) (i n : nat) (k : Z) (w : nat) :
    nth_error chs i = Some (mkChapterG (ChLoop (S n)) k w) ->
    step (mkState co c chs false)
         (mkState co c (Batch.setNth chs i (mkChapterG (ChGo n) (k + 1) w)) false)
| ch_go (co : coordPC) (c : Z) (chs : list chapterG) (i n : nat) (k : Z) (w : nat) :
    nth_error chs i = Some (mkChapterG (ChGo n) k w) ->
    step (mkState co c chs false)
         (mkState co c (Batch.setNth chs i (mkChapterG (ChLoop n) k (S w))) false)
| ch_wait (co : coordPC) (c : Z) (chs : list chapterG) (i : nat) (k : Z) (w : nat) :
    nth_error chs i = Some (mkChapterG (ChLoop 0) k w) ->
    step (mkState co c chs false)
         (mkState co c (Batch.setNth chs i (mkChapterG ChWait k w)) false)
| ch_waited (co : coordPC) (c : Z) (chs : list chapterG) (i : nat) (w : nat) :
    nth_error chs i = Some (mkChapterG ChWait 0 w) ->
    step (mkState co c chs false)
         (mkState co c (Batch.setNth chs i (mkChapterG ChPast 0 w)) false)
| ch_return (co : coordPC) (c : Z) (chs : list chapterG) (i : nat) (k : Z) (w : nat) :
    nth_error chs i = Some (mkChapterG ChPast k w) ->
    step (mkState co c chs false)
         (mkState co (c - 1) (Batch.setNth chs i (mkChapterG ChDone k w)) false)
| worker_done (co : coordPC) (c : Z) (chs : list chapterG) (i : nat)
              (p : chapterPC) (k : Z) (w : nat) :
    nth_error chs i = Some (mkChapterG p k (S w)) ->
    step (mkState co c chs false)
         (mkState co c (Batch.setNth chs i (mkChapterG p (k - 1) w)) false)
| ch_fatal (co : coordPC) (c : Z) (chs : list chapterG) (i : nat) (k : Z) (w : nat) :
    nth_error chs i = Some (mkChapterG ChFetch k w) ->
    step (mkState co c chs false)
         (mkState co c chs true)
| ch_failed (co : coordPC) (c : Z) (chs : list chapterG) (i : nat) (k : Z) (w : nat) :
    nth_error chs i = Some (mkChapterG ChPast k w) ->
    step (mkState co c chs false)
         (mkState co c chs true)
| worker_fatal (co : coordPC) (c : Z) (chs : list chapterG) (i : nat)
               (p : chapterPC) (k : Z) (w : nat) :
    nth_error chs i = Some (mkChapterG p k (S w)) ->
    step (mkState co c chs false)
         (mkState co c chs true).

Inductive reachable (selected : nat) : state -> Prop :=
| reach_init : reachable selected (init selected)
| reach_step (s s' : state) :
    reachable selected s -> step s s' -> reachable selected s'.

(** The counter of a chapter is its workers that have not ended, and
    one more between [wg.Add(1)] and [go]; past [wg.Wait()] there is no
    such worker. *)
Definition chapterOk (ch : chapterG) : Prop :=
  inner ch = (Z.of_nat (cworkers ch)
              + match cpc ch with ChGo _ => 1 | _ => 0 end)%Z
  /\ match cpc ch with
     | ChPast | ChDone => cworkers ch = 0
     | _ => True
     end.

Definition held (ch : chapterG) : Z :=
  match cpc ch with ChDone => 0 | _ => 1 end.

Fixpoint heldAll (chs : list chapterG) : Z :=
  match chs with
  | [] => 0
  | ch :: chs' => (held ch + heldAll chs')%Z
  end.

Definition heldCoord (co : coordPC) : Z :=
  match co with CoGo _ => 1 | _ => 0 end.

Definition started (selected : nat) (s : state) : Prop :=
  match coord s with
  | CoLoop rest => (length (chapters s) + rest)%nat = selected
  | CoGo rest => (length (chapters s) + S rest)%nat = selected
  | CoWait | CoReturned => length (chapters s) = selected
  end.

Definition invariant (selected : nat) (s : state) : Prop :=
  outer s = (heldCoord (coord s) + heldAll (chapters s))%Z
  /\ Forall chapterOk (chapters s)
  /\ started selected s
  /\ (coord s = CoReturned -> outer s = 0%Z).

End Nested.

(** ** The goroutines of [downloadImages], archive variant

    [downloadImages] has a wait group of its own: it starts one worker
    per image, waits for all of them and then makes the archive.  A
    worker that succeeds writes its file into the chapter directory and
    ends with [wg.Done()]; one that fails ends the process. *)

Module Download.

(** [downloadImages]: in the loop at index [i] with [rest] to go,
    between [wg.Add(1)] and the [go] statement, in [wg.Wait()], past it,
    returned with an error or [nil]. *)
Inductive pcT : Type :=
| Loop (i : nat) (rest : list string)
| Go (i : nat) (imageURL : string) (rest : list string)
| Wait
| Finish
| Return (err : option ioError).

Record state : Type := mkState {
  pc : pcT;
  wg : Z;
  running : list (nat * string);
  fs : fileSystem;
  exited : bool
}.

(** [name] put into a sorted list of names, once. *)
Fixpoint insertName (name : string) (names : list string) : list string :=
  match names with
  | [] => [name]
  | n :: names' =>
      match String.compare name n with
      | Lt => name :: names
      | Eq => names
      | Gt => n :: insertName name names'
      end
  end.

Definition setDir (fs : fileSystem) (path : string) (names : list string) : fileSystem :=
  mkFS ((path, names) :: remove (dirs fs) path) (archives fs).

Section Run.

Variable ft : faults.
Variable createCbz : bool.
Variable selectedDownloadLocation : string.
Variable manga : Manga.
Variable chapter : Chapter.

Definition dirPath : string := chapterDirPath selectedDownloadLocation manga chapter.
Definition cbz : string := cbzFilename selectedDownloadLocation manga chapter.

(** The state after [os.MkdirAll] and [p.AddBar]. *)
Definition init (fs0 : fileSystem) : state :=
  mkState (Loop 0 (ImageURLs chapter)) 0 [] fs0 false.

Inductive step : state -> state -> Prop :=
| loop_add (i : nat) (u : string) (rest : list string) (c : Z)
           (run : list (nat * string)) (f : fileSystem) :
    step (mkState (Loop i (u :: rest)) c run f false)
         (mkState (Go i u rest) (c + 1) run f false)
| loop_go (i : nat) (u : string) (rest : list string) (c : Z)
          (run : list (nat * string)) (f : fileSystem) :
    step (mkState (Go i u rest) c run f false)
         (mkState (Loop (S i) rest) c ((i, u) :: run) f false)
| loop_end (i : nat) (c : Z) (run : list (nat * string)) (f : fileSystem) :
    step (mkState (Loop i []) c run f false)
         (mkState Wait c run f false)
| worker_ok (p : pcT) (c : Z) (r1 r2 : list (nat * string)) (i : nat) (u : string)
            (f : fileSystem) (names : list string) :
    lookupDir f dirPath = Some names ->
    step (mkState p c (r1 ++ (i, u) :: r2) f false)
         (mkState p (c - 1) (r1 ++ r2)
                  (setDir f dirPath (insertName (imageName i u) names)) false)
| worker_fatal (p : pcT) (c : Z) (r1 r2 : list (nat * string)) (w : nat * string)
               (f : fileSystem) :
    step (mkState p c (r1 ++ w :: r2) f false)
         (mkState p c (r1 ++ w :: r2) f true)
| wait_done (run : list (nat * string)) (f : fileSystem) :
    step (mkState Wait 0 run f false)
         (mkState Finish 0 run f false)
| finish (c : Z) (run : list (nat * string)) (f : fileSystem) :
    step (mkState Finish c run f false)
         (mkState (Return (snd (archiveChapter ft f createCbz
                                   selectedDownloadLocation manga chapter)))
                  c run
                  (fst (archiveChapter ft f createCbz
                          selectedDownloadLocation manga chapter))
                  false).

(** The states of a run that starts with the chapter directory made. *)
Inductive reachable : state -> Prop :=
| reach_init (fs0 : fileSystem) (names : list string) :
    lookupDir fs0 dirPath = Some names -> reachable (init fs0)
| reach_step (s s' : state) : reachable s -> step s s' -> reachable s'.

(** The directory holds the file of every image. *)
Definition allImagesIn (names : list string) : Prop :=
  forall i u, nth_error (ImageURLs chapter) i = Some u -> In (imageName i u) names.

(** Of the images [pre] whose worker has been started, each is still
    being downloaded or has its file in the directory. *)
Definition progress (pre : list string) (s : state) : Prop :=
  exists names,
    lookupDir (fs s) dirPath = Some names
    /\ forall j u, nth_error pre j = Some u ->
                   In (j, u) (running s) \/ In (imageName j u) names.

(** Where the function stands against what has been done. *)
Definition invariant (s : state) : Prop :=
  wg s = (Z.of_nat (length (running s))
          + match pc s with Go _ _ _ => 1 | _ => 0 end)%Z
  /\ match pc s with
     | Loop i rest =>
         exists pre, ImageURLs chapter = pre ++ rest /\ length pre = i /\ progress pre s
     | Go i u rest =>
         exists pre, ImageURLs chapter = pre ++ u :: rest /\ length pre = i
                     /\ progress pre s
     | Wait => progress (ImageURLs chapter) s
     | Finish =>
         running s = []
         /\ exists names, lookupDir (fs s) dirPath = Some names /\ allImagesIn names
     | Return err =>
         running s = []
         /\ exists fsPre names,
             lookupDir fsPre dirPath = Some names
             /\ allImagesIn names
             /\ archiveChapter ft fsPre createCbz selectedDownloadLocation manga chapter
                = (fs s, err)
     end.

End Run.

End Download.

(** ** The chapter number of a scraped name

    [regexp.Compile] of the pattern [Chapter (\d+(\.\d+)?)] succeeds;
    [FindStringSubmatch] returns the leftmost match with its two groups,
    each repetition taking as many digits as there are. *)

Definition isDigit (c : ascii) : bool :=
  (48 <=? nat_of_ascii c)%nat && (nat_of_ascii c <=? 57)%nat.

Fixpoint allDigits (s : string) : bool :=
  match s with
  | EmptyString => true
  | String c s' => isDigit c && allDigits s'
  end.

(** The longest run of digits at the start of [s], and what follows. *)
Fixpoint takeDigits (s : string) : string * string :=
  match s with
  | String c s' =>
      if isDigit c then
        let '(d, rest) := takeDigits s' in (String c d, rest)
      else (EmptyString, s)
  | EmptyString => (EmptyString, EmptyString)
  end.

(** [s] without the prefix [p], when it starts with it. *)
Fixpoint stripPrefix (p s : string) : option string :=
  match p, s with
  | EmptyString, _ => Some s
  | String a p', String b s' => if Ascii.eqb a b then stripPrefix p' s' else None
  | String _ _, EmptyString => None
  end.

(** The match of the pattern at the very start of [s]: the whole match
    and the groups [(\d+(\.\d+)?)] and [(\.\d+)]. *)
Definition matchHere (s : string) : list string :=
  match stripPrefix "Chapter " s with
  | None => []
  | Some t =>
      let '(d, rest) := takeDigits t in
      match d with
      | EmptyString => []
      | String _ _ =>
          let frac :=
            match rest with
            | String c rest' =>
                if Ascii.eqb c "." then
                  match takeDigits rest' with
                  | (String f0 f, _) => String c (String f0 f)
                  | (EmptyString, _) => EmptyString
                  end
                else EmptyString
            | EmptyString => EmptyString
            end in
          [("Chapter " ++ d ++ frac)%string; (d ++ frac)%string; frac]
      end
  end.

(** [r.FindStringSubmatch(name)]: [[]] when nothing matches. *)
Fixpoint FindStringSubmatch (name : string) : list string :=
  match matchHere name with
  | (_ :: _) as matches => matches
  | [] =>
      match name with
      | String _ name' => FindStringSubmatch name'
      | EmptyString => []
      end
  end.

(** The language of the pattern. *)
Definition matchesPattern (m : string) : Prop :=
  exists d frac : string,
    m = ("Chapter " ++ d ++ frac)%string
    /\ d <> EmptyString /\ allDigits d = true
    /\ (frac = EmptyString
        \/ exists f, frac = String "." f /\ f <> EmptyString /\ allDigits f = true).

(** [name] has a substring in that language. *)
Definition hasChapterNumber (name : string) : Prop :=
  exists pre m post : string,
    name = (pre ++ m ++ post)%string /\ matchesPattern m.

Section ChapterNumber.

Variable ParseFloat : string -> result NumError float64.

(** [getChapterNumber]: the number and the error, [None] for [nil]. *)
Definition getChapterNumber (name : string) : float64 * option NumError :=
  let matches := FindStringSubmatch name in
  if (1 <? length matches)%nat then
    match ParseFloat (nth 1 matches EmptyString) with
    | Err e => (S754_zero false, Some e)
    | Ok number => (number, None)
    end
  else (S754_zero false, None).

(** The body of the callback of [getChapters]: the chapter made from
    the texts scraped for it; an error ends the process. *)
Definition newChapter (manga : Manga) (url name rawTitle : string)
  : result NumError Chapter :=
  match getChapterNumber (strings.TrimSpace name) with
  | (_, Some e) => Err e
  | (number, None) =>
      let title := getCleanChapterTitle rawTitle in
      Ok (mkChapter url number title []
                    (filepath.Join [MangaTitle manga; fmt.Sprintf_g_s number title]))
  end.

End ChapterNumber.

(** ** Data of the examples *)

(** The number a decimal text stands for. *)
Definition mustParse (s : string) : float64 :=
  match strconv.ParseFloat s with
  | Ok f => f
  | Err _ => S754_nan
  end.

Definition onePiece : Manga := mkManga "/mangas/5/one-piece" "One Piece".

(** A chapter as [getChapters] makes it from a name and a title. *)
Definition scraped (name rawTitle : string) : Chapter :=
  match newChapter strconv.ParseFloat onePiece "/chapters/1" name rawTitle with
  | Ok chapter => chapter
  | Err _ => mkChapter "" S754_nan "" [] ""
  end.

Definition withImages (chapter : Chapter) (imageURLs : list string) : Chapter :=
  mkChapter (URL chapter) (Number chapter) (Title chapter) imageURLs (Folder chapter).

(** The available chapters 1, 2, 2.5 and 3. *)
Definition available : list float64 :=
  map mustParse ["1"; "2"; "2.5"; "3"].

Definition noFaults : faults :=
  mkFaults (fun _ => false) (fun _ => false) (fun _ => false) (fun _ => false)
           (fun _ => false) false (fun _ => false).

(** The copy of the second image fails. *)
Definition copyFails : faults :=
  mkFaults (fun _ => false) (fun _ => false) (fun _ => false) (fun _ => false)
           (fun path => String.eqb path "/tmp/One Piece/005 Romance Dawn/002.jpg")
           false (fun _ => false).

(** [zipWriter.Close] fails. *)
Definition closeFails : faults :=
  mkFaults (fun _ => false) (fun _ => false) (fun _ => false) (fun _ => false)
           (fun _ => false) true (fun _ => false).

Definition chapter5 : Chapter := scraped "Chapter 5" "Romance Dawn".

(** The chapters 1, 2, 2.5 and 3 as scraped. *)
Definition allChapters : list Chapter :=
  [scraped "Chapter 1" "Romance Dawn"; scraped "Chapter 2" "They Call Him Luffy";
   scraped "One Piece Chapter 2.5" "Special?"; scraped "Chapter 3" "Enter Zoro"].

Definition eightImages : list string :=
  ["https://cdn.example/5/a.jpg"; "https://cdn.example/5/b.jpg";
   "https://cdn.example/5/c.png"; "https://cdn.example/5/d.jpg";
   "https://cdn.example/5/e.jpg"; "https://cdn.example/5/f.jpg";
   "https://cdn.example/5/g.jpg"; "https://cdn.example/5/h"].





Definition twoImages : fileSystem :=
  mkFS [("/tmp/One Piece/005 Romance Dawn", ["001.jpg"; "002.jpg"])] [].

(** [chapterMap[chapter] = true] for each number of a list in turn. *)
Definition assignAll (xs : list float64) (m : gomap bool) : gomap bool :=
  fold_left (fun m x => mapassign m x true) xs m.

(** Two slices that are equal element by element, as [==] sees them. *)
Definition sameNumbers (r r' : list float64) : Prop :=
  Forall2 (fun u v => feq u v = true) r r'.

(** [chapter >= start && chapter <= end]. *)
Definition inRange (start stop chapter : float64) : bool :=
  fge chapter start && fle chapter stop.

(** ** What the parts of an input select

    The parser read as a union of what its parts ask for. *)

Section Contribution.

Variable ParseFloat : string -> result NumError float64.

(** The numbers the part [part] asks for: its number, or the available
    chapters within its two bounds. *)
Definition contribution (availableChapters : list float64) (part : string)
  : list float64 :=
  if strings.Contains part "-" then
    match strings.Split part "-" with
    | [a; b] =>
        match ParseFloat (strings.TrimSpace a), ParseFloat (strings.TrimSpace b) with
        | Ok x, Ok y => filter (inRange x y) availableChapters
        | _, _ => []
        end
    | _ => []
    end
  else
    match ParseFloat (strings.TrimSpace part) with
    | Ok x => [x]
    | Err _ => []
    end.

(** The parts the parser accepts: a number that parses, or two bounds
    that parse with the start not greater than the end. *)
Definition wellFormed (part : string) : bool :=
  if strings.Contains part "-" then
    match strings.Split part "-" with
    | [a; b] =>
        match ParseFloat (strings.TrimSpace a), ParseFloat (strings.TrimSpace b) with
        | Ok x, Ok y => negb (fgt x y)
        | _, _ => false
        end
    | _ => false
    end
  else negb (isErr (ParseFloat (strings.TrimSpace part))).

(** The error the parser returns for a part it does not accept. *)
Definition partError (part : string) : error :=
  if strings.Contains part "-" then
    match strings.Split part "-" with
    | [a; b] =>
        match ParseFloat (strings.TrimSpace a), ParseFloat (strings.TrimSpace b) with
        | Err _, _ => ErrInvalidStart a
        | Ok _, Err _ => ErrInvalidEnd b
        | Ok _, Ok _ => ErrStartGreater a b
        end
    | _ => ErrInvalidRangeFormat part
    end
  else
    match ParseFloat (strings.TrimSpace part) with
    | Err e => ErrNum e
    | Ok _ => PanicIndex
    end.

End Contribution.

(** The number of [NaN]s of a slice. *)
Definition countNaN (l : list float64) : nat := length (filter isNaN l).

(** Two slices that are equal element by element as [==] sees them,
    with a [NaN] standing against a [NaN]. *)
Definition sameSlice (r r' : list float64) : Prop :=
  Forall2 (fun u v => feq u v = true \/ (isNaN u = true /\ isNaN v = true)) r r'.

(** The inner loop of [chapterSelection] of [cmd/tcb-cli/main.go]:
    the chapters whose number [slices.Contains] finds among the numbers
    selected, in the order of [allChapters]. *)
Definition selectChapters (chapterNumbers : list float64) (allChapters : list Chapter)
  : list Chapter :=
  filter (fun chapter => slicesContains chapterNumbers (Number chapter)) allChapters.

(** The loops of [chapterSelection] of the oldest variant: for every
    number selected, the first chapter that has it. *)
Fixpoint selectFirst (chapterNumbers : list float64) (chapters : list Chapter)
  : list Chapter :=
  match chapterNumbers with
  | [] => []
  | number :: rest =>
      match find (fun chapter => feq (Number chapter) number) chapters with
      | Some chapter => chapter :: selectFirst rest chapters
      | None => selectFirst rest chapters
      end
  end.

(** ** The prompts

    What the user types is the list of the results of the successive
    reads, [None] standing for a read that failed; a prompt that has
    not returned when the reads run out has the result [None]. *)

Section Prompts.

Variable ParseFloat : string -> result NumError float64.

(** The loop of [chapterSelection] of [cmd/tcb-cli/main.go], over the
    chapters as sorted before it. *)
Fixpoint chapterSelectionLoop (allChapters : list Chapter)
         (inputs : list (option string)) : option (list Chapter) :=
  match inputs with
  | [] => None
  | None :: rest => chapterSelectionLoop allChapters rest
  | Some input :: rest =>
      match parseChapterSelection ParseFloat input (getChapterNumbers allChapters) with
      | Err _ => chapterSelectionLoop allChapters rest
      | Ok chapterNumbers =>
          match selectChapters chapterNumbers allChapters with
          | [] => chapterSelectionLoop allChapters rest
          | (_ :: _) as selectedChapters => Some selectedChapters
          end
      end
  end.

End Prompts.

(** [mangaSelection] of [cmd/tcb-cli/main.go]: the first number read
    that is within [1..len(mangas)] chooses [mangas[selectedManga-1]]. *)
Fixpoint mangaSelection (mangas : list Manga) (inputs : list (option Z))
  : option Manga :=
  match inputs with
  | [] => None
  | None :: rest => mangaSelection mangas rest
  | Some selectedManga :: rest =>
      if (1 <=? selectedManga)%Z && (selectedManga <=? Z.of_nat (length mangas))%Z
      then nth_error mangas (Z.to_nat (selectedManga - 1))
      else mangaSelection mangas rest
  end.

(** [mangaSelection] of the archive variant, which looks the number up
    in a [map[int]Manga]. *)
Module Archive.

Definition intmap : Type := list (Z * Manga).

Fixpoint mapaccess (m : intmap) (k : Z) : option Manga :=
  match m with
  | [] => None
  | (k', v) :: m' => if (k' =? k)%Z then Some v else mapaccess m' k
  end.

Fixpoint mapassign (m : intmap) (k : Z) (v : Manga) : intmap :=
  match m with
  | [] => [(k, v)]
  | (k', v') :: m' =>
      if (k' =? k)%Z then (k', v) :: m' else (k', v') :: mapassign m' k v
  end.

(** [for i, manga := range mangas { mangaMap[i+1] = manga }], from the
    index [i] on. *)
Fixpoint fillMangaMap (i : Z) (mangas : list Manga) (mangaMap : intmap) : intmap :=
  match mangas with
  | [] => mangaMap
  | manga :: rest => fillMangaMap (i + 1) rest (mapassign mangaMap (i + 1)%Z manga)
  end.

Fixpoint selectionLoop (mangaMap : intmap) (inputs : list (option Z)) : option Manga :=
  match inputs with
  | [] => None
  | None :: rest => selectionLoop mangaMap rest
  | Some selectedManga :: rest =>
      match mapaccess mangaMap selectedManga with
      | Some manga => Some manga
      | None => selectionLoop mangaMap rest
      end
  end.

Definition mangaSelection (mangas : list Manga) (inputs : list (option Z))
  : option Manga :=
  selectionLoop (fillMangaMap 0 mangas []) inputs.

End Archive.

(** * Properties *)

(** ** Floating-point comparisons *)

Ltac float_cmp :=
  unfold fgt, fge, flt, fle, feq, SFltb, SFleb, SFeqb, SFcompare in *;
  repeat match goal with
         | x : float64 |- _ => destruct x
         | x : spec_float |- _ => destruct x
         end;
  repeat match goal with
         | b : bool |- _ => destruct b
         end;
  simpl in *; try congruence;
  change (Pos.compare_cont Eq) with Pos.compare in *;
  repeat match goal with
         | |- context [Z.compare ?a ?b] => destruct (Z.compare_spec a b)
         | H : context [Z.compare ?a ?b] |- _ => destruct (Z.compare_spec a b)
         | |- context [Pos.compare ?a ?b] => destruct (Pos.compare_spec a b)
         | H : context [Pos.compare ?a ?b] |- _ => destruct (Pos.compare_spec a b)
         end;
  subst; simpl in *; try congruence; try lia.

Lemma feq_eq (x y : float64) :
  feq x y = true -> x = y \/ (isZero x = true /\ isZero y = true).
Proof. float_cmp; auto. Qed.

Lemma feq_refl (x : float64) : isNaN x = false -> feq x x = true.
Proof. float_cmp. Qed.

Lemma feq_sym (x y : float64) : feq x y = feq y x.
Proof. float_cmp. Qed.

Lemma feq_trans (x y z : float64) :
  feq x y = true -> feq y z = true -> feq x z = true.
Proof. float_cmp. Qed.

Lemma feq_not_nan (x y : float64) :
  feq x y = true -> isNaN x = false /\ isNaN y = false.
Proof. float_cmp; auto. Qed.

Lemma feq_congr_l (x y z : float64) :
  feq x y = true -> feq x z = feq y z.
Proof. float_cmp. Qed.

Lemma fle_congr_l (x y z : float64) :
  feq x y = true -> fle x z = fle y z.
Proof. float_cmp. Qed.

Lemma fle_congr_r (x y z : float64) :
  feq x y = true -> fle z x = fle z y.
Proof. float_cmp. Qed.

Lemma flt_congr_l (x y z : float64) :
  feq x y = true -> flt x z = flt y z.
Proof. float_cmp. Qed.

Lemma flt_congr_r (x y z : float64) :
  feq x y = true -> flt z x = flt z y.
Proof. float_cmp. Qed.

Lemma flt_irrefl (x : float64) : flt x x = false.
Proof. float_cmp. Qed.

Lemma flt_asym (x y : float64) : flt x y = true -> flt y x = false.
Proof. float_cmp. Qed.

Lemma flt_trans (x y z : float64) :
  flt x y = true -> flt y z = true -> flt x z = true.
Proof. float_cmp. Qed.

Lemma flt_not_nan (x y : float64) :
  flt x y = true -> isNaN x = false /\ isNaN y = false.
Proof. float_cmp; auto. Qed.

Lemma fle_not_nan (x y : float64) :
  fle x y = true -> isNaN x = false /\ isNaN y = false.
Proof. float_cmp; auto. Qed.

Lemma fle_lt_or_eq (x y : float64) : fle x y = flt x y || feq x y.
Proof. float_cmp. Qed.

Lemma flt_total (x y : float64) :
  isNaN x = false -> isNaN y = false ->
  flt x y = true \/ feq x y = true \/ flt y x = true.
Proof. float_cmp; auto. Qed.

Lemma fgt_not_fle (x y : float64) : fgt x y = true -> fle x y = false.
Proof. float_cmp. Qed.

(** ** Strings *)

Lemma Contains_app (s t : string) (c : ascii) :
  strings.Contains (s ++ t) c = strings.Contains s c || strings.Contains t c.
Proof.
  induction s as [|a s IH]; simpl; [reflexivity|].
  destruct (Ascii.eqb a c); [reflexivity | exact IH].
Qed.

Lemma Split_not_nil (s : string) (c : ascii) : strings.Split s c <> [].
Proof.
  destruct s as [|a s]; simpl; [discriminate|].
  destruct (Ascii.eqb a c); [discriminate|].
  destruct (strings.Split s c); discriminate.
Qed.

Lemma Split_no_sep (s : string) (c : ascii) :
  strings.Contains s c = false -> strings.Split s c = [s].
Proof.
  induction s as [|a s IH]; simpl; [reflexivity|].
  destruct (Ascii.eqb a c); [discriminate|].
  intros H. rewrite (IH H). reflexivity.
Qed.

Lemma Split_app (s t : string) (c : ascii) :
  strings.Contains s c = false ->
  strings.Split (s ++ String c t) c = s :: strings.Split t c.
Proof.
  induction s as [|a s IH]; simpl.
  - rewrite Ascii.eqb_refl. reflexivity.
  - destruct (Ascii.eqb a c); [discriminate|].
    intros H. rewrite (IH H). reflexivity.
Qed.

(** A piece of [Split] holds no separator. *)
Lemma Split_pieces (s : string) (c : ascii) :
  Forall (fun p => strings.Contains p c = false) (strings.Split s c).
Proof.
  induction s as [|a s IH]; simpl.
  - constructor; [reflexivity | constructor].
  - destruct (Ascii.eqb a c) eqn:E.
    + constructor; [reflexivity | exact IH].
    + destruct (strings.Split s c) as [|p ps]; simpl.
      * constructor; [simpl; rewrite E; reflexivity | constructor].
      * inversion IH; subst. constructor; [simpl; rewrite E; assumption | assumption].
Qed.

Lemma Split_app_sep (s t : string) (c : ascii) :
  strings.Split (s ++ String c t) c = strings.Split s c ++ strings.Split t c.
Proof.
  induction s as [|a s IH]; simpl.
  - rewrite Ascii.eqb_refl. reflexivity.
  - destruct (Ascii.eqb a c); [rewrite IH; reflexivity|].
    rewrite IH. pose proof (Split_not_nil s c) as Hn.
    destruct (strings.Split s c); [congruence | reflexivity].
Qed.

(** [Split] is undone by [Join]. *)
Lemma Join_Split (s : string) (c : ascii) :
  strings.Join (strings.Split s c) (String c EmptyString) = s.
Proof.
  induction s as [|a s IH]; simpl; [reflexivity|].
  destruct (Ascii.eqb a c) eqn:E.
  - apply Ascii.eqb_eq in E. subst a.
    pose proof (Split_not_nil s c) as Hn.
    destruct (strings.Split s c) as [|p ps]; [congruence|].
    simpl in *. rewrite IH. reflexivity.
  - destruct (strings.Split s c) as [|p ps] eqn:Es.
    + exfalso. exact (Split_not_nil s c Es).
    + destruct ps as [|q qs]; simpl in *; rewrite <- IH; reflexivity.
Qed.

(** ** Maps *)

Lemma mapkeys_assign_In {V : Type} (m : gomap V) (k : float64) (v : V) (q : float64) :
  In q (mapkeys (mapassign m k v)) -> q = k \/ In q (mapkeys m).
Proof.
  induction m as [|[k' v'] m IH]; simpl.
  - intros [H|[]]; auto.
  - destruct (feq k' k); simpl.
    + intros [H|H]; auto.
    + intros [H|H]; auto. destruct (IH H); auto.
Qed.

Lemma slicesContains_assign {V : Type} (m : gomap V) (k : float64) (v : V) (q : float64) :
  slicesContains (mapkeys (mapassign m k v)) q
  = slicesContains (mapkeys m) q || feq k q.
Proof.
  unfold slicesContains.
  induction m as [|[k' v'] m IH]; simpl.
  - apply orb_false_r.
  - destruct (feq k' k) eqn:E; simpl.
    + rewrite (feq_congr_l _ _ q E). clear IH.
      destruct (feq k q), (existsb (fun e => feq e q) (mapkeys m)); reflexivity.
    + rewrite IH. destruct (feq k' q); reflexivity.
Qed.

Lemma mapassign_distinct {V : Type} (m : gomap V) (k : float64) (v : V) :
  distinctKeys (mapkeys m) -> distinctKeys (mapkeys (mapassign m k v)).
Proof.
  unfold distinctKeys.
  induction m as [|[k' v'] m IH]; simpl; intros H.
  - constructor; [constructor | constructor].
  - inversion H as [|? ? Hk Hm]; subst.
    destruct (feq k' k) eqn:E; simpl.
    + constructor; [|assumption].
      rewrite Forall_forall in *. intros b Hb.
      rewrite <- (feq_congr_l _ _ b E). auto.
    + constructor; [|auto].
      rewrite Forall_forall in *. intros b Hb.
      destruct (mapkeys_assign_In _ _ _ _ Hb) as [->|Hb']; auto.
Qed.

(** The value stored by an assignment is found again, unless the key
    is a [NaN]. *)
Lemma mapaccess_assign {V : Type} (m : gomap V) (k : float64) (v : V) :
  isNaN k = false -> mapaccess (mapassign m k v) k = Some v.
Proof.
  intros Hk. induction m as [|[k' v'] m IH]; simpl.
  - rewrite (feq_refl k Hk). reflexivity.
  - destruct (feq k' k) eqn:E; simpl.
    + rewrite (feq_refl k Hk). reflexivity.
    + rewrite E. exact IH.
Qed.

(** ** Sorting *)

Lemma insertFloat64_perm (x : float64) (l : list float64) :
  Permutation (insertFloat64 x l) (x :: l).
Proof.
  induction l as [|y l IH]; simpl; [reflexivity|].
  destruct (lessFloat64 y x); [|reflexivity].
  rewrite IH. apply perm_swap.
Qed.

Lemma sortFloat64s_perm (l : list float64) : Permutation (sortFloat64s l) l.
Proof.
  induction l as [|x l IH]; simpl; [reflexivity|].
  rewrite insertFloat64_perm. constructor. exact IH.
Qed.

Lemma slicesContains_perm (l l' : list float64) (q : float64) :
  Permutation l l' -> slicesContains l q = slicesContains l' q.
Proof.
  unfold slicesContains.
  induction 1 as [|x l l' _ IH|x y l|l l' l'' _ IH1 _ IH2]; simpl.
  - reflexivity.
  - rewrite IH. reflexivity.
  - destruct (feq y q), (feq x q); reflexivity.
  - rewrite IH1. exact IH2.
Qed.

Lemma slicesContains_In (l : list float64) (q : float64) :
  slicesContains l q = true <-> exists e, In e l /\ feq e q = true.
Proof. unfold slicesContains. apply existsb_exists. Qed.

Lemma lessFloat64_flt (x y : float64) :
  isNaN x = false -> lessFloat64 x y = flt x y.
Proof.
  intros H. unfold lessFloat64. rewrite H. apply orb_false_r.
Qed.

Lemma insertFloat64_ascending (x : float64) (l : list float64) :
  ascending l ->
  isNaN x = false ->
  Forall (fun y => isNaN y = false) l ->
  Forall (fun y => feq x y = false) l ->
  ascending (insertFloat64 x l).
Proof.
  unfold ascending.
  induction l as [|y l IH]; simpl; intros Hs Hx Hn Hd.
  - constructor; constructor.
  - inversion Hs as [|? ? Hs' Hy]; subst.
    inversion Hn as [|? ? Hny Hn']; subst.
    inversion Hd as [|? ? Hxy Hd']; subst.
    rewrite (lessFloat64_flt y x Hny).
    destruct (flt y x) eqn:E.
    + constructor; [auto|].
      eapply Permutation_Forall.
      * symmetry. apply insertFloat64_perm.
      * constructor; assumption.
    + assert (Hlt : flt x y = true).
      { destruct (flt_total x y Hx Hny) as [H|[H|H]]; congruence. }
      constructor; [assumption|].
      constructor; [assumption|].
      rewrite Forall_forall in *. intros z Hz.
      eapply flt_trans; eauto.
Qed.

Lemma sortFloat64s_ascending (l : list float64) :
  distinctKeys l ->
  Forall (fun y => isNaN y = false) l ->
  ascending (sortFloat64s l).
Proof.
  unfold distinctKeys.
  induction l as [|x l IH]; simpl; intros Hd Hn.
  - constructor.
  - inversion Hd as [|? ? Hx Hd']; subst.
    inversion Hn as [|? ? Hnx Hn']; subst.
    apply insertFloat64_ascending; auto.
    + eapply Permutation_Forall; [symmetry; apply sortFloat64s_perm | assumption].
    + eapply Permutation_Forall; [symmetry; apply sortFloat64s_perm | assumption].
Qed.

(** A strictly ascending slice holds no number twice. *)
Lemma ascending_distinct (l : list float64) : ascending l -> distinctKeys l.
Proof.
  unfold ascending, distinctKeys.
  induction 1 as [|x l _ IH Hx]; constructor; [|exact IH].
  rewrite Forall_forall in *. intros y Hy.
  specialize (Hx y Hy).
  destruct (feq x y) eqn:E; [|reflexivity].
  rewrite (flt_congr_l _ _ y E), flt_irrefl in Hx. discriminate.
Qed.

(** *** The sorted slice does not depend on the order of iteration *)

Lemma lessFloat64_irrefl (x : float64) : lessFloat64 x x = false.
Proof. unfold lessFloat64. rewrite flt_irrefl. destruct x; reflexivity. Qed.

Lemma lessFloat64_asym (x y : float64) :
  lessFloat64 x y = true -> lessFloat64 y x = false.
Proof. unfold lessFloat64, isNaN. float_cmp. Qed.

Lemma lessFloat64_negtrans (x y z : float64) :
  lessFloat64 x y = false -> lessFloat64 y z = false -> lessFloat64 x z = false.
Proof. unfold lessFloat64, isNaN. float_cmp. Qed.

(** Two numbers neither of which is less than the other are two [NaN]s
    or equal under [==]. *)
Lemma lessFloat64_equiv (x y : float64) :
  lessFloat64 x y = false -> lessFloat64 y x = false ->
  (x = S754_nan /\ y = S754_nan) \/ feq x y = true.
Proof. unfold lessFloat64, isNaN. float_cmp; auto. Qed.

Lemma insertFloat64_inOrder (x : float64) (l : list float64) :
  inOrder l -> inOrder (insertFloat64 x l).
Proof.
  unfold inOrder. induction l as [|y l IH]; simpl; intros Hs.
  - constructor; constructor.
  - inversion Hs as [|? ? Hs' Hy]; subst.
    destruct (lessFloat64 y x) eqn:E.
    + constructor; [auto|].
      eapply Permutation_Forall; [symmetry; apply insertFloat64_perm|].
      constructor; [apply lessFloat64_asym; exact E | exact Hy].
    + constructor; [exact Hs|].
      constructor; [exact E|].
      rewrite Forall_forall in *. intros z Hz.
      apply (lessFloat64_negtrans z y x); auto.
Qed.

Lemma sortFloat64s_inOrder (l : list float64) : inOrder (sortFloat64s l).
Proof.
  induction l as [|x l IH]; simpl; [constructor|].
  apply insertFloat64_inOrder, IH.
Qed.

Lemma distinctKeys_eq (l : list float64) (a b : float64) :
  distinctKeys l -> In a l -> In b l -> feq a b = true -> a = b.
Proof.
  unfold distinctKeys. induction 1 as [|x l Hx _ IH]; [intros []|].
  rewrite Forall_forall in Hx.
  intros [Ha|Ha] [Hb|Hb] E; subst; auto.
  - rewrite (Hx b Hb) in E. discriminate.
  - rewrite feq_sym, (Hx a Ha) in E. discriminate.
Qed.

(** Two slices in order that are permutations of one another, with
    pairwise different keys, are the same slice. *)
Lemma inOrder_unique (l1 l2 : list float64) :
  inOrder l1 -> inOrder l2 -> Permutation l1 l2 ->
  (forall a b, In a l1 -> In b l1 ->
               lessFloat64 a b = false -> lessFloat64 b a = false -> a = b) ->
  l1 = l2.
Proof.
  unfold inOrder. revert l2.
  induction l1 as [|a l1 IH]; intros l2 H1 H2 Hp Hanti.
  - apply Permutation_nil in Hp. congruence.
  - destruct l2 as [|b l2].
    + apply Permutation_sym, Permutation_nil in Hp. discriminate.
    + inversion H1 as [|? ? H1' Ha]; subst. inversion H2 as [|? ? H2' Hb]; subst.
      rewrite Forall_forall in Ha, Hb.
      assert (Hba : lessFloat64 b a = false).
      { assert (Hin : In b (a :: l1))
          by (eapply Permutation_in; [symmetry; exact Hp | left; reflexivity]).
        destruct Hin as [->|Hin]; [apply lessFloat64_irrefl | auto]. }
      assert (Hab : lessFloat64 a b = false).
      { assert (Hin : In a (b :: l2))
          by (eapply Permutation_in; [exact Hp | left; reflexivity]).
        destruct Hin as [->|Hin]; [apply lessFloat64_irrefl | auto]. }
      assert (Heq : a = b).
      { apply Hanti; auto.
        - left. reflexivity.
        - eapply Permutation_in; [symmetry; exact Hp | left; reflexivity]. }
      subst b. f_equal. apply IH; auto.
      * eapply Permutation_cons_inv. exact Hp.
      * intros x y Hx Hy. apply Hanti; right; assumption.
Qed.

(** Whatever the order in which the keys of a map are met, sorting them
    gives the same slice. *)
Lemma sortFloat64s_perm_unique (l l' : list float64) :
  Permutation l l' -> distinctKeys l -> sortFloat64s l = sortFloat64s l'.
Proof.
  intros Hp Hd. apply inOrder_unique.
  - apply sortFloat64s_inOrder.
  - apply sortFloat64s_inOrder.
  - rewrite (sortFloat64s_perm l), (sortFloat64s_perm l'). exact Hp.
  - intros a b Ha Hb Hab Hba.
    destruct (lessFloat64_equiv a b Hab Hba) as [[-> ->]|E]; [reflexivity|].
    apply (distinctKeys_eq l); auto.
    + eapply Permutation_in; [apply sortFloat64s_perm | exact Ha].
    + eapply Permutation_in; [apply sortFloat64s_perm | exact Hb].
Qed.

(** ** The range loop *)

Lemma inRange_congr (start stop x y : float64) :
  feq x y = true -> inRange start stop x = inRange start stop y.
Proof.
  intros H. unfold inRange, fge.
  rewrite (fle_congr_r _ _ start H), (fle_congr_l _ _ stop H). reflexivity.
Qed.

Lemma inRange_not_nan (start stop x : float64) :
  inRange start stop x = true -> isNaN x = false.
Proof.
  unfold inRange, fge. intros H. apply andb_prop in H. destruct H as [_ H].
  apply (fle_not_nan _ _ H).
Qed.

Lemma addRange_In (avail : list float64) (start stop : float64) (m : gomap bool) (q : float64) :
  In q (mapkeys (addRange avail start stop m)) ->
  In q (mapkeys m) \/ (In q avail /\ inRange start stop q = true).
Proof.
  revert m. induction avail as [|c avail IH]; simpl; intros m H; [auto|].
  apply IH in H. destruct H as [H|[H1 H2]]; [|auto].
  fold (inRange start stop c) in H.
  destruct (inRange start stop c) eqn:E; [|auto].
  apply mapkeys_assign_In in H. destruct H as [->|H]; auto.
Qed.

Lemma addRange_contains (avail : list float64) (start stop : float64) (m : gomap bool) (q : float64) :
  slicesContains (mapkeys (addRange avail start stop m)) q
  = slicesContains (mapkeys m) q
    || (slicesContains avail q && inRange start stop q).
Proof.
  revert m. induction avail as [|c avail IH]; simpl; intros m.
  - rewrite orb_false_r. reflexivity.
  - rewrite IH. fold (inRange start stop c).
    destruct (feq c q) eqn:Ec; simpl.
    + rewrite <- (inRange_congr start stop c q Ec).
      destruct (inRange start stop c); simpl.
      * rewrite slicesContains_assign, Ec.
        destruct (slicesContains (mapkeys m) q); reflexivity.
      * rewrite andb_false_r, orb_false_r. reflexivity.
    + destruct (inRange start stop c); [|reflexivity].
      rewrite slicesContains_assign, Ec, orb_false_r. reflexivity.
Qed.

Lemma addRange_distinct (avail : list float64) (start stop : float64) (m : gomap bool) :
  distinctKeys (mapkeys m) ->
  distinctKeys (mapkeys (addRange avail start stop m)).
Proof.
  revert m. induction avail as [|c avail IH]; simpl; intros m H; [assumption|].
  apply IH. destruct (fge c start && fle c stop); [|assumption].
  apply mapassign_distinct. assumption.
Qed.

Lemma mapassign_In_key {V : Type} (m : gomap V) (k : float64) (v : V) :
  In k (mapkeys (mapassign m k v)).
Proof.
  induction m as [|[k' v'] m IH]; simpl; [auto|].
  destruct (feq k' k); simpl; auto.
Qed.

Lemma mapassign_keeps_nan {V : Type} (m : gomap V) (k : float64) (v : V) :
  In S754_nan (mapkeys m) -> In S754_nan (mapkeys (mapassign m k v)).
Proof.
  induction m as [|[k' v'] m IH]; simpl; [intros []|].
  destruct (feq k' k) eqn:E; simpl; intros [H|H]; auto.
  subst k'. destruct k; discriminate.
Qed.

Lemma addRange_keeps (avail : list float64) (start stop : float64) (m : gomap bool) (q : float64) :
  (slicesContains (mapkeys m) q = true ->
   slicesContains (mapkeys (addRange avail start stop m)) q = true)
  /\ (In S754_nan (mapkeys m) ->
      In S754_nan (mapkeys (addRange avail start stop m))).
Proof.
  split.
  - intros H. rewrite addRange_contains, H. reflexivity.
  - revert m. induction avail as [|c avail IH]; simpl; intros m H; [assumption|].
    apply IH. destruct (fge c start && fle c stop); [|assumption].
    apply mapassign_keeps_nan. assumption.
Qed.

(** ** Ascending slices with the same numbers *)

Lemma ascending_head_not_in (a v : float64) (r : list float64) :
  Forall (fun e => flt a e = true) r ->
  feq a v = true ->
  slicesContains r v = false.
Proof.
  intros Hr Hav.
  destruct (slicesContains r v) eqn:E; [|reflexivity].
  apply slicesContains_In in E. destruct E as [e [He Hev]].
  rewrite Forall_forall in Hr. specialize (Hr e He).
  assert (Hae : feq a e = true).
  { apply (feq_trans a v e Hav). rewrite feq_sym. exact Hev. }
  rewrite (flt_congr_l a e e Hae), flt_irrefl in Hr. discriminate.
Qed.

Lemma slicesContains_head (a : float64) (r : list float64) :
  isNaN a = false -> slicesContains (a :: r) a = true.
Proof.
  intros H. unfold slicesContains. simpl. rewrite (feq_refl a H). reflexivity.
Qed.

Lemma ascending_heads (a b : float64) (r r' : list float64) :
  Forall (fun e => flt a e = true) r ->
  Forall (fun e => flt b e = true) r' ->
  slicesContains (b :: r') a = true ->
  slicesContains (a :: r) b = true ->
  feq a b = true.
Proof.
  intros Ha Hb H1 H2.
  destruct (feq a b) eqn:E; [reflexivity|].
  exfalso. unfold slicesContains in H1, H2. simpl in H1, H2.
  rewrite E in H2. rewrite feq_sym, E in H1. simpl in H1, H2.
  apply existsb_exists in H1. destruct H1 as [e [He Hea]].
  apply existsb_exists in H2. destruct H2 as [e' [He' Heb]].
  rewrite Forall_forall in Ha, Hb.
  specialize (Hb e He). specialize (Ha e' He').
  rewrite (flt_congr_r e a b Hea) in Hb.
  rewrite (flt_congr_r e' b a Heb) in Ha.
  rewrite (flt_asym b a Hb) in Ha. discriminate.
Qed.

(** Two strictly ascending slices that hold the same numbers are equal
    element by element. *)
Lemma ascending_unique (r r' : list float64) :
  ascending r -> ascending r' ->
  Forall (fun e => isNaN e = false) r ->
  Forall (fun e => isNaN e = false) r' ->
  (forall v, slicesContains r v = slicesContains r' v) ->
  sameNumbers r r'.
Proof.
  unfold ascending, sameNumbers.
  revert r'. induction r as [|a r IH]; intros [|b r'] Hs Hs' Hn Hn' H.
  - constructor.
  - inversion Hn'; subst. specialize (H b).
    rewrite slicesContains_head in H by assumption. discriminate.
  - inversion Hn; subst. specialize (H a).
    rewrite slicesContains_head in H by assumption. discriminate.
  - inversion Hs as [|? ? Hs1 Ha]; subst. inversion Hs' as [|? ? Hs1' Hb]; subst.
    inversion Hn as [|? ? Hna Hn1]; subst. inversion Hn' as [|? ? Hnb Hn1']; subst.
    assert (Hab : feq a b = true).
    { apply (ascending_heads a b r r' Ha Hb).
      - rewrite <- H. apply slicesContains_head. assumption.
      - rewrite H. apply slicesContains_head. assumption. }
    constructor; [exact Hab|].
    apply IH; try assumption.
    intros v. specialize (H v). unfold slicesContains in H. simpl in H.
    fold (slicesContains r v) in H. fold (slicesContains r' v) in H.
    rewrite (feq_congr_l a b v Hab) in H.
    destruct (feq b v) eqn:Ebv; simpl in H; [|exact H].
    rewrite (ascending_head_not_in b v r' Hb Ebv).
    apply (ascending_head_not_in a v r Ha).
    rewrite (feq_congr_l a b v Hab). exact Ebv.
Qed.

(** Without a negative zero, [==] is equality. *)
Lemma sameNumbers_eq (r r' : list float64) :
  sameNumbers r r' ->
  Forall (fun e => e <> S754_zero true) r ->
  Forall (fun e => e <> S754_zero true) r' ->
  r = r'.
Proof.
  induction 1 as [|a b r r' Hab _ IH]; intros Hr Hr'; [reflexivity|].
  inversion Hr; subst. inversion Hr'; subst.
  f_equal; [|auto].
  destruct (feq_eq a b Hab) as [E|[Ea Eb]]; [exact E|].
  destruct a as [[|]| | |]; try discriminate; try congruence.
  destruct b as [[|]| | |]; try discriminate; try congruence.
Qed.

(** ** The selection parser *)

Section SelectionProperties.

Variable ParseFloat : string -> result NumError float64.

Local Abbreviation parseRange := (parseRange ParseFloat).
Local Abbreviation parseParts := (parseParts ParseFloat).
Local Abbreviation parsePart := (parsePart ParseFloat).
Local Abbreviation parseChapterSelection := (parseChapterSelection ParseFloat).
Local Abbreviation numberTokens := (numberTokens ParseFloat).

Lemma parseParts_cons (part : string) (rest : list string) (avail : list float64) (m : gomap bool) :
  parseParts (part :: rest) avail m
  = match parsePart part avail m with
    | Err e => Err e
    | Ok m' => parseParts rest avail m'
    end.
Proof.
  unfold parsePart. simpl.
  destruct (strings.Contains part "-").
  - destruct (negb _); [reflexivity|].
    destruct (parseRange _) as [[start stop]|e]; reflexivity.
  - destruct (ParseFloat _); reflexivity.
Qed.

Lemma parseParts_app (ps qs : list string) (avail : list float64) (m : gomap bool) :
  parseParts (ps ++ qs) avail m
  = match parseParts ps avail m with
    | Err e => Err e
    | Ok m' => parseParts qs avail m'
    end.
Proof.
  revert m. induction ps as [|p ps IH]; intros m; [reflexivity|].
  rewrite <- app_comm_cons, !parseParts_cons.
  destruct (parsePart p avail m); [apply IH | reflexivity].
Qed.

(** A number token: no ['-'] in it. *)
Lemma parsePart_number (part : string) (avail : list float64) (m : gomap bool) :
  strings.Contains part "-" = false ->
  parsePart part avail m
  = match ParseFloat (strings.TrimSpace part) with
    | Err e => Err (ErrNum e)
    | Ok chapter => Ok (mapassign m chapter true)
    end.
Proof.
  intros H. unfold parsePart. simpl. rewrite H.
  destruct (ParseFloat _); reflexivity.
Qed.

(** A range token: exactly one ['-'] in it. *)
Lemma parsePart_range (a b : string) (avail : list float64) (m : gomap bool) :
  strings.Contains a "-" = false ->
  strings.Contains b "-" = false ->
  parsePart (a ++ "-" ++ b) avail m
  = match parseRange [a; b] with
    | Err e => Err e
    | Ok (start, stop) => Ok (addRange avail start stop m)
    end.
Proof.
  intros Ha Hb. unfold parsePart. simpl parseParts at 1.
  rewrite Contains_app. simpl strings.Contains at 2.
  rewrite orb_true_r.
  change (a ++ "-" ++ b)%string with (a ++ String "-" b)%string.
  rewrite (Split_app a b "-" Ha), (Split_no_sep b "-" Hb). simpl.
  destruct (ParseFloat (strings.TrimSpace a)); [|reflexivity].
  destruct (ParseFloat (strings.TrimSpace b)); [|reflexivity].
  destruct (fgt _ _); reflexivity.
Qed.

(** Whatever a part adds, it removes no number from the map. *)
Lemma parseParts_keeps (parts : list string) (avail : list float64) (m m' : gomap bool) (q : float64) :
  parseParts parts avail m = Ok m' ->
  (slicesContains (mapkeys m) q = true -> slicesContains (mapkeys m') q = true)
  /\ (In S754_nan (mapkeys m) -> In S754_nan (mapkeys m')).
Proof.
  revert m. induction parts as [|p parts IH]; intros m; simpl.
  - intros H. inversion H. subst. auto.
  - destruct (strings.Contains p "-").
    + destruct (negb _); [discriminate|].
      destruct (parseRange _) as [[start stop]|e]; [|discriminate].
      intros H. apply IH in H. destruct H as [H1 H2].
      destruct (addRange_keeps avail start stop m q) as [K1 K2]. auto.
    + destruct (ParseFloat _) as [x|e]; [|discriminate].
      intros H. apply IH in H. destruct H as [H1 H2]. split.
      * intros K. apply H1. rewrite slicesContains_assign, K. reflexivity.
      * intros K. apply H2. apply mapassign_keeps_nan. assumption.
Qed.

Lemma parseParts_distinct (parts : list string) (avail : list float64) (m m' : gomap bool) :
  parseParts parts avail m = Ok m' ->
  distinctKeys (mapkeys m) -> distinctKeys (mapkeys m').
Proof.
  revert m. induction parts as [|p parts IH]; intros m; simpl.
  - intros H. inversion H. subst. auto.
  - destruct (strings.Contains p "-").
    + destruct (negb _); [discriminate|].
      destruct (parseRange _) as [[start stop]|e]; [|discriminate].
      intros H Hd. apply (IH _ H). apply addRange_distinct. assumption.
    + destruct (ParseFloat _) as [x|e]; [|discriminate].
      intros H Hd. apply (IH _ H). apply mapassign_distinct. assumption.
Qed.

Lemma fle_not_fgt (x y : float64) : fle x y = true -> fgt x y = false.
Proof. float_cmp. Qed.

Lemma mapToSlice_contains (m : gomap bool) (q : float64) :
  slicesContains (mapToSlice m) q = slicesContains (mapkeys m) q.
Proof. apply slicesContains_perm, sortFloat64s_perm. Qed.

Lemma mapToSlice_In (m : gomap bool) (q : float64) :
  In q (mapToSlice m) <-> In q (mapkeys m).
Proof.
  split; apply Permutation_in;
    [apply sortFloat64s_perm | symmetry; apply sortFloat64s_perm].
Qed.

(** An input that is one range token [a-b]. *)
Lemma parse_range_token (avail : list float64) (a b : string) :
  strings.Contains a "-" = false -> strings.Contains a "," = false ->
  strings.Contains b "-" = false -> strings.Contains b "," = false ->
  parseChapterSelection (a ++ "-" ++ b) avail
  = match parseRange [a; b] with
    | Err e => Err e
    | Ok (start, stop) => Ok (mapToSlice (addRange avail start stop []))
    end.
Proof.
  intros Ha Ha' Hb Hb'. unfold parseChapterSelection.
  rewrite Split_no_sep.
  - fold (parsePart (a ++ "-" ++ b) avail []).
    rewrite (parsePart_range a b avail [] Ha Hb).
    destruct (parseRange [a; b]) as [[start stop]|e]; reflexivity.
  - rewrite Contains_app, Ha'. simpl. exact Hb'.
Qed.

(** C1: an input that is one range token [a-b] whose bounds parse as
    [x] and [y].  If [x <= y] the parse succeeds and returns, in strictly
    ascending order, exactly the members [v] of the available chapters
    with [x <= v <= y] (every returned number is a member of the
    available list, and a number is in the result exactly when it is in
    the available list and within the bounds); if [x > y] the parse
    fails with an [InvalidRange] error. *)
Theorem range_token_selects (avail : list float64) (a b : string) (x y : float64) :
  strings.Contains a "-" = false -> strings.Contains a "," = false ->
  strings.Contains b "-" = false -> strings.Contains b "," = false ->
  ParseFloat (strings.TrimSpace a) = Ok x ->
  ParseFloat (strings.TrimSpace b) = Ok y ->
  (fle x y = true ->
   exists r,
     parseChapterSelection (a ++ "-" ++ b) avail = Ok r
     /\ (forall v, slicesContains r v = slicesContains avail v && inRange x y v)
     /\ (forall v, In v r -> In v avail /\ inRange x y v = true)
     /\ ascending r)
  /\ (fgt x y = true ->
      parseChapterSelection (a ++ "-" ++ b) avail = Err (ErrStartGreater a b)
      /\ kindOf (ErrStartGreater a b) = InvalidRange).
Proof.
  intros Ha Ha' Hb Hb' Hx Hy.
  rewrite (parse_range_token avail a b Ha Ha' Hb Hb').
  unfold parseRange. rewrite Hx, Hy. split.
  - intros Hle. rewrite (fle_not_fgt x y Hle).
    exists (mapToSlice (addRange avail x y [])). split; [reflexivity|].
    assert (Hin : forall v, In v (mapToSlice (addRange avail x y [])) ->
                            In v avail /\ inRange x y v = true).
    { intros v Hv. apply mapToSlice_In, addRange_In in Hv.
      destruct Hv as [[]|Hv]. exact Hv. }
    split; [|split].
    + intros v. rewrite mapToSlice_contains, addRange_contains. reflexivity.
    + exact Hin.
    + apply sortFloat64s_ascending.
      * apply addRange_distinct. constructor.
      * rewrite Forall_forall. intros v Hv.
        apply (inRange_not_nan x y).
        apply (Hin v). apply mapToSlice_In. exact Hv.
  - intros Hgt. rewrite Hgt. split; reflexivity.
Qed.

(** A token with a ['-'] that does not split in two. *)
Lemma parsePart_bad_format (p : string) (avail : list float64) (m : gomap bool) :
  strings.Contains p "-" = true ->
  length (strings.Split p "-") <> 2 ->
  parsePart p avail m = Err (ErrInvalidRangeFormat p).
Proof.
  intros Hc Hl. unfold parsePart. simpl. rewrite Hc.
  apply Nat.eqb_neq in Hl. rewrite Hl. reflexivity.
Qed.

Lemma Split_two_Contains (p a b : string) (c : ascii) :
  strings.Split p c = [a; b] -> strings.Contains p c = true.
Proof.
  intros H. destruct (strings.Contains p c) eqn:E; [reflexivity|].
  rewrite (Split_no_sep p c E) in H. discriminate.
Qed.

(** A token that splits in two with a bound that does not parse. *)
Lemma parsePart_bad_number (p a b : string) (avail : list float64) (m : gomap bool) :
  strings.Split p "-" = [a; b] ->
  isErr (ParseFloat (strings.TrimSpace a)) = true
  \/ isErr (ParseFloat (strings.TrimSpace b)) = true ->
  parsePart p avail m
  = Err (match ParseFloat (strings.TrimSpace a) with
         | Err _ => ErrInvalidStart a
         | Ok _ => ErrInvalidEnd b
         end).
Proof.
  intros Hs Hbad. unfold parsePart. simpl.
  rewrite (Split_two_Contains p a b "-" Hs), Hs. simpl.
  destruct (ParseFloat (strings.TrimSpace a)) as [x|ea]; [|reflexivity].
  destruct (ParseFloat (strings.TrimSpace b)) as [y|eb]; [|reflexivity].
  destruct Hbad; discriminate.
Qed.

(** An input one of whose parts fails is refused, and when the parts
    before it pass, with the error of that part. *)
Lemma parse_failing_part (input : string) (avail : list float64)
      (ps qs : list string) (p : string) (e : error) :
  strings.Split input "," = ps ++ p :: qs ->
  (forall m, parsePart p avail m = Err e) ->
  isErr (parseChapterSelection input avail) = true
  /\ (forall m, parseParts ps avail [] = Ok m ->
                parseChapterSelection input avail = Err e).
Proof.
  intros Hs Hp. unfold parseChapterSelection.
  rewrite Hs, parseParts_app.
  destruct (parseParts ps avail []) as [m|e'].
  - rewrite parseParts_cons, Hp. split; [reflexivity|]. reflexivity.
  - split; [reflexivity|]. discriminate.
Qed.

(** C3: a malformed range token anywhere in the input makes
    [parseChapterSelection] return an error, never a selection.  When
    the parts before it are accepted the error is the one of that token:
    [InvalidRangeFormat] for a token with a ['-'] that does not split in
    exactly two parts, [InvalidNumber] for a token that splits in two
    with a start or an end that does not parse. *)
Theorem malformed_range_rejected (input : string) (avail : list float64)
        (ps qs : list string) (p : string) :
  strings.Split input "," = ps ++ p :: qs ->
  (strings.Contains p "-" = true ->
   length (strings.Split p "-") <> 2 ->
   isErr (parseChapterSelection input avail) = true
   /\ (forall m, parseParts ps avail [] = Ok m ->
         parseChapterSelection input avail = Err (ErrInvalidRangeFormat p)
         /\ kindOf (ErrInvalidRangeFormat p) = InvalidRangeFormat))
  /\ (forall a b,
        strings.Split p "-" = [a; b] ->
        isErr (ParseFloat (strings.TrimSpace a)) = true
        \/ isErr (ParseFloat (strings.TrimSpace b)) = true ->
        isErr (parseChapterSelection input avail) = true
        /\ (forall m, parseParts ps avail [] = Ok m ->
              exists e, parseChapterSelection input avail = Err e
                        /\ kindOf e = InvalidNumber)).
Proof.
  intros Hs. split.
  - intros Hc Hl.
    destruct (parse_failing_part input avail ps qs p (ErrInvalidRangeFormat p) Hs)
      as [H1 H2].
    { intros m. apply parsePart_bad_format; assumption. }
    split; [exact H1|]. intros m Hm. split; [eauto | reflexivity].
  - intros a b Hab Hbad.
    pose proof (fun m => parsePart_bad_number p a b avail m Hab Hbad) as Hp.
    destruct (parse_failing_part input avail ps qs p _ Hs Hp) as [H1 H2].
    split; [exact H1|]. intros m Hm. eexists. split; [eauto|].
    destruct (ParseFloat (strings.TrimSpace a)); reflexivity.
Qed.

(** A range that holds no available chapter leaves the map as it is. *)
Lemma addRange_none (avail : list float64) (start stop : float64) (m : gomap bool) :
  Forall (fun v => inRange start stop v = false) avail ->
  addRange avail start stop m = m.
Proof.
  revert m. induction avail as [|c avail IH]; intros m H; [reflexivity|].
  inversion H as [|? ? Hc H']; subst. simpl.
  unfold inRange in Hc. rewrite Hc. apply IH. exact H'.
Qed.

(** C8: an input all of whose tokens are well-formed ranges [a-b], with
    bounds that parse and [start <= end], none of which holds an
    available chapter, parses successfully to the empty selection: an
    empty result is no error. *)
Theorem empty_selection_is_ok (input : string) (avail : list float64) :
  Forall (fun part =>
            exists a b x y,
              part = (a ++ "-" ++ b)%string
              /\ strings.Contains a "-" = false
              /\ strings.Contains b "-" = false
              /\ ParseFloat (strings.TrimSpace a) = Ok x
              /\ ParseFloat (strings.TrimSpace b) = Ok y
              /\ fle x y = true
              /\ Forall (fun v => inRange x y v = false) avail)
         (strings.Split input ",") ->
  parseChapterSelection input avail = Ok [].
Proof.
  intros H. unfold parseChapterSelection.
  assert (K : forall m, parseParts (strings.Split input ",") avail m = Ok m).
  { induction H as [|part parts Hp _ IH]; intros m; [reflexivity|].
    destruct Hp as (a & b & x & y & -> & Ha & Hb & Hx & Hy & Hle & Hnone).
    rewrite parseParts_cons, (parsePart_range a b avail m Ha Hb).
    unfold parseRange. rewrite Hx, Hy, (fle_not_fgt x y Hle).
    rewrite (addRange_none avail x y m Hnone). apply IH. }
  rewrite K. reflexivity.
Qed.

(** ** Inputs that are lists of numbers *)

Lemma assignAll_contains (xs : list float64) (m : gomap bool) (q : float64) :
  slicesContains (mapkeys (assignAll xs m)) q
  = slicesContains (mapkeys m) q || slicesContains xs q.
Proof.
  unfold assignAll. revert m. induction xs as [|x xs IH]; intros m; simpl.
  - rewrite orb_false_r. reflexivity.
  - rewrite IH, slicesContains_assign, orb_assoc. reflexivity.
Qed.

Lemma assignAll_In (xs : list float64) (m : gomap bool) (q : float64) :
  In q (mapkeys (assignAll xs m)) -> In q (mapkeys m) \/ In q xs.
Proof.
  unfold assignAll. revert m. induction xs as [|x xs IH]; intros m; simpl; [auto|].
  intros H. apply IH in H. destruct H as [H|H]; [|auto].
  apply mapkeys_assign_In in H. destruct H; auto.
Qed.

Lemma assignAll_distinct (xs : list float64) (m : gomap bool) :
  distinctKeys (mapkeys m) -> distinctKeys (mapkeys (assignAll xs m)).
Proof.
  unfold assignAll. revert m. induction xs as [|x xs IH]; intros m H; simpl; [assumption|].
  apply IH, mapassign_distinct, H.
Qed.

Lemma parseParts_numbers (parts : list string) (xs : list float64)
      (avail : list float64) (m : gomap bool) :
  numberTokens parts xs ->
  parseParts parts avail m = Ok (assignAll xs m).
Proof.
  intros H. revert m. induction H as [|p x parts xs [Hp Hx] _ IH]; intros m.
  - reflexivity.
  - rewrite parseParts_cons, (parsePart_number p avail m Hp), Hx. apply IH.
Qed.

Lemma parse_numbers (input : string) (avail xs : list float64) :
  numberTokens (strings.Split input ",") xs ->
  Forall (fun x => isNaN x = false) xs ->
  exists r,
    parseChapterSelection input avail = Ok r
    /\ ascending r
    /\ (forall v, slicesContains r v = slicesContains xs v)
    /\ incl r xs.
Proof.
  intros Ht Hn. unfold parseChapterSelection.
  rewrite (parseParts_numbers _ xs avail [] Ht).
  exists (mapToSlice (assignAll xs [])). split; [reflexivity|].
  assert (Hin : incl (mapToSlice (assignAll xs [])) xs).
  { intros v Hv. apply mapToSlice_In, assignAll_In in Hv.
    destruct Hv as [[]|Hv]. exact Hv. }
  split; [|split].
  - apply sortFloat64s_ascending.
    + apply assignAll_distinct. constructor.
    + rewrite Forall_forall in *. intros v Hv.
      apply Hn, Hin, mapToSlice_In, Hv.
  - intros v. rewrite mapToSlice_contains, assignAll_contains. reflexivity.
  - exact Hin.
Qed.

(** C2: an input that is a comma-separated list of numeric tokens, all
    of which parse, to the numbers [xs], a [NaN] being no number, parses
    to the numbers of [xs] in strictly ascending order, each once.  Any other such input with the same numbers, in
    whatever order and however often repeated, gives the same result
    (equal element by element under [==], and the very same slice when
    no negative zero occurs). *)
Theorem number_list_sorted_unique (input : string) (avail xs : list float64) :
  numberTokens (strings.Split input ",") xs ->
  Forall (fun x => isNaN x = false) xs ->
  exists r,
    parseChapterSelection input avail = Ok r
    /\ ascending r
    /\ (forall v, slicesContains r v = slicesContains xs v)
    /\ incl r xs
    /\ (forall input' avail' xs',
          numberTokens (strings.Split input' ",") xs' ->
          Forall (fun x => isNaN x = false) xs' ->
          (forall v, slicesContains xs v = slicesContains xs' v) ->
          exists r',
            parseChapterSelection input' avail' = Ok r'
            /\ sameNumbers r r'
            /\ (Forall (fun x => x <> S754_zero true) xs ->
                Forall (fun x => x <> S754_zero true) xs' ->
                r = r')).
Proof.
  intros Ht Hn.
  destruct (parse_numbers input avail xs Ht Hn) as (r & Hr & Hs & Hc & Hi).
  exists r. repeat split; try assumption.
  intros input' avail' xs' Ht' Hn' Hsame.
  destruct (parse_numbers input' avail' xs' Ht' Hn') as (r' & Hr' & Hs' & Hc' & Hi').
  exists r'. split; [exact Hr'|].
  assert (Hu : sameNumbers r r').
  { apply ascending_unique; try assumption.
    - rewrite Forall_forall in *. intros v Hv. apply Hn, Hi, Hv.
    - rewrite Forall_forall in *. intros v Hv. apply Hn', Hi', Hv.
    - intros v. rewrite Hc, Hc'. apply Hsame. }
  split; [exact Hu|].
  intros Hz Hz'. apply sameNumbers_eq; [exact Hu| |].
  - rewrite Forall_forall in *. intros v Hv. apply Hz, Hi, Hv.
  - rewrite Forall_forall in *. intros v Hv. apply Hz', Hi', Hv.
Qed.

(** C4, the parser's half: a number token of an accepted input parses,
    and its number is in the result, whatever the available chapters
    are. *)
Lemma number_token_in_result (input : string) (avail r : list float64) (part : string) :
  parseChapterSelection input avail = Ok r ->
  In part (strings.Split input ",") ->
  strings.Contains part "-" = false ->
  exists x,
    ParseFloat (strings.TrimSpace part) = Ok x
    /\ (slicesContains r x = true \/ (isNaN x = true /\ In x r)).
Proof.
  unfold parseChapterSelection. intros Hr Hin Hc.
  apply in_split in Hin. destruct Hin as (ps & qs & Hs).
  rewrite Hs, parseParts_app in Hr.
  destruct (parseParts ps avail []) as [m|e]; [|discriminate].
  rewrite parseParts_cons, (parsePart_number part avail m Hc) in Hr.
  destruct (ParseFloat (strings.TrimSpace part)) as [x|e]; [|discriminate].
  exists x. split; [reflexivity|].
  destruct (parseParts qs avail (mapassign m x true)) as [m'|e] eqn:E; [|discriminate].
  inversion Hr; subst r.
  destruct (parseParts_keeps qs avail _ m' x E) as [K1 K2].
  destruct (isNaN x) eqn:En.
  - right. split; [reflexivity|]. apply mapToSlice_In.
    destruct x; try discriminate. apply K2. apply mapassign_In_key.
  - left. rewrite mapToSlice_contains. apply K1.
    rewrite slicesContains_assign, (feq_refl x En). apply orb_true_r.
Qed.

(** The slice [mapToSlice] returns for the map of an accepted input is
    the same in whatever order the keys of the map are met. *)
Lemma mapToSlice_any_order (parts : list string) (avail : list float64)
      (m : gomap bool) (keys : list float64) :
  parseParts parts avail [] = Ok m ->
  Permutation (mapkeys m) keys ->
  sortFloat64s keys = mapToSlice m.
Proof.
  intros Hm Hp. unfold mapToSlice. symmetry.
  apply sortFloat64s_perm_unique; [exact Hp|].
  apply (parseParts_distinct parts avail [] m Hm). constructor.
Qed.

(** A number with no chapter under it adds nothing to the chapters
    selected. *)
Lemma getSelectedChapters_omits (l1 l2 : list float64) (n : float64)
      (chapterMap : gomap Chapter) :
  mapaccess chapterMap n = None ->
  getSelectedChapters (l1 ++ n :: l2) chapterMap
  = getSelectedChapters (l1 ++ l2) chapterMap.
Proof.
  intros Hn. induction l1 as [|x l1 IH]; simpl.
  - rewrite Hn. reflexivity.
  - rewrite IH. reflexivity.
Qed.

(** Every chapter selected is the chapter the map holds under a
    selected number. *)
Lemma getSelectedChapters_found (l : list float64) (chapterMap : gomap Chapter)
      (c : Chapter) :
  In c (getSelectedChapters l chapterMap) ->
  exists n, In n l /\ mapaccess chapterMap n = Some c.
Proof.
  induction l as [|x l IH]; simpl; [intros []|].
  destruct (mapaccess chapterMap x) as [c'|] eqn:E.
  - intros [->|H].
    + exists x. auto.
    + destruct (IH H) as [n [Hn Hc]]. exists n. auto.
  - intros H. destruct (IH H) as [n [Hn Hc]]. exists n. auto.
Qed.

(** An input that is one number token. *)
Lemma parse_number_token (part : string) (avail : list float64) (x : float64) :
  strings.Contains part "-" = false ->
  strings.Contains part "," = false ->
  ParseFloat (strings.TrimSpace part) = Ok x ->
  parseChapterSelection part avail = Ok [x].
Proof.
  intros Hd Hc Hx. unfold parseChapterSelection.
  rewrite (Split_no_sep part "," Hc).
  fold (parsePart part avail []).
  rewrite (parsePart_number part avail [] Hd), Hx. reflexivity.
Qed.

(** C4: a number token of an accepted input parses, and its number is
    in the result whatever the available chapters are (alone, the token
    selects exactly its number, even when no chapter is available at
    all).  Downstream, [getSelectedChapters] returns only chapters that
    the chapter map holds under a selected number, and a selected number
    with no chapter under it is left out: the chapters selected are
    those selected without it. *)
Theorem single_number_unchecked_then_omitted
        (input : string) (avail r : list float64) (part : string)
        (chapterMap : gomap Chapter) :
  parseChapterSelection input avail = Ok r ->
  In part (strings.Split input ",") ->
  strings.Contains part "-" = false ->
  exists x,
    ParseFloat (strings.TrimSpace part) = Ok x
    /\ (slicesContains r x = true \/ (isNaN x = true /\ In x r))
    /\ (forall avail', parseChapterSelection part avail' = Ok [x])
    /\ (forall c, In c (getSelectedChapters r chapterMap) ->
                  exists n, In n r /\ mapaccess chapterMap n = Some c)
    /\ (forall l1 l2 n,
          r = l1 ++ n :: l2 ->
          mapaccess chapterMap n = None ->
          getSelectedChapters r chapterMap
          = getSelectedChapters (l1 ++ l2) chapterMap).
Proof.
  intros Hr Hin Hd.
  destruct (number_token_in_result input avail r part Hr Hin Hd) as (x & Hx & Hxr).
  exists x. split; [exact Hx|]. split; [exact Hxr|]. split; [|split].
  - intros avail'. apply parse_number_token; [exact Hd| |exact Hx].
    pose proof (Split_pieces input ",") as Hp.
    rewrite Forall_forall in Hp. apply Hp, Hin.
  - intros c. apply getSelectedChapters_found.
  - intros l1 l2 n -> Hn. apply getSelectedChapters_omits, Hn.
Qed.

End SelectionProperties.

(** ** The parser of the oldest variant *)

Lemma fle_trans (x y z : float64) :
  fle x y = true -> fle y z = true -> fle x z = true.
Proof. float_cmp. Qed.

Lemma slicesContains_congr (l : list float64) (a b : float64) :
  feq a b = true -> slicesContains l a = slicesContains l b.
Proof.
  intros H. unfold slicesContains.
  induction l as [|e l IH]; simpl; [reflexivity|].
  rewrite IH. f_equal.
  rewrite (feq_sym e a), (feq_sym e b). apply feq_congr_l. exact H.
Qed.

Lemma slicesContains_app (l l' : list float64) (q : float64) :
  slicesContains (l ++ l') q = slicesContains l q || slicesContains l' q.
Proof. unfold slicesContains. apply existsb_app. Qed.

Lemma slicesContains_filter (f : float64 -> bool) (l : list float64) (q : float64) :
  (forall a b, feq a b = true -> f a = f b) ->
  slicesContains (filter f l) q = slicesContains l q && f q.
Proof.
  intros Hf. unfold slicesContains.
  induction l as [|e l IH]; simpl; [reflexivity|].
  destruct (f e) eqn:E; simpl; rewrite IH.
  - destruct (feq e q) eqn:K; simpl; [|reflexivity].
    rewrite <- (Hf e q K), E. reflexivity.
  - destruct (feq e q) eqn:K; simpl; [|reflexivity].
    rewrite <- (Hf e q K), E. rewrite andb_false_r. reflexivity.
Qed.

Lemma distinctKeys_snoc (u : list float64) (ch : float64) :
  distinctKeys u -> slicesContains u ch = false -> distinctKeys (u ++ [ch]).
Proof.
  unfold distinctKeys, slicesContains.
  induction 1 as [|e u He Hu IH]; simpl; intros Hc.
  - constructor; constructor.
  - apply orb_false_elim in Hc. destruct Hc as [Hc1 Hc2].
    constructor; [|apply IH; exact Hc2].
    apply Forall_app. split; [exact He|].
    constructor; [exact Hc1 | constructor].
Qed.

Lemma mapaccess_keys (m : gomap bool) (q : float64) :
  Forall (fun e => snd e = true) m ->
  mapaccess m q = if slicesContains (mapkeys m) q then Some true else None.
Proof.
  unfold slicesContains, mapkeys.
  induction 1 as [|[k v] m Hv _ IH]; simpl; [reflexivity|].
  simpl in Hv. subst v. destruct (feq k q); [reflexivity | exact IH].
Qed.

Lemma mapassign_values (m : gomap bool) (k : float64) :
  Forall (fun e => snd e = true) m ->
  Forall (fun e => snd e = true) (mapassign m k true).
Proof.
  induction 1 as [|[k' v] m Hv Hm IH]; simpl.
  - constructor; [reflexivity | constructor].
  - destruct (feq k' k); constructor; auto.
Qed.

Lemma appendRange_filter (avail : list float64) (x y : float64) (res : list float64) :
  Earlier.appendRange avail x y res = res ++ filter (inRange x y) avail.
Proof.
  revert res. induction avail as [|ch avail IH]; intros res; simpl.
  - rewrite app_nil_r. reflexivity.
  - rewrite IH. unfold inRange at 2.
    destruct (fge ch x && fle ch y); [|reflexivity].
    rewrite <- app_assoc. reflexivity.
Qed.

(** The loop that removes the repeats: [uniqueResult] gets the first
    occurrence of every number of [res] it does not hold yet. *)
Lemma unique_spec (res : list float64) (m : gomap bool) (u : list float64) :
  Forall (fun e => snd e = true) m ->
  (forall q, slicesContains (mapkeys m) q = slicesContains u q) ->
  distinctKeys u ->
  (forall v, slicesContains (Earlier.unique res m u) v
             = slicesContains u v || slicesContains res v)
  /\ (forall v, In v (Earlier.unique res m u) -> In v u \/ In v res)
  /\ distinctKeys (Earlier.unique res m u).
Proof.
  revert m u. induction res as [|ch res IH]; intros m u Hm Hk Hd; simpl.
  - split; [|split]; auto. intros v. rewrite orb_false_r. reflexivity.
  - rewrite (mapaccess_keys m ch Hm), Hk.
    destruct (slicesContains u ch) eqn:E.
    + destruct (IH m u Hm Hk Hd) as (H1 & H2 & H3).
      split; [|split]; [| |exact H3].
      * intros v. rewrite H1.
        destruct (feq ch v) eqn:K; simpl; [|reflexivity].
        rewrite <- (slicesContains_congr u ch v K), E. reflexivity.
      * intros v Hv. destruct (H2 v Hv); auto.
    + destruct (IH (mapassign m ch true) (u ++ [ch])) as (H1 & H2 & H3).
      * apply mapassign_values. exact Hm.
      * intros q. rewrite slicesContains_assign, slicesContains_app, Hk.
        simpl. rewrite orb_false_r. reflexivity.
      * apply distinctKeys_snoc; assumption.
      * split; [|split]; [| |exact H3].
        -- intros v. rewrite H1, slicesContains_app. simpl.
           rewrite orb_false_r, orb_assoc. reflexivity.
        -- intros v Hv. destruct (H2 v Hv) as [Hu|Hr]; [|auto].
           apply in_app_or in Hu. destruct Hu as [Hu|[Hu|[]]]; auto.
Qed.

Section EarlierProperties.

Variable ParseFloat : string -> result NumError float64.

Lemma earlier_range_token (avail : list float64) (a b : string) (x y : float64) :
  strings.Contains a "-" = false -> strings.Contains a "," = false ->
  strings.Contains b "-" = false -> strings.Contains b "," = false ->
  ParseFloat (strings.TrimSpace a) = Ok x ->
  ParseFloat (strings.TrimSpace b) = Ok y ->
  Earlier.parseChapterSelection ParseFloat (a ++ "-" ++ b) avail
  = Ok (sortFloat64s (Earlier.unique (filter (inRange x y) avail) [] [])).
Proof.
  intros Ha Ha' Hb Hb' Hx Hy. unfold Earlier.parseChapterSelection.
  rewrite Split_no_sep.
  - cbn [Earlier.parseParts].
    rewrite Contains_app. simpl strings.Contains at 2.
    rewrite orb_true_r.
    change (a ++ "-" ++ b)%string with (a ++ String "-" b)%string.
    rewrite (Split_app a b "-" Ha), (Split_no_sep b "-" Hb).
    rewrite Hx, Hy, appendRange_filter. reflexivity.
  - rewrite Contains_app. simpl. rewrite Ha', Hb'. reflexivity.
Qed.

(** The oldest variant on one range token [a-b] whose bounds parse as
    [x] and [y]: it returns, in strictly ascending order, the members of
    the available chapters within the bounds, which is the result of the
    present parser when [x <= y]; when [x > y] it returns the empty
    slice and no error. *)
Theorem earlier_range_token_selects (avail : list float64) (a b : string) (x y : float64) :
  strings.Contains a "-" = false -> strings.Contains a "," = false ->
  strings.Contains b "-" = false -> strings.Contains b "," = false ->
  ParseFloat (strings.TrimSpace a) = Ok x ->
  ParseFloat (strings.TrimSpace b) = Ok y ->
  exists r,
    Earlier.parseChapterSelection ParseFloat (a ++ "-" ++ b) avail = Ok r
    /\ (forall v, slicesContains r v = slicesContains avail v && inRange x y v)
    /\ (forall v, In v r -> In v avail /\ inRange x y v = true)
    /\ ascending r
    /\ (fle x y = true ->
        exists r0, parseChapterSelection ParseFloat (a ++ "-" ++ b) avail = Ok r0
                   /\ sameNumbers r0 r)
    /\ (fgt x y = true -> r = []).
Proof.
  intros Ha Ha' Hb Hb' Hx Hy.
  rewrite (earlier_range_token avail a b x y Ha Ha' Hb Hb' Hx Hy).
  set (l := filter (inRange x y) avail).
  destruct (unique_spec l [] []) as (H1 & H2 & H3);
    [constructor | reflexivity | constructor |].
  exists (sortFloat64s (Earlier.unique l [] [])). split; [reflexivity|].
  assert (Hc : forall v, slicesContains (sortFloat64s (Earlier.unique l [] [])) v
                         = slicesContains avail v && inRange x y v).
  { intros v. rewrite (slicesContains_perm _ _ v (sortFloat64s_perm _)), H1.
    simpl. unfold l. apply slicesContains_filter.
    intros p q Hpq. apply inRange_congr. exact Hpq. }
  assert (Hin : forall v, In v (sortFloat64s (Earlier.unique l [] [])) ->
                          In v avail /\ inRange x y v = true).
  { intros v Hv.
    apply (Permutation_in v (sortFloat64s_perm _)) in Hv.
    destruct (H2 v Hv) as [[]|Hl]. unfold l in Hl.
    apply filter_In in Hl. exact Hl. }
  assert (Hn : Forall (fun e => isNaN e = false)
                      (sortFloat64s (Earlier.unique l [] []))).
  { rewrite Forall_forall. intros v Hv.
    apply (inRange_not_nan x y). apply (Hin v Hv). }
  assert (Hasc : ascending (sortFloat64s (Earlier.unique l [] []))).
  { apply sortFloat64s_ascending; [exact H3|].
    rewrite Forall_forall in *. intros v Hv. apply Hn.
    apply (Permutation_in v (Permutation_sym (sortFloat64s_perm _))). exact Hv. }
  split; [exact Hc|]. split; [exact Hin|]. split; [exact Hasc|]. split.
  - intros Hle.
    rewrite (parse_range_token ParseFloat avail a b Ha Ha' Hb Hb').
    unfold parseRange. rewrite Hx, Hy, (fle_not_fgt x y Hle).
    exists (mapToSlice (addRange avail x y [])). split; [reflexivity|].
    assert (Hin0 : forall v, In v (mapToSlice (addRange avail x y [])) ->
                             inRange x y v = true).
    { intros v Hv. apply mapToSlice_In, addRange_In in Hv.
      destruct Hv as [[]|Hv]. apply Hv. }
    apply ascending_unique; try assumption.
    + apply sortFloat64s_ascending.
      * apply addRange_distinct. constructor.
      * rewrite Forall_forall. intros v Hv.
        apply (inRange_not_nan x y), Hin0, mapToSlice_In, Hv.
    + rewrite Forall_forall. intros v Hv.
      apply (inRange_not_nan x y), Hin0, Hv.
    + intros v. rewrite mapToSlice_contains, addRange_contains, Hc. reflexivity.
  - intros Hgt.
    destruct (sortFloat64s (Earlier.unique l [] [])) as [|v r] eqn:E;
      [reflexivity|].
    destruct (Hin v (or_introl eq_refl)) as [_ Hr].
    unfold inRange, fge in Hr. apply andb_prop in Hr. destruct Hr as [Hr1 Hr2].
    pose proof (fle_trans x v y Hr1 Hr2) as Hxy.
    rewrite (fgt_not_fle x y Hgt) in Hxy. discriminate.
Qed.

End EarlierProperties.

(** ** The parser as a union of its parts *)

Lemma isNaN_eq (x : float64) : isNaN x = true -> x = S754_nan.
Proof. destruct x; try discriminate. reflexivity. Qed.

Lemma feq_nan_l (x y : float64) : isNaN x = true -> feq x y = false.
Proof. intros H. apply isNaN_eq in H. subst. reflexivity. Qed.

Lemma feq_nan_r (x y : float64) : isNaN y = true -> feq x y = false.
Proof. intros H. rewrite feq_sym. apply feq_nan_l, H. Qed.

Lemma addRange_assignAll (avail : list float64) (x y : float64) (m : gomap bool) :
  addRange avail x y m = assignAll (filter (inRange x y) avail) m.
Proof.
  unfold assignAll. revert m. induction avail as [|c avail IH]; intros m; simpl.
  - reflexivity.
  - rewrite IH. unfold inRange at 2.
    destruct (fge c x && fle c y); reflexivity.
Qed.

Lemma assignAll_app (xs ys : list float64) (m : gomap bool) :
  assignAll (xs ++ ys) m = assignAll ys (assignAll xs m).
Proof. unfold assignAll. apply fold_left_app. Qed.

Lemma slicesContains_flat_map {A : Type} (f : A -> list float64) (l : list A)
      (q : float64) :
  slicesContains (flat_map f l) q = existsb (fun a => slicesContains (f a) q) l.
Proof.
  induction l as [|a l IH]; simpl; [reflexivity|].
  rewrite slicesContains_app, IH. reflexivity.
Qed.

(** *** Slices in the order of [sort.Float64s] *)

Lemma lessFloat64_nan (a b : float64) :
  isNaN a = true -> isNaN b = false -> lessFloat64 a b = true.
Proof.
  intros Ha Hb. unfold lessFloat64. rewrite Ha, Hb. apply orb_true_r.
Qed.

Lemma repeat_nan (l : list float64) :
  Forall (fun e => isNaN e = true) l -> l = repeat S754_nan (length l).
Proof.
  induction 1 as [|x l Hx _ IH]; simpl; [reflexivity|].
  rewrite (isNaN_eq x Hx), <- IH. reflexivity.
Qed.

Lemma countNaN_none (l : list float64) :
  Forall (fun e => isNaN e = false) l -> countNaN l = 0.
Proof.
  unfold countNaN. induction 1 as [|x l Hx _ IH]; simpl; [reflexivity|].
  rewrite Hx. exact IH.
Qed.

Lemma countNaN_cons (a : float64) (l : list float64) :
  countNaN (a :: l) = (if isNaN a then 1 else 0) + countNaN l.
Proof. unfold countNaN. simpl. destruct (isNaN a); reflexivity. Qed.

Lemma countNaN_app (l l' : list float64) :
  countNaN (l ++ l') = countNaN l + countNaN l'.
Proof. unfold countNaN. rewrite filter_app, length_app. reflexivity. Qed.

Lemma countNaN_repeat (k : nat) : countNaN (repeat S754_nan k) = k.
Proof.
  unfold countNaN. induction k as [|k IH]; simpl; [reflexivity|].
  rewrite IH. reflexivity.
Qed.

Lemma countNaN_perm (l l' : list float64) :
  Permutation l l' -> countNaN l = countNaN l'.
Proof.
  unfold countNaN.
  induction 1 as [|x l l' _ IH|x y l|l l' l'' _ IH1 _ IH2]; simpl.
  - reflexivity.
  - destruct (isNaN x); simpl; rewrite IH; reflexivity.
  - destruct (isNaN x), (isNaN y); reflexivity.
  - rewrite IH1. exact IH2.
Qed.

Lemma distinctKeys_perm (l l' : list float64) :
  Permutation l l' -> distinctKeys l -> distinctKeys l'.
Proof.
  unfold distinctKeys.
  induction 1 as [|x l l' Hp IH|x y l|l l' l'' _ IH1 _ IH2]; intros H.
  - exact H.
  - inversion H as [|? ? Hx Hl]; subst.
    constructor; [|auto].
    eapply Permutation_Forall; [exact Hp | exact Hx].
  - inversion H as [|? ? Hy Hl]; subst.
    inversion Hl as [|? ? Hx Hl']; subst.
    inversion Hy as [|? ? Hyx Hy']; subst.
    constructor; [|constructor; assumption].
    constructor; [rewrite feq_sym; exact Hyx | exact Hx].
  - auto.
Qed.

(** A slice in order with pairwise different keys is its [NaN]s
    followed by its numbers in strictly ascending order. *)
Lemma inOrder_split (r : list float64) :
  inOrder r -> distinctKeys r ->
  exists r1,
    r = repeat S754_nan (countNaN r) ++ r1
    /\ Forall (fun e => isNaN e = false) r1
    /\ ascending r1.
Proof.
  unfold inOrder, distinctKeys, ascending.
  induction r as [|a r IH]; intros Hs Hd.
  - exists []. repeat split; constructor.
  - inversion Hs as [|? ? Hs' Ha]; subst.
    inversion Hd as [|? ? Hda Hd']; subst.
    destruct (IH Hs' Hd') as (r1 & Hr & Hn & Hasc).
    rewrite (countNaN_cons a r).
    destruct (isNaN a) eqn:Ea.
    + exists r1. simpl. rewrite (isNaN_eq a Ea), <- Hr.
      repeat split; assumption.
    + assert (Hnone : Forall (fun e => isNaN e = false) r).
      { rewrite Forall_forall in *. intros b Hb.
        destruct (isNaN b) eqn:Eb; [|reflexivity].
        specialize (Ha b Hb). rewrite (lessFloat64_nan b a Eb Ea) in Ha.
        discriminate. }
      rewrite (countNaN_none r Hnone) in *. simpl in Hr. subst r1.
      exists (a :: r). simpl.
      split; [reflexivity|]. split; [constructor; assumption|].
      constructor; [exact Hasc|].
      rewrite Forall_forall in *. intros b Hb.
      specialize (Ha b Hb). specialize (Hda b Hb). specialize (Hnone b Hb).
      rewrite (lessFloat64_flt b a Hnone) in Ha.
      destruct (flt_total a b Ea Hnone) as [H|[H|H]]; congruence.
Qed.

Lemma slicesContains_repeat_nan (k : nat) (l : list float64) (v : float64) :
  slicesContains (repeat S754_nan k ++ l) v = slicesContains l v.
Proof.
  induction k as [|k IH]; simpl; [reflexivity|]. exact IH.
Qed.

Lemma sameSlice_nans (k : nat) :
  sameSlice (repeat S754_nan k) (repeat S754_nan k).
Proof.
  unfold sameSlice. induction k as [|k IH]; simpl; constructor; auto.
Qed.

(** Two slices in order, each with pairwise different keys, that hold
    the same numbers and as many [NaN]s are equal element by element. *)
Lemma inOrder_same (r r' : list float64) :
  inOrder r -> inOrder r' -> distinctKeys r -> distinctKeys r' ->
  (forall v, slicesContains r v = slicesContains r' v) ->
  countNaN r = countNaN r' ->
  sameSlice r r'.
Proof.
  intros Hs Hs' Hd Hd' Hc Hk.
  destruct (inOrder_split r Hs Hd) as (r1 & Hr & Hn & Ha).
  destruct (inOrder_split r' Hs' Hd') as (r1' & Hr' & Hn' & Ha').
  rewrite Hr, Hr', <- Hk. unfold sameSlice.
  apply Forall2_app; [apply sameSlice_nans|].
  assert (Hu : sameNumbers r1 r1').
  { apply ascending_unique; try assumption.
    intros v. specialize (Hc v). rewrite Hr, Hr' in Hc.
    rewrite !slicesContains_repeat_nan in Hc. exact Hc. }
  unfold sameNumbers in Hu.
  eapply Forall2_impl; [|exact Hu]. intros a b H. left. exact H.
Qed.

Lemma countNaN_assign (m : gomap bool) (k : float64) :
  countNaN (mapkeys (mapassign m k true))
  = countNaN (mapkeys m) + (if isNaN k then 1 else 0).
Proof.
  unfold countNaN. induction m as [|[k' v'] m IH]; simpl.
  - destruct (isNaN k); reflexivity.
  - destruct (feq k' k) eqn:E; simpl.
    + destruct (feq_not_nan k' k E) as [H1 H2]. rewrite H1, H2. lia.
    + destruct (isNaN k'); simpl; rewrite IH; lia.
Qed.

Lemma countNaN_assignAll (xs : list float64) (m : gomap bool) :
  countNaN (mapkeys (assignAll xs m)) = countNaN (mapkeys m) + countNaN xs.
Proof.
  unfold assignAll. revert m. induction xs as [|x xs IH]; intros m; simpl.
  - change (countNaN []) with 0. lia.
  - rewrite IH, countNaN_assign, (countNaN_cons x xs). lia.
Qed.

Section UnionProperties.

Variable ParseFloat : string -> result NumError float64.

Local Abbreviation parseChapterSelection := (parseChapterSelection ParseFloat).
Local Abbreviation contribution := (contribution ParseFloat).
Local Abbreviation wellFormed := (wellFormed ParseFloat).
Local Abbreviation partError := (partError ParseFloat).

Lemma parseParts_step (part : string) (rest : list string) (avail : list float64)
      (m : gomap bool) :
  parseParts ParseFloat (part :: rest) avail m
  = if wellFormed part
    then parseParts ParseFloat rest avail (assignAll (contribution avail part) m)
    else Err (partError part).
Proof.
  unfold wellFormed, contribution, partError. cbn [parseParts].
  destruct (strings.Contains part "-").
  - destruct (strings.Split part "-") as [|a [|b [|c l]]];
      cbn [length Nat.eqb negb parseRange]; try reflexivity.
    destruct (ParseFloat (strings.TrimSpace a)) as [x|e]; [|reflexivity].
    destruct (ParseFloat (strings.TrimSpace b)) as [y|e]; [|reflexivity].
    destruct (fgt x y); cbn [negb]; [reflexivity|].
    rewrite addRange_assignAll. reflexivity.
  - destruct (ParseFloat (strings.TrimSpace part)) as [x|e]; reflexivity.
Qed.

Lemma parseParts_accepted (parts : list string) (avail : list float64) (m : gomap bool) :
  forallb wellFormed parts = true ->
  parseParts ParseFloat parts avail m
  = Ok (assignAll (flat_map (contribution avail) parts) m).
Proof.
  revert m. induction parts as [|p parts IH]; intros m H; [reflexivity|].
  simpl in H. apply andb_prop in H. destruct H as [Hp Hps].
  rewrite parseParts_step, Hp, (IH _ Hps).
  cbn [flat_map]. rewrite assignAll_app. reflexivity.
Qed.

Lemma parseParts_rejected (ps qs : list string) (p : string) (avail : list float64)
      (m : gomap bool) :
  forallb wellFormed ps = true ->
  wellFormed p = false ->
  parseParts ParseFloat (ps ++ p :: qs) avail m = Err (partError p).
Proof.
  revert m. induction ps as [|q ps IH]; intros m H Hp.
  - simpl app. rewrite parseParts_step, Hp. reflexivity.
  - simpl in H. apply andb_prop in H. destruct H as [Hq Hps].
    rewrite <- app_comm_cons, parseParts_step, Hq. apply IH; assumption.
Qed.

(** The first part of a list that is not accepted, when there is
    one. *)
Lemma first_rejected (parts : list string) :
  forallb wellFormed parts = false ->
  exists ps p qs,
    parts = ps ++ p :: qs
    /\ forallb wellFormed ps = true /\ wellFormed p = false.
Proof.
  induction parts as [|q parts IH]; simpl; [discriminate|].
  destruct (wellFormed q) eqn:E; simpl.
  - intros H. destruct (IH H) as (ps & p & qs & -> & Hps & Hp).
    exists (q :: ps), p, qs. simpl. rewrite E. auto.
  - intros _. exists [], q, parts. auto.
Qed.

Lemma parse_accepted (input : string) (avail : list float64) :
  forallb wellFormed (strings.Split input ",") = true ->
  parseChapterSelection input avail
  = Ok (mapToSlice
          (assignAll (flat_map (contribution avail) (strings.Split input ",")) [])).
Proof.
  intros H. unfold parseChapterSelection.
  rewrite (parseParts_accepted _ avail [] H). reflexivity.
Qed.

Lemma parse_isErr (input : string) (avail : list float64) :
  isErr (parseChapterSelection input avail)
  = negb (forallb wellFormed (strings.Split input ",")).
Proof.
  destruct (forallb wellFormed (strings.Split input ",")) eqn:E.
  - rewrite (parse_accepted input avail E). reflexivity.
  - destruct (first_rejected _ E) as (ps & p & qs & Hs & Hps & Hp).
    unfold parseChapterSelection.
    rewrite Hs, (parseParts_rejected ps qs p avail [] Hps Hp). reflexivity.
Qed.

Lemma parse_ok_accepted (input : string) (avail r : list float64) :
  parseChapterSelection input avail = Ok r ->
  forallb wellFormed (strings.Split input ",") = true.
Proof.
  intros Hr. pose proof (parse_isErr input avail) as H.
  rewrite Hr in H. simpl in H.
  destruct (forallb wellFormed (strings.Split input ",")); [reflexivity | discriminate].
Qed.

(** Whether an input is accepted is decided part by part, and not by
    the available chapters: the parser returns an error exactly when
    some part is not a number that parses or two bounds that parse with
    the start not greater than the end; the error is the one of the
    first such part. *)
Theorem selection_accepted_part_by_part (input : string) (avail : list float64) :
  isErr (parseChapterSelection input avail)
  = negb (forallb wellFormed (strings.Split input ","))
  /\ (forall ps p qs,
        strings.Split input "," = ps ++ p :: qs ->
        forallb wellFormed ps = true ->
        wellFormed p = false ->
        parseChapterSelection input avail = Err (partError p)).
Proof.
  split; [apply parse_isErr|].
  intros ps p qs Hs Hps Hp. unfold parseChapterSelection.
  rewrite Hs, (parseParts_rejected ps qs p avail [] Hps Hp). reflexivity.
Qed.

Lemma partError_not_panic (part : string) :
  wellFormed part = false -> partError part <> PanicIndex.
Proof.
  unfold wellFormed, partError.
  destruct (strings.Contains part "-").
  - destruct (strings.Split part "-") as [|a [|b [|c l]]]; try discriminate.
    destruct (ParseFloat (strings.TrimSpace a));
      destruct (ParseFloat (strings.TrimSpace b)); discriminate.
  - destruct (ParseFloat (strings.TrimSpace part)); discriminate.
Qed.

(** The parser never indexes the pieces of a range out of bounds:
    [parseRange] is reached only with exactly two pieces, so the error
    of [parseChapterSelection], when there is one, is one of its four
    messages or the error of [ParseFloat], never a run-time panic. *)
Theorem parser_never_panics (input : string) (avail : list float64) :
  parseChapterSelection input avail <> Err PanicIndex
  /\ (forall e, parseChapterSelection input avail = Err e ->
                kindOf e <> RuntimePanic).
Proof.
  assert (H : forall e, parseChapterSelection input avail = Err e -> e <> PanicIndex).
  { intros e He.
    destruct (forallb wellFormed (strings.Split input ",")) eqn:E.
    - rewrite (parse_accepted input avail E) in He. discriminate.
    - destruct (first_rejected _ E) as (ps & p & qs & Hs & Hps & Hp).
      unfold parseChapterSelection in He.
      rewrite Hs, (parseParts_rejected ps qs p avail [] Hps Hp) in He.
      injection He as He. subst e. apply partError_not_panic, Hp. }
  split.
  - intros He. exact (H PanicIndex He eq_refl).
  - intros e He Hk. apply (H e He). destruct e; try discriminate. reflexivity.
Qed.

(** The selection is the union of what the parts ask for: a number is
    in the result of an accepted input exactly when some part asks for
    it, as a number token equal to it or as a range that holds it among
    the available chapters. *)
Theorem selection_is_union (input : string) (avail r : list float64) :
  parseChapterSelection input avail = Ok r ->
  forall v,
    slicesContains r v
    = existsb (fun part => slicesContains (contribution avail part) v)
              (strings.Split input ",").
Proof.
  intros Hr v.
  rewrite (parse_accepted input avail (parse_ok_accepted input avail r Hr)) in Hr.
  inversion Hr. subst r.
  rewrite mapToSlice_contains, assignAll_contains, slicesContains_flat_map.
  reflexivity.
Qed.

Lemma forallb_perm {A : Type} (f : A -> bool) (l l' : list A) :
  Permutation l l' -> forallb f l = true -> forallb f l' = true.
Proof.
  intros Hp H. rewrite forallb_forall in *. intros x Hx.
  apply H. eapply Permutation_in; [symmetry; exact Hp | exact Hx].
Qed.

Lemma filter_perm {A : Type} (f : A -> bool) (l l' : list A) :
  Permutation l l' -> Permutation (filter f l) (filter f l').
Proof.
  induction 1 as [|x l l' _ IH|x y l|l l' l'' _ IH1 _ IH2]; simpl.
  - constructor.
  - destruct (f x); [constructor|]; exact IH.
  - destruct (f x), (f y); try reflexivity. apply perm_swap.
  - rewrite IH1. exact IH2.
Qed.

Lemma contribution_perm (avail avail' : list float64) (part : string) :
  Permutation avail avail' ->
  Permutation (contribution avail part) (contribution avail' part).
Proof.
  intros Hp. unfold contribution.
  destruct (strings.Contains part "-"); [|reflexivity].
  destruct (strings.Split part "-") as [|a [|b [|c l]]]; try reflexivity.
  destruct (ParseFloat (strings.TrimSpace a)); [|reflexivity].
  destruct (ParseFloat (strings.TrimSpace b)); [|reflexivity].
  apply filter_perm, Hp.
Qed.

Lemma contributions_perm (avail avail' : list float64) (parts parts' : list string) :
  Permutation avail avail' -> Permutation parts parts' ->
  Permutation (flat_map (contribution avail) parts)
              (flat_map (contribution avail') parts').
Proof.
  intros Ha Hp. transitivity (flat_map (contribution avail) parts').
  - apply Permutation_flat_map, Hp.
  - clear Hp. induction parts' as [|q parts' IH]; simpl; [constructor|].
    apply Permutation_app; [apply contribution_perm, Ha | exact IH].
Qed.

Lemma mapToSlice_assignAll_sorted (xs : list float64) :
  inOrder (mapToSlice (assignAll xs []))
  /\ distinctKeys (mapToSlice (assignAll xs []))
  /\ countNaN (mapToSlice (assignAll xs [])) = countNaN xs.
Proof.
  unfold mapToSlice. split; [apply sortFloat64s_inOrder|]. split.
  - apply (distinctKeys_perm (mapkeys (assignAll xs []))).
    + symmetry. apply sortFloat64s_perm.
    + apply assignAll_distinct. constructor.
  - rewrite (countNaN_perm _ _ (sortFloat64s_perm _)), countNaN_assignAll.
    reflexivity.
Qed.

Lemma parse_sorted (input : string) (avail r : list float64) :
  parseChapterSelection input avail = Ok r ->
  inOrder r /\ distinctKeys r.
Proof.
  intros Hr.
  rewrite (parse_accepted input avail (parse_ok_accepted input avail r Hr)) in Hr.
  injection Hr as Hr. rewrite <- Hr.
  destruct (mapToSlice_assignAll_sorted
              (flat_map (contribution avail) (strings.Split input ",")))
    as (Hs & Hd & _).
  auto.
Qed.

(** The result of an accepted input is sorted as [sort.Float64s] sorts:
    first one [NaN] for every token that parses to a [NaN], then the
    other numbers selected, in strictly ascending order, each once. *)
Theorem selection_in_order (input : string) (avail r : list float64) :
  parseChapterSelection input avail = Ok r ->
  exists r1,
    r = repeat S754_nan
          (countNaN (flat_map (contribution avail) (strings.Split input ","))) ++ r1
    /\ Forall (fun e => isNaN e = false) r1
    /\ ascending r1.
Proof.
  intros Hr.
  rewrite (parse_accepted input avail (parse_ok_accepted input avail r Hr)) in Hr.
  inversion Hr as [Hr']. clear Hr.
  destruct (mapToSlice_assignAll_sorted
              (flat_map (contribution avail) (strings.Split input ",")))
    as (Hs & Hd & Hk).
  destruct (inOrder_split _ Hs Hd) as (r1 & H1 & H2 & H3).
  exists r1. rewrite Hk in H1. auto.
Qed.

(** The order of the tokens and the order of the available chapters do
    not matter: an accepted input with its tokens in another order,
    against the available chapters in another order, is accepted and
    gives the same slice. *)
Theorem token_order_is_irrelevant (input input' : string)
        (avail avail' r : list float64) :
  Permutation (strings.Split input ",") (strings.Split input' ",") ->
  Permutation avail avail' ->
  parseChapterSelection input avail = Ok r ->
  exists r',
    parseChapterSelection input' avail' = Ok r' /\ sameSlice r r'.
Proof.
  intros Hp Ha Hr.
  pose proof (parse_ok_accepted input avail r Hr) as Hw.
  pose proof (forallb_perm _ _ _ Hp Hw) as Hw'.
  rewrite (parse_accepted input avail Hw) in Hr. inversion Hr as [Hr']. clear Hr.
  rewrite (parse_accepted input' avail' Hw').
  eexists. split; [reflexivity|].
  pose proof (contributions_perm avail avail' _ _ Ha Hp) as HL.
  destruct (mapToSlice_assignAll_sorted
              (flat_map (contribution avail) (strings.Split input ",")))
    as (Hs & Hd & Hk).
  destruct (mapToSlice_assignAll_sorted
              (flat_map (contribution avail') (strings.Split input' ",")))
    as (Hs' & Hd' & Hk').
  apply inOrder_same; try assumption.
  - intros v. rewrite !mapToSlice_contains, !assignAll_contains.
    rewrite (slicesContains_perm _ _ v HL). reflexivity.
  - rewrite Hk, Hk'. apply countNaN_perm, HL.
Qed.

(** *** The oldest variant against the present one *)

Lemma earlier_accepted (parts : list string) (avail res : list float64) :
  forallb wellFormed parts = true ->
  Earlier.parseParts ParseFloat parts avail res
  = Ok (res ++ flat_map (contribution avail) parts).
Proof.
  revert res. induction parts as [|p parts IH]; intros res H.
  - simpl. rewrite app_nil_r. reflexivity.
  - simpl in H. apply andb_prop in H. destruct H as [Hp Hps].
    unfold wellFormed in Hp.
    cbn [Earlier.parseParts flat_map]. unfold contribution at 1.
    destruct (strings.Contains p "-").
    + destruct (strings.Split p "-") as [|a [|b [|c l]]]; try discriminate.
      destruct (ParseFloat (strings.TrimSpace a)) as [x|e]; [|discriminate].
      destruct (ParseFloat (strings.TrimSpace b)) as [y|e]; [|discriminate].
      rewrite appendRange_filter, (IH _ Hps), app_assoc. reflexivity.
    + destruct (ParseFloat (strings.TrimSpace p)) as [x|e]; [|discriminate].
      rewrite (IH _ Hps), <- app_assoc. reflexivity.
Qed.

(** What the oldest variant refuses the present one refuses. *)
Lemma earlier_rejected (parts : list string) (avail res : list float64)
      (m : gomap bool) :
  isErr (Earlier.parseParts ParseFloat parts avail res) = true ->
  isErr (parseParts ParseFloat parts avail m) = true.
Proof.
  revert res m. induction parts as [|p parts IH]; intros res m; [discriminate|].
  cbn [Earlier.parseParts parseParts].
  destruct (strings.Contains p "-").
  - destruct (strings.Split p "-") as [|a [|b [|c l]]];
      cbn [length Nat.eqb negb parseRange]; try reflexivity.
    destruct (ParseFloat (strings.TrimSpace a)) as [x|e]; [|reflexivity].
    destruct (ParseFloat (strings.TrimSpace b)) as [y|e]; [|reflexivity].
    destruct (fgt x y); [reflexivity|]. apply IH.
  - destruct (ParseFloat (strings.TrimSpace p)) as [x|e]; [|reflexivity].
    apply IH.
Qed.

(** What the present variant refuses the oldest one refuses, unless the
    error is the one of a range whose start is greater than its end. *)
Lemma present_rejected (parts : list string) (avail res : list float64)
      (m : gomap bool) (e : error) :
  parseParts ParseFloat parts avail m = Err e ->
  kindOf e <> InvalidRange ->
  isErr (Earlier.parseParts ParseFloat parts avail res) = true.
Proof.
  revert res m. induction parts as [|p parts IH]; intros res m; [discriminate|].
  cbn [Earlier.parseParts parseParts].
  destruct (strings.Contains p "-").
  - destruct (strings.Split p "-") as [|a [|b [|c l]]];
      cbn [length Nat.eqb negb parseRange]; try reflexivity.
    destruct (ParseFloat (strings.TrimSpace a)) as [x|e1]; [|reflexivity].
    destruct (ParseFloat (strings.TrimSpace b)) as [y|e1]; [|reflexivity].
    destruct (fgt x y).
    + intros H Hk. inversion H. subst e. exfalso. apply Hk. reflexivity.
    + apply IH.
  - destruct (ParseFloat (strings.TrimSpace p)) as [x|e1]; [|reflexivity].
    apply IH.
Qed.

Lemma countNaN_unique (res : list float64) (m : gomap bool) (u : list float64) :
  countNaN (Earlier.unique res m u) = countNaN u + countNaN res.
Proof.
  revert m u. induction res as [|ch res IH]; intros m u; simpl.
  - change (countNaN []) with 0. lia.
  - rewrite (countNaN_cons ch res).
    destruct (mapaccess m ch) as [[|]|] eqn:E.
    + rewrite IH.
      assert (Hn : isNaN ch = false).
      { destruct (isNaN ch) eqn:En; [|reflexivity].
        apply isNaN_eq in En. subst ch.
        clear -E. induction m as [|[k v] m IHm]; simpl in E; [discriminate|].
        rewrite (feq_nan_r k S754_nan eq_refl) in E. auto. }
      rewrite Hn. lia.
    + rewrite IH, countNaN_app, (countNaN_cons ch []).
      change (countNaN []) with 0. lia.
    + rewrite IH, countNaN_app, (countNaN_cons ch []).
      change (countNaN []) with 0. lia.
Qed.

(** The oldest variant and the present one agree: an input the present
    parser accepts is accepted by the oldest one with the same slice;
    an input the oldest one refuses is refused by the present one; and
    an input the present parser refuses is refused by the oldest one
    unless the error is the one of a range whose start is greater than
    its end, which the oldest variant does not check. *)
Theorem earlier_variant_agrees (input : string) (avail : list float64) :
  (forall r,
     parseChapterSelection input avail = Ok r ->
     exists r',
       Earlier.parseChapterSelection ParseFloat input avail = Ok r'
       /\ sameSlice r r')
  /\ (isErr (Earlier.parseChapterSelection ParseFloat input avail) = true ->
      isErr (parseChapterSelection input avail) = true)
  /\ (forall e,
        parseChapterSelection input avail = Err e ->
        kindOf e <> InvalidRange ->
        isErr (Earlier.parseChapterSelection ParseFloat input avail) = true).
Proof.
  split; [|split].
  - intros r Hr.
    pose proof (parse_ok_accepted input avail r Hr) as Hw.
    rewrite (parse_accepted input avail Hw) in Hr. inversion Hr as [Hr']. clear Hr.
    unfold Earlier.parseChapterSelection.
    rewrite (earlier_accepted _ avail [] Hw). simpl app.
    set (L := flat_map (contribution avail) (strings.Split input ",")).
    eexists. split; [reflexivity|].
    destruct (mapToSlice_assignAll_sorted L) as (Hs & Hd & Hk).
    destruct (unique_spec L [] []) as (H1 & H2 & H3);
      [constructor | reflexivity | constructor |].
    apply inOrder_same; try assumption.
    + apply sortFloat64s_inOrder.
    + apply (distinctKeys_perm (Earlier.unique L [] [])); [|exact H3].
      symmetry. apply sortFloat64s_perm.
    + intros v. rewrite mapToSlice_contains, assignAll_contains.
      rewrite (slicesContains_perm _ _ v (sortFloat64s_perm _)), H1. reflexivity.
    + rewrite Hk, (countNaN_perm _ _ (sortFloat64s_perm _)), countNaN_unique.
      reflexivity.
  - unfold Earlier.parseChapterSelection, parseChapterSelection.
    intros H.
    pose proof (earlier_rejected (strings.Split input ",") avail [] []) as K.
    destruct (Earlier.parseParts ParseFloat _ avail []); [discriminate|].
    specialize (K eq_refl).
    destruct (parseParts ParseFloat _ avail []); [discriminate | reflexivity].
  - unfold Earlier.parseChapterSelection, parseChapterSelection.
    intros e H Hk.
    destruct (parseParts ParseFloat (strings.Split input ",") avail []) as [m|e1] eqn:E;
      [discriminate|].
    inversion H. subst e1.
    pose proof (present_rejected _ avail [] [] e E Hk) as K.
    destruct (Earlier.parseParts ParseFloat _ avail []); [discriminate | reflexivity].
Qed.

End UnionProperties.

(** ** Tokens that are never accepted *)

Lemma ParseFloat_empty :
  strconv.ParseFloat (strings.TrimSpace "") = Err ErrSyntax.
Proof. vm_compute. reflexivity. Qed.

Lemma wellFormed_empty : wellFormed strconv.ParseFloat "" = false.
Proof. vm_compute. reflexivity. Qed.

Lemma wellFormed_leading_minus (rest : string) :
  wellFormed strconv.ParseFloat (String "-" rest) = false.
Proof.
  unfold wellFormed. cbn [strings.Contains strings.Split].
  rewrite Ascii.eqb_refl.
  destruct (strings.Split rest "-") as [|b [|c l]]; try reflexivity;
    rewrite ParseFloat_empty; reflexivity.
Qed.

Lemma wellFormed_trailing_minus (rest : string) :
  wellFormed strconv.ParseFloat (rest ++ "-") = false.
Proof.
  unfold wellFormed. rewrite Contains_app. cbn [strings.Contains].
  rewrite Ascii.eqb_refl, orb_true_r.
  rewrite (Split_app_sep rest "" "-"). cbn [strings.Split].
  destruct (strings.Split rest "-") as [|a [|b l]]; try reflexivity.
  - cbn [app]. rewrite ParseFloat_empty.
    destruct (strconv.ParseFloat (strings.TrimSpace a)); reflexivity.
  - cbn [app]. destruct l; reflexivity.
Qed.

(** An input with a token that is empty, or that begins or ends with
    [-], is refused, whatever the other tokens and the available
    chapters are: so are the empty input, an input with a comma first,
    last or twice in a row, and any attempt at a negative number. *)
Theorem empty_and_signed_tokens_are_refused
        (input : string) (avail : list float64) (part : string) :
  In part (strings.Split input ",") ->
  part = EmptyString
  \/ (exists rest, part = String "-" rest)
  \/ (exists rest, part = (rest ++ "-")%string) ->
  isErr (parseChapterSelection strconv.ParseFloat input avail) = true.
Proof.
  intros Hin Hpart.
  assert (Hw : wellFormed strconv.ParseFloat part = false).
  { destruct Hpart as [->|[[rest ->]|[rest ->]]].
    - apply wellFormed_empty.
    - apply wellFormed_leading_minus.
    - apply wellFormed_trailing_minus. }
  rewrite parse_isErr. apply negb_true_iff.
  destruct (forallb (wellFormed strconv.ParseFloat) (strings.Split input ",")) eqn:E;
    [|reflexivity].
  rewrite forallb_forall in E. rewrite (E part Hin) in Hw. discriminate.
Qed.

(** ** The chapters selected *)

Lemma mapaccess_mapassign {V : Type} (m : gomap V) (k : float64) (v : V) (q : float64) :
  mapaccess (mapassign m k v) q = if feq k q then Some v else mapaccess m q.
Proof.
  induction m as [|[k' v'] m IH]; simpl; [reflexivity|].
  destruct (feq k' k) eqn:E; simpl.
  - rewrite (feq_congr_l k' k q E). destruct (feq k q); reflexivity.
  - rewrite IH. destruct (feq k' q) eqn:E1; [|reflexivity].
    destruct (feq k q) eqn:E2; [|reflexivity].
    rewrite (feq_trans k' q k E1) in E; [discriminate|].
    rewrite feq_sym. exact E2.
Qed.

Lemma chapterMapOf_snoc (allChapters : list Chapter) (chapter : Chapter) :
  chapterMapOf (allChapters ++ [chapter])
  = mapassign (chapterMapOf allChapters) (Number chapter) chapter.
Proof. unfold chapterMapOf. rewrite fold_left_app. reflexivity. Qed.

Lemma chapterMapOf_lookup (allChapters : list Chapter) (q : float64) :
  mapaccess (chapterMapOf allChapters) q
  = find (fun chapter => feq (Number chapter) q) (rev allChapters).
Proof.
  induction allChapters as [|chapter allChapters IH] using rev_ind; [reflexivity|].
  rewrite chapterMapOf_snoc, mapaccess_mapassign, rev_app_distr, IH. reflexivity.
Qed.

Lemma find_none_iff {A : Type} (f : A -> bool) (l : list A) :
  Forall (fun a => f a = false) l -> find f l = None.
Proof.
  induction 1 as [|a l Ha _ IH]; simpl; [reflexivity|]. rewrite Ha. exact IH.
Qed.

Lemma find_app_none {A : Type} (f : A -> bool) (l l' : list A) :
  Forall (fun a => f a = false) l -> find f (l ++ l') = find f l'.
Proof.
  induction 1 as [|a l Ha _ IH]; simpl; [reflexivity|]. rewrite Ha. exact IH.
Qed.

(** Of several chapters with the same number the map of the archive
    variant keeps the last: a chapter is what its number is looked up
    to when no chapter after it in the list has the same number,
    whatever chapters before it have it; and a number that no chapter
    has is looked up to nothing. *)
Theorem chapterMap_keeps_last (before after : list Chapter) (chapter : Chapter) :
  isNaN (Number chapter) = false ->
  Forall (fun c => feq (Number c) (Number chapter) = false) after ->
  mapaccess (chapterMapOf (before ++ chapter :: after)) (Number chapter) = Some chapter
  /\ (forall q,
        Forall (fun c => feq (Number c) q = false) (before ++ chapter :: after) ->
        mapaccess (chapterMapOf (before ++ chapter :: after)) q = None).
Proof.
  intros Hn Ha. split.
  - rewrite chapterMapOf_lookup, rev_app_distr. cbn [rev].
    rewrite <- app_assoc, find_app_none by (apply Forall_rev; exact Ha).
    cbn [app find]. rewrite (feq_refl _ Hn). reflexivity.
  - intros q Hq. rewrite chapterMapOf_lookup.
    apply find_none_iff, Forall_rev, Hq.
Qed.


(** *** Looking the numbers up against scanning the chapters *)

(** The chapters are in strictly ascending order of their numbers. *)
Lemma ascending_chapters (l : list Chapter) :
  ascending (getChapterNumbers l) ->
  StronglySorted (fun a b => flt (Number a) (Number b) = true) l.
Proof.
  unfold ascending, getChapterNumbers.
  induction l as [|a l IH]; simpl; intros H; [constructor|].
  inversion H as [|? ? Hs Ha]; subst.
  constructor; [auto|].
  rewrite Forall_forall in *. intros b Hb. apply Ha, in_map, Hb.
Qed.

Lemma sorted_chapters_same (l : list Chapter) (a b : Chapter) :
  StronglySorted (fun a b => flt (Number a) (Number b) = true) l ->
  In a l -> In b l -> feq (Number a) (Number b) = true -> a = b.
Proof.
  induction 1 as [|x l _ IH Hx]; [intros []|].
  rewrite Forall_forall in Hx.
  intros [Ha|Ha] [Hb|Hb] E; subst; auto.
  - specialize (Hx b Hb).
    rewrite (flt_congr_l _ _ _ E), flt_irrefl in Hx. discriminate.
  - specialize (Hx a Ha).
    rewrite (flt_congr_r _ _ _ E), flt_irrefl in Hx. discriminate.
Qed.

(** Two lists of chapters, each in strictly ascending order of the
    numbers, with the same members, are the same list. *)
Lemma sorted_chapters_unique (l1 l2 : list Chapter) :
  StronglySorted (fun a b => flt (Number a) (Number b) = true) l1 ->
  StronglySorted (fun a b => flt (Number a) (Number b) = true) l2 ->
  (forall c, In c l1 <-> In c l2) ->
  l1 = l2.
Proof.
  revert l2. induction l1 as [|a l1 IH]; intros [|b l2] H1 H2 Hm.
  - reflexivity.
  - destruct (proj2 (Hm b) (or_introl eq_refl)).
  - destruct (proj1 (Hm a) (or_introl eq_refl)).
  - inversion H1 as [|? ? H1' Ha]; subst. inversion H2 as [|? ? H2' Hb]; subst.
    rewrite Forall_forall in Ha, Hb.
    assert (Hab : a = b).
    { destruct (proj1 (Hm a) (or_introl eq_refl)) as [E|Hin]; [congruence|].
      destruct (proj2 (Hm b) (or_introl eq_refl)) as [E|Hin']; [congruence|].
      specialize (Hb a Hin). specialize (Ha b Hin').
      rewrite (flt_asym _ _ Hb) in Ha. discriminate. }
    subst b. f_equal. apply IH; try assumption.
    intros c. split; intros Hc.
    + destruct (proj1 (Hm c) (or_intror Hc)) as [E|Hin]; [|exact Hin].
      subst c. specialize (Ha a Hc). rewrite flt_irrefl in Ha. discriminate.
    + destruct (proj2 (Hm c) (or_intror Hc)) as [E|Hin]; [|exact Hin].
      subst c. specialize (Hb a Hc). rewrite flt_irrefl in Hb. discriminate.
Qed.

Lemma getSelectedChapters_In (l : list float64) (chapterMap : gomap Chapter)
      (n : float64) (c : Chapter) :
  In n l -> mapaccess chapterMap n = Some c ->
  In c (getSelectedChapters l chapterMap).
Proof.
  induction l as [|x l IH]; simpl; [intros []|].
  intros [->|H] Hc.
  - rewrite Hc. left. reflexivity.
  - destruct (mapaccess chapterMap x); [right|]; auto.
Qed.

Lemma getSelectedChapters_app (l l' : list float64) (chapterMap : gomap Chapter) :
  getSelectedChapters (l ++ l') chapterMap
  = getSelectedChapters l chapterMap ++ getSelectedChapters l' chapterMap.
Proof.
  induction l as [|x l IH]; simpl; [reflexivity|].
  destruct (mapaccess chapterMap x); rewrite IH; reflexivity.
Qed.

Lemma mapaccess_nan {V : Type} (m : gomap V) : mapaccess m S754_nan = None.
Proof.
  induction m as [|[k v] m IH]; simpl; [reflexivity|].
  rewrite (feq_nan_r k S754_nan eq_refl). exact IH.
Qed.

Lemma getSelectedChapters_nans (k : nat) (chapterMap : gomap Chapter) :
  getSelectedChapters (repeat S754_nan k) chapterMap = [].
Proof.
  induction k as [|k IH]; simpl; [reflexivity|].
  rewrite mapaccess_nan. exact IH.
Qed.

Lemma getSelectedChapters_sorted (l : list float64) (chapterMap : gomap Chapter) :
  ascending l ->
  (forall n c, mapaccess chapterMap n = Some c -> feq (Number c) n = true) ->
  StronglySorted (fun a b => flt (Number a) (Number b) = true)
                 (getSelectedChapters l chapterMap).
Proof.
  unfold ascending. intros Hs Hm.
  induction Hs as [|x l _ IH Hx]; simpl; [constructor|].
  destruct (mapaccess chapterMap x) as [c|] eqn:E; [|exact IH].
  constructor; [exact IH|].
  rewrite Forall_forall in *. intros b Hb.
  destruct (getSelectedChapters_found _ _ _ Hb) as (n & Hn & Hc).
  rewrite (flt_congr_l _ _ _ (Hm x c E)), (flt_congr_r _ _ _ (Hm n b Hc)).
  apply Hx, Hn.
Qed.

Lemma chapterMapOf_found (allChapters : list Chapter) (n : float64) (c : Chapter) :
  mapaccess (chapterMapOf allChapters) n = Some c ->
  In c allChapters /\ feq (Number c) n = true.
Proof.
  rewrite chapterMapOf_lookup. intros H. apply find_some in H.
  destruct H as [H1 H2]. split; [apply in_rev, H1 | exact H2].
Qed.

Lemma find_rev_unique {A : Type} (f : A -> bool) (l : list A) :
  (forall a b, In a l -> In b l -> f a = true -> f b = true -> a = b) ->
  find f (rev l) = find f l.
Proof.
  intros Hu.
  destruct (find f l) as [a|] eqn:E.
  - apply find_some in E. destruct E as [Ha Hfa].
    destruct (find f (rev l)) as [b|] eqn:E'.
    + apply find_some in E'. destruct E' as [Hb Hfb].
      apply in_rev in Hb. f_equal. apply Hu; assumption.
    + pose proof (find_none _ _ E' a (proj1 (in_rev _ _) Ha)) as K.
      congruence.
  - destruct (find f (rev l)) as [b|] eqn:E'; [|reflexivity].
    apply find_some in E'. destruct E' as [Hb Hfb]. apply in_rev in Hb.
    pose proof (find_none _ _ E b Hb) as K. congruence.
Qed.

Lemma selectFirst_lookup (r : list float64) (allChapters : list Chapter) :
  StronglySorted (fun a b => flt (Number a) (Number b) = true) allChapters ->
  selectFirst r allChapters = getSelectedChapters r (chapterMapOf allChapters).
Proof.
  intros Hsorted. induction r as [|n r IH]; simpl; [reflexivity|].
  rewrite chapterMapOf_lookup, find_rev_unique, IH; [reflexivity|].
  intros a b Ha Hb Hfa Hfb.
  apply (sorted_chapters_same allChapters); try assumption.
  apply (feq_trans _ n _ Hfa). rewrite feq_sym. exact Hfb.
Qed.

Section SelectedChapters.

Variable ParseFloat : string -> result NumError float64.

(** The three ways of resolving the numbers selected give the same
    chapters in the same order, when the chapters scraped are in
    strictly ascending order of their numbers: the archive variant looks
    every number selected up in its map, [cmd/tcb-cli/main.go] scans the
    chapters for those whose number is among the numbers selected, and
    the oldest variant takes for every number selected the first chapter
    that has it. *)
Theorem lookup_agrees_with_scan (input : string) (allChapters : list Chapter)
        (r : list float64) :
  ascending (getChapterNumbers allChapters) ->
  parseChapterSelection ParseFloat input (getChapterNumbers allChapters) = Ok r ->
  getSelectedChapters r (chapterMapOf allChapters) = selectChapters r allChapters
  /\ selectFirst r allChapters = selectChapters r allChapters.
Proof.
  intros Hall Hr.
  pose proof (ascending_chapters allChapters Hall) as Hsorted.
  rewrite (selectFirst_lookup r allChapters Hsorted).
  cut (getSelectedChapters r (chapterMapOf allChapters) = selectChapters r allChapters);
    [intros E; split; exact E|].
  destruct (parse_sorted ParseFloat input _ r Hr) as [Hs Hd].
  destruct (inOrder_split r Hs Hd) as (r1 & Hsplit & Hn & Hasc).
  apply sorted_chapters_unique.
  - rewrite Hsplit, getSelectedChapters_app, getSelectedChapters_nans.
    apply getSelectedChapters_sorted; [exact Hasc|].
    intros n c Hc. apply (chapterMapOf_found allChapters n c Hc).
  - unfold selectChapters. clear -Hsorted.
    induction Hsorted as [|a l _ IH Ha]; simpl; [constructor|].
    destruct (slicesContains r (Number a)); [|exact IH].
    constructor; [exact IH|].
    rewrite Forall_forall in *. intros b Hb.
    apply filter_In in Hb. apply Ha, Hb.
  - intros c. unfold selectChapters. rewrite filter_In. split.
    + intros Hc. destruct (getSelectedChapters_found _ _ _ Hc) as (n & Hnr & Hm).
      destruct (chapterMapOf_found _ _ _ Hm) as [Hin Hf].
      split; [exact Hin|].
      apply slicesContains_In. exists n. split; [exact Hnr|].
      rewrite feq_sym. exact Hf.
    + intros [Hin Hc]. apply slicesContains_In in Hc.
      destruct Hc as (n & Hnr & Hf).
      destruct (mapaccess (chapterMapOf allChapters) n) as [c'|] eqn:E.
      * destruct (chapterMapOf_found _ _ _ E) as [Hin' Hf'].
        assert (c' = c).
        { apply (sorted_chapters_same allChapters); try assumption.
          apply (feq_trans _ n _ Hf' Hf). }
        subst c'. apply (getSelectedChapters_In r _ n c Hnr E).
      * exfalso. rewrite chapterMapOf_lookup in E.
        pose proof (find_none _ _ E c (proj1 (in_rev _ _) Hin)) as K.
        simpl in K. rewrite feq_sym in Hf. congruence.
Qed.

End SelectedChapters.

(** ** The prompts *)

Lemma intmap_access_assign (m : Archive.intmap) (k : Z) (v : Manga) (q : Z) :
  Archive.mapaccess (Archive.mapassign m k v) q
  = if (k =? q)%Z then Some v else Archive.mapaccess m q.
Proof.
  induction m as [|[k' v'] m IH]; simpl; [reflexivity|].
  destruct (Z.eqb_spec k' k) as [->|Hk]; simpl.
  - destruct (k =? q)%Z; reflexivity.
  - rewrite IH. destruct (Z.eqb_spec k' q) as [->|Hq]; [|reflexivity].
    destruct (Z.eqb_spec k q); [congruence | reflexivity].
Qed.

Lemma fillMangaMap_access (mangas : list Manga) (i : Z) (m : Archive.intmap) (q : Z) :
  (0 <= i)%Z ->
  Archive.mapaccess (Archive.fillMangaMap i mangas m) q
  = if ((i + 1 <=? q) && (q <=? i + Z.of_nat (length mangas)))%Z
    then nth_error mangas (Z.to_nat (q - i - 1))
    else Archive.mapaccess m q.
Proof.
  revert i m. induction mangas as [|manga mangas IH]; intros i m Hi.
  - cbn [Archive.fillMangaMap length].
    destruct (Z.leb_spec (i + 1) q), (Z.leb_spec q (i + Z.of_nat 0)); simpl;
      try reflexivity; lia.
  - cbn [Archive.fillMangaMap length]. rewrite IH by lia.
    rewrite intmap_access_assign.
    destruct (Z.leb_spec (i + 1 + 1) q), (Z.leb_spec q (i + 1 + Z.of_nat (length mangas)));
      destruct (Z.leb_spec (i + 1) q), (Z.leb_spec q (i + Z.of_nat (S (length mangas))));
      destruct (Z.eqb_spec (i + 1) q); cbn [andb]; try lia; try reflexivity.
    + replace (Z.to_nat (q - i - 1)) with (S (Z.to_nat (q - (i + 1) - 1))) by lia.
      reflexivity.
    + replace (Z.to_nat (q - i - 1)) with 0%nat by lia. reflexivity.
Qed.

(** The two versions of [mangaSelection] choose the same manga, on
    every list of mangas and whatever is typed.  The manga chosen is
    the one at the position given by the first number read that is a
    position of the list: every read before it failed or gave a number
    that is not one; and no manga is chosen only when no read gives a
    position of the list. *)
Theorem manga_selection_agrees (mangas : list Manga) (inputs : list (option Z)) :
  Archive.mangaSelection mangas inputs = mangaSelection mangas inputs
  /\ (forall manga,
        mangaSelection mangas inputs = Some manga ->
        exists before n after,
          inputs = before ++ Some n :: after
          /\ Forall (fun read =>
                       match read with
                       | None => True
                       | Some k => ~ (1 <= k <= Z.of_nat (length mangas))%Z
                       end) before
          /\ (1 <= n <= Z.of_nat (length mangas))%Z
          /\ nth_error mangas (Z.to_nat (n - 1)) = Some manga)
  /\ (mangaSelection mangas inputs = None ->
      Forall (fun read =>
                match read with
                | None => True
                | Some k => ~ (1 <= k <= Z.of_nat (length mangas))%Z
                end) inputs).
Proof.
  split; [|split].
  - unfold Archive.mangaSelection.
    induction inputs as [|[n|] inputs IH]; simpl; [reflexivity| |exact IH].
    rewrite fillMangaMap_access by lia. rewrite IH.
    replace (n - 0 - 1)%Z with (n - 1)%Z by lia.
    change (0 + 1)%Z with 1%Z. change (0 + Z.of_nat (length mangas))%Z
      with (Z.of_nat (length mangas)).
    destruct ((1 <=? n) && (n <=? Z.of_nat (length mangas)))%Z eqn:E; [|reflexivity].
    apply andb_prop in E. destruct E as [E1 E2].
    apply Z.leb_le in E1, E2.
    destruct (nth_error mangas (Z.to_nat (n - 1))) eqn:En; [reflexivity|].
    apply nth_error_None in En. lia.
  - intros manga. induction inputs as [|[n|] inputs IH]; simpl; [discriminate| |].
    + destruct ((1 <=? n) && (n <=? Z.of_nat (length mangas)))%Z eqn:E.
      * intros H. apply andb_prop in E. destruct E as [E1 E2].
        apply Z.leb_le in E1, E2. exists [], n, inputs. auto.
      * intros H. destruct (IH H) as (before & k & after & Hi & Hb & Hk & Hr).
        exists (Some n :: before), k, after. rewrite Hi.
        split; [reflexivity|]. split; [|auto]. constructor; [|exact Hb].
        intros [K1 K2]. apply Z.leb_le in K1, K2. rewrite K1, K2 in E. discriminate.
    + intros H. destruct (IH H) as (before & k & after & Hi & Hb & Hk & Hr).
      exists (None :: before), k, after. rewrite Hi. auto.
  - induction inputs as [|[n|] inputs IH]; simpl; [constructor| |].
    + destruct ((1 <=? n) && (n <=? Z.of_nat (length mangas)))%Z eqn:E.
      * intros H. apply andb_prop in E. destruct E as [E1 E2].
        apply Z.leb_le in E1, E2. apply nth_error_None in H. lia.
      * intros H. constructor; [|exact (IH H)].
        intros [K1 K2]. apply Z.leb_le in K1, K2. rewrite K1, K2 in E. discriminate.
    + intros H. constructor; [exact I | exact (IH H)].
Qed.

Section PromptProperties.

Variable ParseFloat : string -> result NumError float64.

(** The loop of [chapterSelection] returns only with a selection that
    is not empty: the chapters, in their order, that the first input
    that parses and selects something selects; every read before it
    failed, did not parse or selected nothing. *)
Theorem selection_loop_returns_chapters (allChapters : list Chapter)
        (inputs : list (option string)) (selectedChapters : list Chapter) :
  chapterSelectionLoop ParseFloat allChapters inputs = Some selectedChapters ->
  selectedChapters <> []
  /\ incl selectedChapters allChapters
  /\ exists before input after chapterNumbers,
      inputs = before ++ Some input :: after
      /\ chapterSelectionLoop ParseFloat allChapters before = None
      /\ parseChapterSelection ParseFloat input (getChapterNumbers allChapters)
         = Ok chapterNumbers
      /\ selectedChapters = selectChapters chapterNumbers allChapters.
Proof.
  induction inputs as [|[input|] inputs IH]; cbn [chapterSelectionLoop];
    [discriminate| |].
  - destruct (parseChapterSelection ParseFloat input (getChapterNumbers allChapters))
      as [chapterNumbers|e] eqn:Ep.
    + destruct (selectChapters chapterNumbers allChapters) as [|c sel] eqn:Es.
      * intros H. destruct (IH H) as (H1 & H2 & before & i & after & r & Hi & Hb & Hr & Hs).
        split; [exact H1|]. split; [exact H2|].
        exists (Some input :: before), i, after, r.
        cbn [chapterSelectionLoop]. rewrite Ep, Es, Hi. auto.
      * intros H. inversion H. subst selectedChapters.
        split; [discriminate|]. split.
        -- rewrite <- Es. unfold selectChapters. intros x Hx.
           apply filter_In in Hx. apply Hx.
        -- exists [], input, inputs, chapterNumbers. auto.
    + intros H. destruct (IH H) as (H1 & H2 & before & i & after & r & Hi & Hb & Hr & Hs).
      split; [exact H1|]. split; [exact H2|].
      exists (Some input :: before), i, after, r.
      cbn [chapterSelectionLoop]. rewrite Ep, Hi. auto.
  - intros H. destruct (IH H) as (H1 & H2 & before & i & after & r & Hi & Hb & Hr & Hs).
    split; [exact H1|]. split; [exact H2|].
    exists (None :: before), i, after, r.
    cbn [chapterSelectionLoop]. rewrite Hi. auto.
Qed.

End PromptProperties.

(** ** The chapter number of a name *)

Lemma append_nil_r (s : string) : (s ++ "")%string = s.
Proof. induction s as [|c s IH]; simpl; [reflexivity | rewrite IH; reflexivity]. Qed.

Lemma append_assoc (s t u : string) :
  ((s ++ t) ++ u)%string = (s ++ t ++ u)%string.
Proof. induction s as [|c s IH]; simpl; [reflexivity | rewrite IH; reflexivity]. Qed.

Lemma takeDigits_spec (s d rest : string) :
  takeDigits s = (d, rest) -> s = (d ++ rest)%string /\ allDigits d = true.
Proof.
  revert d rest. induction s as [|c s IH]; simpl; intros d rest H.
  - inversion H. subst. auto.
  - destruct (isDigit c) eqn:E.
    + destruct (takeDigits s) as [d' rest'] eqn:Et.
      inversion H. subst. destruct (IH d' rest eq_refl) as [-> Hd].
      simpl. rewrite E, Hd. auto.
    + inversion H. subst. auto.
Qed.

Lemma takeDigits_digit (c : ascii) (s : string) :
  isDigit c = true -> fst (takeDigits (String c s)) <> EmptyString.
Proof.
  intros H. simpl. rewrite H. destruct (takeDigits s). discriminate.
Qed.

Lemma stripPrefix_spec (p s t : string) :
  stripPrefix p s = Some t -> s = (p ++ t)%string.
Proof.
  revert s. induction p as [|a p IH]; intros [|b s]; simpl; intros H;
    try (inversion H; reflexivity); try discriminate.
  destruct (Ascii.eqb a b) eqn:E; [|discriminate].
  apply Ascii.eqb_eq in E. subst b. rewrite (IH s H). reflexivity.
Qed.

Lemma stripPrefix_app (p t : string) : stripPrefix p (p ++ t) = Some t.
Proof.
  induction p as [|a p IH]; simpl; [reflexivity|].
  rewrite Ascii.eqb_refl. exact IH.
Qed.

(** What [matchHere] finds is a prefix in the language of the pattern. *)
Lemma matchHere_sound (s : string) :
  matchHere s <> [] ->
  exists m post, s = (m ++ post)%string /\ matchesPattern m.
Proof.
  unfold matchHere.
  destruct (stripPrefix "Chapter " s) as [t|] eqn:Ep; [|congruence].
  destruct (takeDigits t) as [d rest] eqn:Et.
  destruct d as [|c d]; [congruence|]. intros _.
  apply stripPrefix_spec in Ep. destruct (takeDigits_spec _ _ _ Et) as [-> Hd].
  exists ("Chapter " ++ String c d ++ "")%string, rest. split.
  - rewrite Ep, append_nil_r. reflexivity.
  - exists (String c d), EmptyString. repeat split; auto. discriminate.
Qed.

(** A prefix in the language of the pattern is found by [matchHere]. *)
Lemma matchHere_complete (m post : string) :
  matchesPattern m -> matchHere (m ++ post) <> [].
Proof.
  intros (d & frac & -> & Hd & Hdig & _).
  unfold matchHere.
  rewrite (append_assoc "Chapter " (d ++ frac) post), stripPrefix_app.
  destruct d as [|c d]; [congruence|].
  simpl in Hdig. apply andb_prop in Hdig. destruct Hdig as [Hc _].
  pose proof (takeDigits_digit c ((d ++ frac) ++ post) Hc) as Hne.
  change ((String c d ++ frac) ++ post)%string
    with (String c ((d ++ frac) ++ post)).
  destruct (takeDigits (String c ((d ++ frac) ++ post))) as [d' rest].
  destruct d' as [|c' d']; [simpl in Hne; congruence | discriminate].
Qed.

Lemma FindStringSubmatch_here (name : string) :
  matchHere name <> [] -> FindStringSubmatch name = matchHere name.
Proof.
  intros H. destruct name; cbn [FindStringSubmatch];
    destruct (matchHere _); congruence.
Qed.

Lemma FindStringSubmatch_next (a : ascii) (name : string) :
  matchHere (String a name) = [] ->
  FindStringSubmatch (String a name) = FindStringSubmatch name.
Proof.
  intros H. cbn [FindStringSubmatch]. rewrite H. reflexivity.
Qed.

(** [FindStringSubmatch] finds a match exactly when the name has a
    substring in the language of the pattern. *)
Lemma FindStringSubmatch_iff (name : string) :
  FindStringSubmatch name <> [] <-> hasChapterNumber name.
Proof.
  split.
  - induction name as [|a name IH]; intros H.
    + destruct (matchHere_sound "") as (m & post & Hs & Hm).
      { intros E. apply H. cbn [FindStringSubmatch]. rewrite E. reflexivity. }
      exists EmptyString, m, post. auto.
    + destruct (matchHere (String a name)) eqn:E.
      * rewrite (FindStringSubmatch_next a name E) in H.
        destruct (IH H) as (pre & m & post & -> & Hm).
        exists (String a pre), m, post. auto.
      * destruct (matchHere_sound (String a name)) as (m & post & Hs & Hm);
          [congruence|].
        exists EmptyString, m, post. auto.
  - intros (pre & m & post & -> & Hm).
    induction pre as [|a pre IH].
    + simpl append. pose proof (matchHere_complete m post Hm) as H.
      rewrite (FindStringSubmatch_here _ H). exact H.
    + change (String a pre ++ m ++ post)%string
        with (String a (pre ++ m ++ post)).
      destruct (matchHere (String a (pre ++ m ++ post))) eqn:E.
      * rewrite (FindStringSubmatch_next _ _ E). exact IH.
      * rewrite FindStringSubmatch_here; congruence.
Qed.

Section ChapterNumberProperties.

Variable ParseFloat : string -> result NumError float64.

(** C10: for a name with no substring matching
    [Chapter \d+(\.\d+)?], [getChapterNumber] returns the number 0 and a
    nil error. *)
Theorem chapter_number_defaults_to_zero (name : string) :
  ~ hasChapterNumber name ->
  getChapterNumber ParseFloat name = (S754_zero false, None).
Proof.
  intros H. unfold getChapterNumber.
  destruct (FindStringSubmatch name) as [|m ms] eqn:E; [reflexivity|].
  exfalso. apply H. apply FindStringSubmatch_iff. congruence.
Qed.

End ChapterNumberProperties.

(** *** The number of a name that has one *)

Lemma takeDigits_app (d t : string) :
  allDigits d = true -> fst (takeDigits t) = EmptyString ->
  takeDigits (d ++ t) = (d, t).
Proof.
  intros Hd Ht. induction d as [|c d IH]; simpl.
  - destruct t as [|c t]; [reflexivity|]. simpl in *.
    destruct (isDigit c); [|reflexivity].
    destruct (takeDigits t). discriminate.
  - simpl in Hd. apply andb_prop in Hd. destruct Hd as [Hc Hd].
    rewrite Hc, (IH Hd). reflexivity.
Qed.

Lemma FindStringSubmatch_skip (pre s : string) :
  strings.Contains pre "C" = false ->
  FindStringSubmatch (pre ++ s) = FindStringSubmatch s.
Proof.
  induction pre as [|c pre IH]; simpl strings.Contains; [reflexivity|].
  destruct (Ascii.eqb c "C") eqn:E; [discriminate|]. intros H.
  change (String c pre ++ s)%string with (String c (pre ++ s)).
  rewrite FindStringSubmatch_next; [exact (IH H)|].
  unfold matchHere. cbn [stripPrefix].
  rewrite Ascii.eqb_sym, E. reflexivity.
Qed.

Section ChapterNumberOfName.

Variable ParseFloat : string -> result NumError float64.

(** The number of a name is read from the digits that follow the first
    [Chapter ] of the name, with their fraction when there is one, and
    from nothing else: for a name [pre ++ "Chapter " ++ d ++ frac ++
    post], where [pre] holds no [C], [d] is digits, [frac] is empty or a
    dot and digits, and [post] does not go on with the number,
    [getChapterNumber] returns what [ParseFloat] makes of [d ++ frac],
    its error included. *)
Theorem chapter_number_of_name (pre d frac post : string) :
  strings.Contains pre "C" = false ->
  d <> EmptyString -> allDigits d = true ->
  (frac = EmptyString
   \/ exists f, frac = String "." f /\ f <> EmptyString /\ allDigits f = true) ->
  fst (takeDigits post) = EmptyString ->
  (frac = EmptyString ->
   forall post', post = String "." post' -> fst (takeDigits post') = EmptyString) ->
  getChapterNumber ParseFloat (pre ++ "Chapter " ++ d ++ frac ++ post)
  = match ParseFloat (d ++ frac) with
    | Ok number => (number, None)
    | Err e => (S754_zero false, Some e)
    end.
Proof.
  intros Hpre Hd Hdig Hfrac Hpost Hdot.
  unfold getChapterNumber. rewrite (FindStringSubmatch_skip pre _ Hpre).
  assert (Hm : matchHere ("Chapter " ++ d ++ frac ++ post)
               = [("Chapter " ++ d ++ frac)%string; (d ++ frac)%string; frac]).
  { unfold matchHere. rewrite stripPrefix_app.
    assert (Hrest : fst (takeDigits (frac ++ post)) = EmptyString).
    { destruct Hfrac as [->|(f & -> & _)]; [exact Hpost | reflexivity]. }
    rewrite (takeDigits_app d _ Hdig Hrest).
    destruct d as [|c d]; [congruence|].
    destruct Hfrac as [->|(f & -> & Hf & Hfd)].
    - cbn [append]. destruct post as [|a post]; [reflexivity|].
      destruct (Ascii.eqb a ".") eqn:E; [|reflexivity].
      apply Ascii.eqb_eq in E. subst a.
      specialize (Hdot eq_refl post eq_refl).
      destruct (takeDigits post) as [[|f0 f] rest]; [reflexivity|].
      simpl in Hdot. discriminate.
    - cbn [append].
      rewrite Ascii.eqb_refl, (takeDigits_app f post Hfd Hpost).
      destruct f as [|f0 f]; [congruence | reflexivity]. }
  rewrite (FindStringSubmatch_here _ ltac:(rewrite Hm; discriminate)), Hm.
  simpl. destruct (ParseFloat (d ++ frac)); reflexivity.
Qed.

End ChapterNumberOfName.

(** ** The names of the chapters on disk *)

Lemma removeIllegal_clean (title : string) (c : ascii) :
  illegalChar c = true -> strings.Contains (removeIllegal title) c = false.
Proof.
  intros Hc. induction title as [|a title IH]; simpl; [reflexivity|].
  destruct (illegalChar a) eqn:Ea; [exact IH|]. simpl.
  destruct (Ascii.eqb a c) eqn:E; [|exact IH].
  apply Ascii.eqb_eq in E. subst a. congruence.
Qed.

Lemma removeIllegal_keeps (title : string) (c : ascii) :
  illegalChar c = false ->
  strings.Contains (removeIllegal title) c = strings.Contains title c.
Proof.
  intros Hc. induction title as [|a title IH]; simpl; [reflexivity|].
  destruct (illegalChar a) eqn:Ea; simpl.
  - destruct (Ascii.eqb a c) eqn:E; [|exact IH].
    apply Ascii.eqb_eq in E. subst a. congruence.
  - rewrite IH. reflexivity.
Qed.

(** A chapter made by [getChapters] has in its title none of the
    characters that [getCleanChapterTitle] removes, whatever text was
    scraped for it, and every other character of the trimmed text is
    still there. *)
Theorem scraped_title_is_clean
        (ParseFloat : string -> result NumError float64) (manga : Manga)
        (url name rawTitle : string) (chapter : Chapter) :
  newChapter ParseFloat manga url name rawTitle = Ok chapter ->
  forall c,
    (illegalChar c = true -> strings.Contains (Title chapter) c = false)
    /\ (illegalChar c = false ->
        strings.Contains (Title chapter) c
        = strings.Contains (strings.Trim rawTitle " .") c).
Proof.
  unfold newChapter.
  destruct (getChapterNumber ParseFloat (strings.TrimSpace name)) as [number [e|]];
    [discriminate|].
  intros H c. injection H as H. subst chapter. cbn [Title].
  unfold getCleanChapterTitle. split; intros Hc.
  - apply removeIllegal_clean, Hc.
  - apply removeIllegal_keeps, Hc.
Qed.

(** ** File names of the images *)

Lemma fmt03d_threeDigits (n : nat) :
  n < 1000 -> fmt.fmt03d (Z.of_nat n) = threeDigits n.
Proof.
  intros H.
  assert (K : forallb (fun k => String.eqb (fmt.fmt03d (Z.of_nat k)) (threeDigits k))
                      (seq 0 1000) = true) by (vm_compute; reflexivity).
  rewrite forallb_forall in K.
  apply String.eqb_eq. apply K. apply in_seq. lia.
Qed.

Lemma digitChar_compare (d d' : nat) :
  d < 10 -> d' < 10 ->
  Ascii.compare (digitChar d) (digitChar d') = Nat.compare d d'.
Proof.
  intros H H'.
  do 10 (destruct d as [|d];
         [do 10 (destruct d' as [|d']; [reflexivity|]); exfalso; lia|]).
  exfalso; lia.
Qed.

Lemma threeDigits_compare (n m : nat) :
  n < m -> m < 1000 -> String.compare (threeDigits n) (threeDigits m) = Lt.
Proof.
  intros Hnm Hm. unfold threeDigits. cbn [String.compare].
  assert (Hn : n < 1000) by lia.
  pose proof (Nat.div_mod_eq n 100) as E1. pose proof (Nat.div_mod_eq m 100) as E2.
  pose proof (Nat.div_mod_eq n 10) as E3. pose proof (Nat.div_mod_eq m 10) as E4.
  pose proof (Nat.div_mod_eq (n / 10) 10) as E5.
  pose proof (Nat.div_mod_eq (m / 10) 10) as E6.
  pose proof (Nat.mod_upper_bound n 10) as B1.
  pose proof (Nat.mod_upper_bound m 10) as B2.
  pose proof (Nat.mod_upper_bound (n / 10) 10) as B3.
  pose proof (Nat.mod_upper_bound (m / 10) 10) as B4.
  assert (D1 : n / 100 < 10) by (apply Nat.Div0.div_lt_upper_bound; lia).
  assert (D2 : m / 100 < 10) by (apply Nat.Div0.div_lt_upper_bound; lia).
  assert (Q1 : n / 10 / 10 = n / 100) by (rewrite Nat.Div0.div_div; reflexivity).
  assert (Q2 : m / 10 / 10 = m / 100) by (rewrite Nat.Div0.div_div; reflexivity).
  rewrite !digitChar_compare by lia.
  destruct (Nat.compare_spec (n / 100) (m / 100)) as [Ea|Ea|Ea];
    [|reflexivity|exfalso; lia].
  destruct (Nat.compare_spec (n / 10 mod 10) (m / 10 mod 10)) as [Eb|Eb|Eb];
    [|reflexivity|exfalso; lia].
  destruct (Nat.compare_spec (n mod 10) (m mod 10)) as [Ec|Ec|Ec];
    [exfalso; lia|reflexivity|exfalso; lia].
Qed.

(** The order of two strings is decided by prefixes of the same length
    that differ. *)
Lemma compare_app_Lt (p q e f : string) :
  String.length p = String.length q ->
  String.compare p q = Lt ->
  String.compare (p ++ e) (q ++ f) = Lt.
Proof.
  revert q. induction p as [|a p IH]; intros [|b q]; simpl; try discriminate.
  intros Hl. destruct (Ascii.compare a b); try discriminate; auto.
Qed.

Lemma imageName_threeDigits (i : nat) (imageURL : string) :
  i < 999 ->
  imageName i imageURL = (threeDigits (i + 1) ++ filepath.Ext imageURL)%string.
Proof.
  intros H. unfold imageName, fmt.Sprintf_03d_s.
  rewrite fmt03d_threeDigits by lia. reflexivity.
Qed.

(** *** A file name joined to its directory *)

Lemma strings_Join_snoc (l : list string) (x sep : string) :
  strings.Join (l ++ [x]) sep
  = match l with
    | [] => x
    | _ :: _ => (strings.Join l sep ++ sep ++ x)%string
    end.
Proof.
  induction l as [|a l IH]; [reflexivity|].
  destruct l as [|b l]; [reflexivity|].
  change ((a :: b :: l) ++ [x]) with (a :: ((b :: l) ++ [x])).
  change (strings.Join (a :: (b :: l) ++ [x]) sep)
    with (a ++ sep ++ strings.Join ((b :: l) ++ [x]) sep)%string.
  rewrite IH.
  change (strings.Join (a :: b :: l) sep)
    with (a ++ sep ++ strings.Join (b :: l) sep)%string.
  rewrite !append_assoc. reflexivity.
Qed.

Lemma Ext_no_separator (path : string) :
  strings.Contains (filepath.Ext path) "/" = false.
Proof.
  induction path as [|c path IH]; simpl; [reflexivity|].
  destruct (strings.Contains path "/") eqn:E; simpl; [exact IH|].
  destruct (strings.Contains path "."); [exact IH|].
  destruct (Ascii.eqb c ".") eqn:Ec; [|reflexivity].
  apply Ascii.eqb_eq in Ec. subst c. simpl. exact E.
Qed.

(** A name of three bytes or more, without a separator, is added as it
    is to the cleaned directory. *)
Lemma Join_dir_name (dir rest : string) (x y z : ascii) :
  strings.Contains (String x (String y (String z rest))) "/" = false ->
  filepath.Join [dir; String x (String y (String z rest))]
  = (filepath.dirPrefix dir ++ String x (String y (String z rest)))%string.
Proof.
  set (name := String x (String y (String z rest))). intros Hname.
  assert (Hstep : forall rooted out, filepath.cleanStep rooted out name = name :: out).
  { intros rooted out. unfold filepath.cleanStep, name. simpl.
    destruct (Ascii.eqb x "."); [|reflexivity].
    destruct (Ascii.eqb y "."); reflexivity. }
  assert (Hx : filepath.isSeparator x = false).
  { unfold name in Hname. simpl in Hname. unfold filepath.isSeparator.
    destruct (Ascii.eqb x "/"); [discriminate | reflexivity]. }
  unfold filepath.Join. destruct dir as [|d0 dir].
  - cbn [filepath.dropEmpty filepath.dirPrefix append].
    unfold name at 1. cbn [filepath.dropEmpty]. fold name.
    cbn [strings.Join]. unfold filepath.Clean. unfold name at 1. fold name.
    rewrite Hx, (Split_no_sep name "/" Hname). cbn [fold_left].
    rewrite Hstep. reflexivity.
  - cbn [filepath.dropEmpty strings.Join].
    change (String d0 dir ++ "/" ++ name)%string
      with (String d0 (dir ++ String "/" name)).
    unfold filepath.Clean, filepath.dirPrefix.
    change (String d0 (dir ++ String "/" name))
      with (String d0 dir ++ String "/" name)%string.
    rewrite Split_app_sep, (Split_no_sep name "/" Hname), fold_left_app.
    cbn [fold_left]. rewrite Hstep.
    set (out := fold_left (filepath.cleanStep (filepath.isSeparator d0))
                          (strings.Split (String d0 dir) "/") []).
    cbn [List.rev]. rewrite strings_Join_snoc.
    destruct (filepath.isSeparator d0); destruct out as [|o out];
      cbn [List.rev app]; try reflexivity.
    + destruct (List.rev out ++ [o]) eqn:E;
        [destruct (List.rev out); discriminate|].
      rewrite !append_assoc. reflexivity.
    + destruct (List.rev out ++ [o]) eqn:E;
        [destruct (List.rev out); discriminate|].
      rewrite !append_assoc. reflexivity.
Qed.

(** *** The bytes of a number as [%03g] writes it *)














(** *** A name joined to the elements of its directory *)












(** *** What [TrimSpace] takes from a path *)









(** *** The directory of a scraped chapter *)






Lemma compare_common_prefix (p s t : string) :
  String.compare (p ++ s) (p ++ t) = String.compare s t.
Proof.
  induction p as [|a p IH]; simpl; [reflexivity|].
  assert (Ascii.compare a a = Eq) as ->.
  { unfold Ascii.compare. apply N.compare_refl. }
  exact IH.
Qed.

Lemma imageFilenamesFrom_nth (dirPath : string) (imageURLs : list string)
      (k i : nat) (imageURL : string) :
  nth_error imageURLs i = Some imageURL ->
  nth_error (imageFilenamesFrom dirPath k imageURLs) i
  = Some (imageFilename dirPath (k + i) imageURL).
Proof.
  revert k i. induction imageURLs as [|u us IH]; intros k [|i]; simpl;
    try discriminate.
  - intros H. inversion H. subst. rewrite Nat.add_0_r. reflexivity.
  - intros H. rewrite (IH (S k) i H). f_equal. f_equal. lia.
Qed.

Lemma threeDigits_no_separator (n : nat) :
  n < 1000 -> strings.Contains (threeDigits n) "/" = false.
Proof.
  intros H.
  assert (K : forallb (fun k => negb (strings.Contains (threeDigits k) "/"))
                      (seq 0 1000) = true) by (vm_compute; reflexivity).
  rewrite forallb_forall in K.
  apply negb_true_iff. apply K. apply in_seq. lia.
Qed.

Lemma imageFilename_prefix (dirPath : string) (i : nat) (imageURL : string) :
  i < 999 ->
  imageFilename dirPath i imageURL
  = (filepath.dirPrefix dirPath ++ imageName i imageURL)%string.
Proof.
  intros H. unfold imageFilename.
  rewrite (imageName_threeDigits i imageURL H).
  assert (Hc : strings.Contains (threeDigits (i + 1) ++ filepath.Ext imageURL) "/" = false).
  { rewrite Contains_app, threeDigits_no_separator, Ext_no_separator by lia.
    reflexivity. }
  revert Hc. unfold threeDigits. cbn [append]. apply Join_dir_name.
Qed.

(** *** What [filepath.Ext] returns *)

Lemma Ext_no_dot (path : string) :
  strings.Contains path "." = false -> filepath.Ext path = EmptyString.
Proof.
  induction path as [|c path IH]; simpl; [reflexivity|].
  destruct (Ascii.eqb c ".") eqn:E; [discriminate|]. intros H.
  rewrite H, orb_false_r. destruct (strings.Contains path "/"); [exact (IH H) | reflexivity].
Qed.

Lemma Ext_dot (stem e : string) :
  strings.Contains e "." = false ->
  strings.Contains e "/" = false ->
  filepath.Ext (stem ++ "." ++ e) = ("." ++ e)%string.
Proof.
  intros Hd Hs. induction stem as [|c stem IH].
  - simpl. rewrite Hd, Hs. reflexivity.
  - cbn [append filepath.Ext] in *.
    assert (K : strings.Contains (stem ++ String "." e) "." = true).
    { rewrite Contains_app. simpl. apply orb_true_r. }
    rewrite K, orb_true_r. exact IH.
Qed.

(** The extension is that of the last element. *)
Lemma Ext_last_element (front file : string) :
  strings.Contains file "/" = false ->
  filepath.Ext (front ++ "/" ++ file) = filepath.Ext file.
Proof.
  intros Hs. induction front as [|c front IH].
  - simpl. rewrite Hs. cbn [orb].
    destruct (strings.Contains file ".") eqn:E; [reflexivity|].
    symmetry. apply Ext_no_dot, E.
  - cbn [append filepath.Ext] in *.
    assert (K : strings.Contains (front ++ String "/" file) "/" = true).
    { rewrite Contains_app. simpl. apply orb_true_r. }
    rewrite K. exact IH.
Qed.

(** After a path that has a separator, what came before does not
    count. *)
Lemma Ext_after (front path : string) :
  strings.Contains path "/" = true ->
  filepath.Ext (front ++ path) = filepath.Ext path.
Proof.
  intros Hs. induction front as [|c front IH]; [reflexivity|].
  cbn [append filepath.Ext].
  rewrite Contains_app, Hs, orb_true_r. exact IH.
Qed.

(** *** The path of a URL without query and fragment *)

Lemma afterScheme_suffix (url rest : string) :
  afterScheme url = Some rest -> exists front, url = (front ++ rest)%string.
Proof.
  induction url as [|c url IH]; simpl; [discriminate|].
  assert (K : afterScheme url = Some rest ->
              exists front, String c url = (front ++ rest)%string).
  { intros H. destruct (IH H) as [front ->]. exists (String c front). reflexivity. }
  destruct url as [|c1 [|c2 rest']]; try exact K.
  destruct (Ascii.eqb c ":" && Ascii.eqb c1 "/" && Ascii.eqb c2 "/"); [|exact K].
  intros H. inversion H. subst. exists (String c (String c1 (String c2 ""))). reflexivity.
Qed.

Lemma beforeQuery_none (s : string) :
  strings.Contains s "?" = false -> strings.Contains s "#" = false ->
  beforeQuery s = s.
Proof.
  induction s as [|c s IH]; simpl; [reflexivity|].
  destruct (Ascii.eqb c "?"); [discriminate|].
  destruct (Ascii.eqb c "#"); [discriminate|].
  intros H1 H2. rewrite (IH H1 H2). reflexivity.
Qed.

Lemma fromSlash_suffix (s : string) :
  (exists front, s = (front ++ fromSlash s)%string)
  /\ (fromSlash s = EmptyString \/ strings.Contains (fromSlash s) "/" = true).
Proof.
  induction s as [|c s [[front IH1] IH2]]; simpl.
  - split; [exists EmptyString; reflexivity | left; reflexivity].
  - destruct (Ascii.eqb c "/") eqn:E.
    + split; [exists EmptyString; reflexivity|]. right. simpl. rewrite E. reflexivity.
    + split; [|exact IH2]. exists (String c front). simpl. rewrite <- IH1. reflexivity.
Qed.

(** For a URL without query and fragment that has a path, [filepath.Ext]
    of the URL is the extension of its path. *)
Lemma Ext_urlPath (url : string) :
  strings.Contains url "?" = false ->
  strings.Contains url "#" = false ->
  urlPath url <> EmptyString ->
  filepath.Ext url = urlPathExtension url.
Proof.
  intros Hq Hf. unfold urlPathExtension, urlPath.
  rewrite (beforeQuery_none _ Hq Hf).
  destruct (afterScheme url) as [rest|] eqn:E; [|reflexivity].
  destruct (afterScheme_suffix _ _ E) as [front Hu].
  destruct (fromSlash_suffix rest) as [[front' Hr] [K|K]]; [congruence|].
  intros _. rewrite Hu at 1. rewrite Hr at 1.
  rewrite <- append_assoc. apply Ext_after, K.
Qed.

(** The names of the images, as the code has them: in a chapter of at
    most 999 images, the file of the image at position [i + 1] (index
    [i] of the URL list) is written to the chapter directory joined with
    a name that is [i + 1] as three decimal digits followed by the
    extension that [filepath.Ext] finds in the URL taken as it is: where
    [file] is what follows the last slash of the URL, or the URL when it
    has no slash, nothing when [file] has no dot, and otherwise the last
    dot of [file] with what follows it.  For a URL without query and
    fragment that has a path, this is the extension of the path of the
    URL.  Of two images the earlier has the name, and the path, that is
    first in the byte order of strings. *)
Theorem image_names_padded_and_ordered (dirPath : string) (chapter : Chapter) :
  length (ImageURLs chapter) <= 999 ->
  (forall i imageURL,
      nth_error (ImageURLs chapter) i = Some imageURL ->
      nth_error (imageFilenames dirPath chapter) i
      = Some (filepath.Join [dirPath; imageName i imageURL])
      /\ (forall front file,
             imageURL = file \/ imageURL = (front ++ "/" ++ file)%string ->
             strings.Contains file "/" = false ->
             (strings.Contains file "." = false ->
              imageName i imageURL = threeDigits (i + 1))
             /\ (forall stem e,
                    file = (stem ++ "." ++ e)%string ->
                    strings.Contains e "." = false ->
                    imageName i imageURL = (threeDigits (i + 1) ++ "." ++ e)%string))
      /\ (strings.Contains imageURL "?" = false ->
          strings.Contains imageURL "#" = false ->
          urlPath imageURL <> EmptyString ->
          imageName i imageURL
          = (threeDigits (i + 1) ++ urlPathExtension imageURL)%string))
  /\ (forall i j u v,
        i < j ->
        nth_error (ImageURLs chapter) i = Some u ->
        nth_error (ImageURLs chapter) j = Some v ->
        String.ltb (imageName i u) (imageName j v) = true
        /\ String.ltb (imageFilename dirPath i u) (imageFilename dirPath j v) = true).
Proof.
  intros Hlen. split.
  - intros i imageURL Hi.
    assert (i < length (ImageURLs chapter)) by (apply nth_error_Some; congruence).
    split; [|split].
    + unfold imageFilenames. rewrite (imageFilenamesFrom_nth _ _ 0 i _ Hi).
      reflexivity.
    + intros front file Hu Hs.
      assert (Hx : filepath.Ext imageURL = filepath.Ext file)
        by (destruct Hu as [->| ->]; [reflexivity | apply Ext_last_element, Hs]).
      rewrite imageName_threeDigits, Hx by lia.
      split.
      * intros Hd. rewrite Ext_no_dot by exact Hd. apply append_nil_r.
      * intros stem e He Hd. rewrite He, Ext_dot; [reflexivity | exact Hd |].
        rewrite He, !Contains_app in Hs. apply orb_false_iff in Hs.
        destruct Hs as [_ Hs]. apply orb_false_iff in Hs. tauto.
    + intros Hq Hf Hp. rewrite imageName_threeDigits, Ext_urlPath by (lia || assumption).
      reflexivity.
  - intros i j u v Hij Hi Hj.
    assert (j < length (ImageURLs chapter)) by (apply nth_error_Some; congruence).
    assert (Hlt : String.compare (imageName i u) (imageName j v) = Lt).
    { rewrite !imageName_threeDigits by lia.
      apply compare_app_Lt; [reflexivity|].
      apply threeDigits_compare; lia. }
    unfold String.ltb. rewrite !imageFilename_prefix by lia.
    rewrite compare_common_prefix, Hlt. auto.
Qed.

(** The bound of 999 images is needed for the order: the file of the
    image at position 1000 has a name of four digits, and in the byte
    order of strings its name and its path come before those of the
    images at the positions 101 to 999. *)
Theorem thousandth_image_is_out_of_order (dirPath : string) (i : nat) (u v : string) :
  100 <= i < 999 ->
  imageName 999 u = ("1000" ++ filepath.Ext u)%string
  /\ String.ltb (imageName 999 u) (imageName i v) = true
  /\ String.ltb (imageFilename dirPath 999 u) (imageFilename dirPath i v) = true.
Proof.
  intros Hi.
  assert (Hname : imageName 999 u = ("1000" ++ filepath.Ext u)%string).
  { unfold imageName, fmt.Sprintf_03d_s.
    replace (fmt.fmt03d (Z.of_nat (999 + 1))) with "1000" by (vm_compute; reflexivity).
    reflexivity. }
  assert (Hlt : String.compare (imageName 999 u) (imageName i v) = Lt).
  { rewrite Hname, (imageName_threeDigits i v) by lia.
    change ("1000" ++ filepath.Ext u)%string
      with (threeDigits 100 ++ String "0" (filepath.Ext u))%string.
    apply compare_app_Lt; [reflexivity|].
    apply threeDigits_compare; lia. }
  split; [exact Hname|]. unfold String.ltb. rewrite Hlt. split; [reflexivity|].
  rewrite (imageFilename_prefix dirPath i v) by lia.
  unfold imageFilename at 1. rewrite Hname.
  assert (Hc : strings.Contains ("1000" ++ filepath.Ext u) "/" = false).
  { rewrite Contains_app, Ext_no_separator. reflexivity. }
  cbn [append] in Hc |- *. rewrite (Join_dir_name dirPath _ _ _ _ Hc).
  rewrite compare_common_prefix.
  rewrite Hname in Hlt. cbn [append] in Hlt. rewrite Hlt. reflexivity.
Qed.

(** ** The coordinator and its workers *)

Module BatchProperties.

Import Batch.

Local Open Scope Z_scope.

Lemma held_nonneg (ch : chapterPC) : 0 <= held ch.
Proof. destruct ch; cbn [held]; lia. Qed.

Lemma heldAll_nonneg (chs : list chapterPC) : 0 <= heldAll chs.
Proof.
  induction chs as [|ch chs IH]; cbn [heldAll]; [lia|].
  pose proof (held_nonneg ch). lia.
Qed.

Lemma heldAll_app (chs chs' : list chapterPC) :
  heldAll (chs ++ chs') = heldAll chs + heldAll chs'.
Proof.
  induction chs as [|ch chs IH]; cbn [heldAll app]; [reflexivity|].
  rewrite IH. lia.
Qed.

Lemma heldAll_setNth (chs : list chapterPC) (i : nat) (ch ch' : chapterPC) :
  nth_error chs i = Some ch ->
  heldAll (setNth chs i ch') = heldAll chs - held ch + held ch'.
Proof.
  revert i. induction chs as [|x chs IH]; intros [|i];
    cbn [nth_error setNth heldAll]; try discriminate.
  - intros H. inversion H. subst. lia.
  - intros H. rewrite (IH i H). lia.
Qed.

Lemma length_setNth {A : Type} (l : list A) (i : nat) (a : A) :
  length (setNth l i a) = length l.
Proof.
  revert i. induction l as [|x l IH]; intros [|i]; simpl; auto.
Qed.

Lemma heldAll_zero (chs : list chapterPC) :
  heldAll chs = 0 -> Forall (fun ch => ch = ChDone) chs.
Proof.
  induction chs as [|ch chs IH]; cbn [heldAll]; intros H; [constructor|].
  pose proof (held_nonneg ch). pose proof (heldAll_nonneg chs).
  constructor; [|apply IH; lia].
  destruct ch; cbn [held] in *; try reflexivity; lia.
Qed.

Lemma batch_invariant_init (selected : nat) : invariant selected (init selected).
Proof.
  unfold invariant, counted, started, init.
  cbn [coord wg chapters workers heldCoord heldAll length].
  repeat split; try lia; discriminate.
Qed.

Ltac batch_norm :=
  cbn [coord wg chapters workers exited heldCoord heldAll held] in *;
  try rewrite heldAll_app; try rewrite length_app;
  try rewrite length_setNth;
  try (erewrite heldAll_setNth by eassumption);
  cbn [heldAll held length] in *.

Lemma heldAll_nth (chs : list chapterPC) (i : nat) (ch : chapterPC) :
  nth_error chs i = Some ch -> held ch <= heldAll chs.
Proof.
  revert i. induction chs as [|x chs IH]; intros [|i];
    cbn [nth_error heldAll]; try discriminate.
  - intros H. inversion H. subst. pose proof (heldAll_nonneg chs). lia.
  - intros H. pose proof (IH i H). pose proof (held_nonneg x). lia.
Qed.

Lemma batch_invariant_step (selected : nat) (s s' : state) :
  invariant selected s -> step s s' -> invariant selected s'.
Proof.
  unfold invariant, counted, started.
  intros (Hc & Hs & Hr) Hstep.
  destruct Hstep;
    try match goal with
        | H : nth_error _ _ = Some _ |- _ =>
            pose proof (heldAll_nth _ _ _ H)
        end;
    batch_norm;
    (split; [lia | split; [try lia; try assumption |]]);
    try discriminate;
    intros Hco; try reflexivity; specialize (Hr Hco);
    pose proof (heldAll_nonneg chs); subst; cbn [heldCoord] in *; lia.
Qed.

Lemma batch_reachable_invariant (selected : nat) (s : state) :
  reachable selected s -> invariant selected s.
Proof.
  induction 1 as [|s s' _ IH Hstep];
    [apply batch_invariant_init | exact (batch_invariant_step selected s s' IH Hstep)].
Qed.

(** C9: in every execution, when the coordinator has returned from
    [p.Wait()] the goroutine of every selected chapter has been started
    and has returned, and no image worker is still running. *)
Theorem coordinator_returns_after_all_workers (selected : nat) (s : state) :
  reachable selected s ->
  coord s = CoReturned ->
  workers s = 0%nat
  /\ length (chapters s) = selected
  /\ Forall (fun ch => ch = ChDone) (chapters s).
Proof.
  intros Hreach Hco.
  destruct (batch_reachable_invariant selected s Hreach) as (Hc & Hs & Hr).
  unfold counted, started in *. rewrite Hco in *. specialize (Hr eq_refl).
  simpl in *. pose proof (heldAll_nonneg (chapters s)).
  repeat split; [lia | assumption | apply heldAll_zero; lia].
Qed.

(** The shared wait group is used as [sync.WaitGroup] asks: its counter
    is never negative, and whenever the goroutine of a chapter is about
    to call [wg.Add(1)] for an image the counter is at least one, the
    goroutine not having called its own [wg.Done()] yet, so that
    [p.Wait()] cannot have found it at zero before. *)
Theorem counter_positive_at_add (selected : nat) (s : state) :
  reachable selected s ->
  0 <= wg s
  /\ (forall i n, nth_error (chapters s) i = Some (ChLoop (S n)) -> 1 <= wg s).
Proof.
  intros Hreach.
  destruct (batch_reachable_invariant selected s Hreach) as (Hc & Hs & Hr).
  unfold counted in Hc.
  pose proof (heldAll_nonneg (chapters s)) as Hh.
  assert (Hco : 0 <= heldCoord (coord s)) by (destruct (coord s); simpl; lia).
  split; [lia|].
  intros i n Hi. pose proof (heldAll_nth _ _ _ Hi) as Hle.
  cbn [held] in Hle. lia.
Qed.

End BatchProperties.

(** ** The coordinator with a wait group per chapter *)

Module NestedProperties.

Import Nested.

Local Open Scope Z_scope.

Lemma nested_held_nonneg (ch : chapterG) : 0 <= held ch.
Proof. unfold held. destruct (cpc ch); lia. Qed.

Lemma nested_heldAll_nonneg (chs : list chapterG) : 0 <= heldAll chs.
Proof.
  induction chs as [|ch chs IH]; cbn [heldAll]; [lia|].
  pose proof (nested_held_nonneg ch). lia.
Qed.

Lemma nested_heldAll_app (chs chs' : list chapterG) :
  heldAll (chs ++ chs') = heldAll chs + heldAll chs'.
Proof.
  induction chs as [|ch chs IH]; cbn [heldAll app]; [reflexivity|].
  rewrite IH. lia.
Qed.

Lemma nested_heldAll_setNth (chs : list chapterG) (i : nat) (ch ch' : chapterG) :
  nth_error chs i = Some ch ->
  heldAll (Batch.setNth chs i ch') = heldAll chs - held ch + held ch'.
Proof.
  revert i. induction chs as [|x chs IH]; intros [|i];
    cbn [nth_error Batch.setNth heldAll]; try discriminate.
  - intros H. inversion H. subst. lia.
  - intros H. rewrite (IH i H). lia.
Qed.

Lemma nested_heldAll_nth (chs : list chapterG) (i : nat) (ch : chapterG) :
  nth_error chs i = Some ch -> held ch <= heldAll chs.
Proof.
  revert i. induction chs as [|x chs IH]; intros [|i];
    cbn [nth_error heldAll]; try discriminate.
  - intros H. inversion H. subst. pose proof (nested_heldAll_nonneg chs). lia.
  - intros H. pose proof (IH i H). pose proof (nested_held_nonneg x). lia.
Qed.

Lemma nested_heldAll_zero (chs : list chapterG) :
  heldAll chs = 0 -> Forall (fun ch => cpc ch = ChDone) chs.
Proof.
  induction chs as [|ch chs IH]; cbn [heldAll]; intros H; [constructor|].
  pose proof (nested_held_nonneg ch). pose proof (nested_heldAll_nonneg chs).
  constructor; [|apply IH; lia].
  unfold held in *. destruct (cpc ch); try reflexivity; lia.
Qed.

Lemma Forall_setNth {A : Type} (P : A -> Prop) (l : list A) (i : nat) (a : A) :
  Forall P l -> P a -> Forall P (Batch.setNth l i a).
Proof.
  intros Hl Ha. revert i.
  induction Hl as [|x l Hx Hl IH]; intros [|i]; cbn [Batch.setNth];
    constructor; auto.
Qed.

Lemma Forall_nth_error {A : Type} (P : A -> Prop) (l : list A) (i : nat) (a : A) :
  Forall P l -> nth_error l i = Some a -> P a.
Proof.
  intros Hl Hi. rewrite Forall_forall in Hl.
  apply Hl. exact (nth_error_In l i Hi).
Qed.

Lemma nested_length_setNth {A : Type} (l : list A) (i : nat) (a : A) :
  length (Batch.setNth l i a) = length l.
Proof.
  revert i. induction l as [|x l IH]; intros [|i]; simpl; auto.
Qed.

Lemma nested_invariant_init (selected : nat) : invariant selected (init selected).
Proof.
  unfold invariant, started, init.
  cbn [coord outer chapters heldCoord heldAll length].
  repeat split; try lia; try discriminate. constructor.
Qed.

Lemma nested_invariant_step (selected : nat) (s s' : state) :
  invariant selected s -> step s s' -> invariant selected s'.
Proof.
  unfold invariant, started.
  intros (Hc & Hf & Hs & Hr) Hstep.
  destruct Hstep;
    try match goal with
        | H : nth_error _ _ = Some _ |- _ =>
            pose proof (nested_heldAll_nth _ _ _ H);
            pose proof (Forall_nth_error _ _ _ _ Hf H) as Hok;
            unfold chapterOk in Hok; cbn [cpc inner cworkers] in Hok
        end;
    cbn [coord outer chapters exited heldCoord] in *;
    try rewrite nested_heldAll_app; try rewrite length_app;
    try rewrite nested_length_setNth;
    try (erewrite nested_heldAll_setNth by eassumption);
    cbn [heldAll length] in *; unfold held in *;
    cbn [cpc inner cworkers] in *;
    pose proof (nested_heldAll_nonneg chs);
    (split; [try lia | split; [| split; [try lia; try assumption |]]]);
    try assumption;
    try (apply Forall_setNth; [assumption|];
         unfold chapterOk; cbn [cpc inner cworkers]; try destruct p; lia);
    try (apply Forall_app; split; [assumption|]; constructor; [|constructor];
         unfold chapterOk; cbn [cpc inner cworkers]; lia);
    try discriminate;
    try (intros Hco; try reflexivity; specialize (Hr Hco);
         subst; cbn [heldCoord] in *; lia).
Qed.

Lemma nested_reachable_invariant (selected : nat) (s : state) :
  reachable selected s -> invariant selected s.
Proof.
  induction 1 as [|s s' _ IH Hstep];
    [apply nested_invariant_init
    | exact (nested_invariant_step selected s s' IH Hstep)].
Qed.

(** With a wait group per chapter as well: when the coordinator has
    returned, the goroutine of every selected chapter has been started
    and has returned, and none of its image workers is running. *)
Theorem coordinator_returns_after_all_chapters (selected : nat) (s : state) :
  reachable selected s ->
  coord s = CoReturned ->
  length (chapters s) = selected
  /\ Forall (fun ch => cpc ch = ChDone /\ cworkers ch = 0%nat) (chapters s).
Proof.
  intros Hreach Hco.
  destruct (nested_reachable_invariant selected s Hreach) as (Hc & Hf & Hs & Hr).
  unfold started in *. rewrite Hco in *. specialize (Hr eq_refl).
  cbn [heldCoord] in *. split; [assumption|].
  assert (Hd : Forall (fun ch => cpc ch = ChDone) (chapters s))
    by (apply nested_heldAll_zero; lia).
  rewrite Forall_forall in *. intros ch Hin.
  specialize (Hd ch Hin). specialize (Hf ch Hin).
  unfold chapterOk in Hf. rewrite Hd in Hf. tauto.
Qed.

End NestedProperties.

(** ** The archive of a chapter *)

Lemma lookup_remove {V : Type} (l : list (string * V)) (k : string) :
  lookup (remove l k) k = None.
Proof.
  induction l as [|[k' v] l IH]; simpl; [reflexivity|].
  destruct (String.eqb k' k) eqn:E; [exact IH|]. simpl. rewrite E. exact IH.
Qed.


Lemma createCbzArchive_dirs (ft : faults) (fs : fileSystem) (sourceDir cbzFilename : string) :
  dirs (fst (createCbzArchive ft fs sourceDir cbzFilename)) = dirs fs.
Proof.
  unfold createCbzArchive.
  destruct (failCreate ft cbzFilename); [reflexivity|].
  destruct (lookupDir fs sourceDir) as [names|]; [|reflexivity].
  destruct (failWalk ft sourceDir); [reflexivity|].
  destruct (walkFiles ft _ sourceDir names) as [w err]. reflexivity.
Qed.




(** *** What [createCbzArchive] leaves on disk *)

Lemma walkFiles_no_fault (ft : faults) (w : zip.Writer) (sourceDir : string)
      (names : list string) :
  Forall (fun name =>
            failOpen ft (filepath.Join [sourceDir; name]) = false
            /\ failZipCreate ft name = false
            /\ failCopy ft (filepath.Join [sourceDir; name]) = false) names ->
  walkFiles ft w sourceDir names
  = (zip.mkWriter (zip.given w ++ map (fun name => mkEntry name true) names)
                  (zip.broken w),
     None).
Proof.
  intros H. revert w. induction H as [|n names (H1 & H2 & H3) _ IH]; intros w; simpl.
  - rewrite app_nil_r. destruct w. reflexivity.
  - unfold addFileToZip. rewrite H1, H2, H3, IH. simpl.
    rewrite <- app_assoc. reflexivity.
Qed.

(** A walk that returns an error has given the writer the files before
    the one that failed, whole, and of that one nothing, or an entry
    that is not whole when its copy failed. *)
Lemma walkFiles_fault (ft : faults) (w w' : zip.Writer) (sourceDir : string)
      (names : list string) (e : ioError) :
  walkFiles ft w sourceDir names = (w', Some e) ->
  exists pre name post,
    names = pre ++ name :: post
    /\ Forall (fun name =>
                 failOpen ft (filepath.Join [sourceDir; name]) = false
                 /\ failZipCreate ft name = false
                 /\ failCopy ft (filepath.Join [sourceDir; name]) = false) pre
    /\ ((e = EOpen
         /\ failOpen ft (filepath.Join [sourceDir; name]) = true
         /\ w' = zip.mkWriter (zip.given w ++ map (fun name => mkEntry name true) pre)
                              (zip.broken w))
        \/ (e = EZipCreate
            /\ failOpen ft (filepath.Join [sourceDir; name]) = false
            /\ failZipCreate ft name = true
            /\ w' = zip.mkWriter (zip.given w ++ map (fun name => mkEntry name true) pre)
                                 true)
        \/ (e = ECopy
            /\ failOpen ft (filepath.Join [sourceDir; name]) = false
            /\ failZipCreate ft name = false
            /\ failCopy ft (filepath.Join [sourceDir; name]) = true
            /\ w' = zip.mkWriter
                      (zip.given w ++ map (fun name => mkEntry name true) pre
                       ++ [mkEntry name false])
                      (zip.broken w))).
Proof.
  revert w. induction names as [|n names IH]; intros w; simpl; [discriminate|].
  unfold addFileToZip.
  destruct (failOpen ft _) eqn:E1.
  { intros H. inversion H. subst. exists [], n, names.
    split; [reflexivity|]. split; [constructor|]. left.
    simpl. rewrite app_nil_r. destruct w'. auto. }
  destruct (failZipCreate ft n) eqn:E2.
  { intros H. inversion H. subst. exists [], n, names.
    split; [reflexivity|]. split; [constructor|]. right. left.
    simpl. rewrite app_nil_r. auto. }
  destruct (failCopy ft _) eqn:E3.
  { intros H. inversion H. subst. exists [], n, names.
    split; [reflexivity|]. split; [constructor|]. right. right.
    simpl. auto. }
  intros H. destruct (IH _ H) as (pre & name & post & Hn & Hpre & Hcase).
  exists (n :: pre), name, post. split; [rewrite Hn; reflexivity|].
  split; [constructor; auto|].
  cbn [zip.given zip.broken map] in *. rewrite <- !app_assoc in Hcase.
  exact Hcase.
Qed.

Lemma lookup_remove_other {V : Type} (l : list (string * V)) (k q : string) :
  String.eqb k q = false -> lookup (remove l k) q = lookup l q.
Proof.
  intros H. induction l as [|[k' v] l IH]; simpl; [reflexivity|].
  destruct (String.eqb k' k) eqn:E.
  - apply String.eqb_eq in E. subst k'. rewrite H. exact IH.
  - simpl. rewrite IH. reflexivity.
Qed.

Lemma lookupArchive_setArchive (fs : fileSystem) (path : string) (z : zipFile) :
  lookupArchive (setArchive fs path z) path = Some z.
Proof.
  unfold lookupArchive, setArchive. simpl. rewrite String.eqb_refl. reflexivity.
Qed.

Lemma lookupArchive_setArchive_other (fs : fileSystem) (path q : string) (z : zipFile) :
  String.eqb path q = false ->
  lookupArchive (setArchive fs path z) q = lookupArchive fs q.
Proof.
  intros H. unfold lookupArchive, setArchive. simpl. rewrite H.
  apply lookup_remove_other, H.
Qed.

Lemma createCbzArchive_no_fault (ft : faults) (fs : fileSystem)
      (sourceDir cbzFilename : string) (names : list string) :
  lookupDir fs sourceDir = Some names ->
  failCreate ft cbzFilename = false ->
  failWalk ft sourceDir = false ->
  Forall (fun name =>
            failOpen ft (filepath.Join [sourceDir; name]) = false
            /\ failZipCreate ft name = false
            /\ failCopy ft (filepath.Join [sourceDir; name]) = false) names ->
  createCbzArchive ft fs sourceDir cbzFilename
  = (setArchive fs cbzFilename
       (if failZipClose ft then mkZip [] false
        else mkZip (map (fun name => mkEntry name true) names) true),
     None).
Proof.
  intros Hn Hc Hw Hf. unfold createCbzArchive.
  rewrite Hc, Hn, Hw, (walkFiles_no_fault ft _ sourceDir names Hf). simpl.
  unfold zip.Close. simpl. rewrite orb_false_r. reflexivity.
Qed.

(** When no call fails, [createCbzArchive] returns no error and leaves
    at [cbzFilename] a finished archive with one whole entry for every
    file of the directory, under the name of the file and in the order
    of the walk, whatever was at [cbzFilename] before; the directories
    and the other archives are as they were. *)
Theorem archive_holds_every_file (ft : faults) (fs : fileSystem)
        (sourceDir cbzFilename : string) (names : list string) :
  lookupDir fs sourceDir = Some names ->
  failCreate ft cbzFilename = false ->
  failWalk ft sourceDir = false ->
  Forall (fun name =>
            failOpen ft (filepath.Join [sourceDir; name]) = false
            /\ failZipCreate ft name = false
            /\ failCopy ft (filepath.Join [sourceDir; name]) = false) names ->
  failZipClose ft = false ->
  exists fs',
    createCbzArchive ft fs sourceDir cbzFilename = (fs', None)
    /\ lookupArchive fs' cbzFilename
       = Some (mkZip (map (fun name => mkEntry name true) names) true)
    /\ dirs fs' = dirs fs
    /\ (forall q, String.eqb cbzFilename q = false ->
                  lookupArchive fs' q = lookupArchive fs q).
Proof.
  intros Hn Hc Hw Hf Hz.
  rewrite (createCbzArchive_no_fault ft fs sourceDir cbzFilename names Hn Hc Hw Hf), Hz.
  eexists. split; [reflexivity|]. split; [|split].
  - apply lookupArchive_setArchive.
  - reflexivity.
  - intros q Hq. apply lookupArchive_setArchive_other, Hq.
Qed.

(** An error of [zipWriter.Close] is printed and not returned: when
    that call alone fails, the end of [downloadImages] returns no error
    and removes the chapter directory with the images, while the file
    it leaves at the place of the archive is no archive: what the writer
    was given never became entries of it. *)
Theorem close_error_still_deletes_directory
        (ft : faults) (fs : fileSystem) (loc : string) (manga : Manga)
        (chapter : Chapter) (names : list string) :
  lookupDir fs (chapterDirPath loc manga chapter) = Some names ->
  failCreate ft (cbzFilename loc manga chapter) = false ->
  failWalk ft (chapterDirPath loc manga chapter) = false ->
  Forall (fun name =>
            failOpen ft (filepath.Join [chapterDirPath loc manga chapter; name]) = false
            /\ failZipCreate ft name = false
            /\ failCopy ft (filepath.Join [chapterDirPath loc manga chapter; name]) = false)
         names ->
  failRemoveAll ft (chapterDirPath loc manga chapter) = false ->
  failZipClose ft = true ->
  exists fs',
    archiveChapter ft fs true loc manga chapter = (fs', None)
    /\ lookupDir fs' (chapterDirPath loc manga chapter) = None
    /\ lookupArchive fs' (cbzFilename loc manga chapter) = Some (mkZip [] false)
    /\ (forall z, lookupArchive fs' (cbzFilename loc manga chapter) = Some z ->
                  ~ archiveComplete names z).
Proof.
  intros Hn Hc Hw Hf Hr Hz. unfold archiveChapter.
  rewrite (createCbzArchive_no_fault ft fs _ _ names Hn Hc Hw Hf), Hr, Hz.
  eexists. split; [reflexivity|].
  assert (Ha : lookupArchive
                 (removeDir (setArchive fs (cbzFilename loc manga chapter) (mkZip [] false))
                            (chapterDirPath loc manga chapter))
                 (cbzFilename loc manga chapter) = Some (mkZip [] false))
    by (unfold removeDir; apply lookupArchive_setArchive).
  split; [|split].
  - unfold lookupDir, removeDir. simpl. apply lookup_remove.
  - exact Ha.
  - intros z Hz'. rewrite Ha in Hz'. inversion Hz'. subst z.
    intros [_ K]. discriminate.
Qed.

(** A failed [createCbzArchive] is not undone.  When the file cannot be
    created nothing has changed.  After any other error the file at
    [cbzFilename] is new, what was there before being gone, and the
    directories and the other archives are as they were.  The error is
    that of the walk, with no file given to the writer, or that of the
    first file [name] that could not be added, the files [pre] before it
    having been given whole.  When the error is that of
    [zipWriter.Create], or when [zipWriter.Close] fails as well, a
    reader finds no archive in the file.  Otherwise the file is a
    finished archive: without entries after an error of the walk, and
    else with a whole entry for each file of [pre], in the order of the
    walk, and after them, when it was the copy that failed, an entry of
    [name] that is not whole; it has no entry of a later file. *)
Theorem failed_archive_is_partial (ft : faults) (fs fs' : fileSystem)
        (sourceDir cbzFilename : string) (names : list string) (e : ioError) :
  lookupDir fs sourceDir = Some names ->
  createCbzArchive ft fs sourceDir cbzFilename = (fs', Some e) ->
  dirs fs' = dirs fs
  /\ (forall q, String.eqb cbzFilename q = false ->
                lookupArchive fs' q = lookupArchive fs q)
  /\ (failCreate ft cbzFilename = true -> e = ECreate /\ fs' = fs)
  /\ (failCreate ft cbzFilename = false ->
      exists z,
        lookupArchive fs' cbzFilename = Some z
        /\ ((e = EWalk
             /\ failWalk ft sourceDir = true
             /\ z = (if failZipClose ft then mkZip [] false else mkZip [] true))
            \/ exists pre name post,
                names = pre ++ name :: post
                /\ Forall (fun name =>
                             failOpen ft (filepath.Join [sourceDir; name]) = false
                             /\ failZipCreate ft name = false
                             /\ failCopy ft (filepath.Join [sourceDir; name]) = false) pre
                /\ ((e = EOpen
                     /\ failOpen ft (filepath.Join [sourceDir; name]) = true
                     /\ z = (if failZipClose ft then mkZip [] false
                             else mkZip (map (fun name => mkEntry name true) pre) true))
                    \/ (e = EZipCreate
                        /\ failOpen ft (filepath.Join [sourceDir; name]) = false
                        /\ failZipCreate ft name = true
                        /\ z = mkZip [] false)
                    \/ (e = ECopy
                        /\ failOpen ft (filepath.Join [sourceDir; name]) = false
                        /\ failZipCreate ft name = false
                        /\ failCopy ft (filepath.Join [sourceDir; name]) = true
                        /\ z = (if failZipClose ft then mkZip [] false
                                else mkZip (map (fun name => mkEntry name true) pre
                                            ++ [mkEntry name false]) true))))).
Proof.
  intros Hn H.
  pose proof (createCbzArchive_dirs ft fs sourceDir cbzFilename) as Hd.
  rewrite H in Hd. simpl in Hd. split; [exact Hd|].
  unfold createCbzArchive in H. rewrite Hn in H.
  destruct (failCreate ft cbzFilename).
  - inversion H. subst. split; [reflexivity|]. split; [auto | discriminate].
  - assert (Hq : forall z q, String.eqb cbzFilename q = false ->
                             lookupArchive (setArchive fs cbzFilename z) q
                             = lookupArchive fs q)
      by (intros z q; apply lookupArchive_setArchive_other).
    destruct (failWalk ft sourceDir) eqn:Ew.
    + inversion H. subst. split; [apply Hq|]. split; [discriminate|]. intros _.
      eexists. rewrite lookupArchive_setArchive. split; [reflexivity|]. left.
      unfold zip.Close. simpl. rewrite orb_false_r. auto.
    + destruct (walkFiles ft zip.NewWriter sourceDir names) as [w err] eqn:E.
      inversion H. subst. clear H.
      split; [apply Hq|]. split; [discriminate|]. intros _.
      destruct (walkFiles_fault _ _ _ _ _ _ E) as (pre & name & post & Hp & Hpre & Hcase).
      eexists. rewrite lookupArchive_setArchive. split; [reflexivity|]. right.
      exists pre, name, post. split; [exact Hp|]. split; [exact Hpre|].
      unfold zip.Close.
      destruct Hcase as [(He & H1 & Hw)|[(He & H1 & H2 & Hw)|(He & H1 & H2 & H3 & Hw)]];
        subst w; simpl; rewrite ?orb_false_r, ?orb_true_r; auto 10.
Qed.

(** *** The name of the archive *)



(** ** The workers of a chapter and its archive *)

Module DownloadProperties.

Import Download.



Section Run.

Variable ft : faults.
Variable createCbz : bool.
Variable loc : string.
Variable manga : Manga.
Variable chapter : Chapter.

Local Abbreviation dirPath := (dirPath loc manga chapter).
Local Abbreviation step := (step ft createCbz loc manga chapter).
Local Abbreviation reachable := (reachable ft createCbz loc manga chapter).
Local Abbreviation progress := (progress loc manga chapter).
Local Abbreviation invariant := (invariant ft createCbz loc manga chapter).
Local Abbreviation allImagesIn := (allImagesIn chapter).


Lemma progress_exited (pre : list string) (p : pcT) (c : Z)
      (run : list (nat * string)) (f : fileSystem) (x y : bool) :
  progress pre (mkState p c run f x) -> progress pre (mkState p c run f y).
Proof. intros H. exact H. Qed.






End Run.

End DownloadProperties.

(** * Examples *)

(** ** The selection parser on concrete inputs *)

(** The end-to-end scenario of the specification. *)
Example selection_scenario :
  parseChapterSelection strconv.ParseFloat "1-2,3" available
  = Ok (map mustParse ["1"; "2"; "3"])
  /\ parseChapterSelection strconv.ParseFloat "2.5" available
     = Ok [mustParse "2.5"]
  /\ parseChapterSelection strconv.ParseFloat "5" available
     = Ok [mustParse "5"]
  /\ parseChapterSelection strconv.ParseFloat "3,1,2" available
     = parseChapterSelection strconv.ParseFloat "1-3" (map mustParse ["1"; "2"; "3"])
  /\ parseChapterSelection strconv.ParseFloat "3-1" available
     = Err (ErrStartGreater "3" "1")
  /\ parseChapterSelection strconv.ParseFloat "1-2-3" available
     = Err (ErrInvalidRangeFormat "1-2-3")
  /\ parseChapterSelection strconv.ParseFloat "-5" available
     = Err (ErrInvalidStart "")
  /\ parseChapterSelection strconv.ParseFloat "5-" available
     = Err (ErrInvalidEnd "").
Proof. vm_compute. repeat split. Qed.

Lemma range_token_selects_witness :
  (exists r,
     parseChapterSelection strconv.ParseFloat "1-2" available = Ok r
     /\ (forall v, slicesContains r v
                   = slicesContains available v
                     && inRange (mustParse "1") (mustParse "2") v)
     /\ (forall v, In v r ->
                   In v available
                   /\ inRange (mustParse "1") (mustParse "2") v = true)
     /\ ascending r)
  /\ (parseChapterSelection strconv.ParseFloat "3-1" available
      = Err (ErrStartGreater "3" "1")
      /\ kindOf (ErrStartGreater "3" "1") = InvalidRange).
Proof.
  split.
  - apply (proj1 (range_token_selects strconv.ParseFloat available "1" "2"
                    (mustParse "1") (mustParse "2")
                    eq_refl eq_refl eq_refl eq_refl eq_refl eq_refl)).
    vm_compute. reflexivity.
  - apply (proj2 (range_token_selects strconv.ParseFloat available "3" "1"
                    (mustParse "3") (mustParse "1")
                    eq_refl eq_refl eq_refl eq_refl eq_refl eq_refl)).
    vm_compute. reflexivity.
Defined.

(** The oldest variant on the same inputs: it differs on the range
    whose start is greater than its end, and in the error it returns
    for a bound that does not parse. *)
Example earlier_selection_scenario :
  Earlier.parseChapterSelection strconv.ParseFloat "1-2,3" available
  = Ok (map mustParse ["1"; "2"; "3"])
  /\ Earlier.parseChapterSelection strconv.ParseFloat "3,1,2,1" available
     = Ok (map mustParse ["1"; "2"; "3"])
  /\ Earlier.parseChapterSelection strconv.ParseFloat "5" available
     = Ok [mustParse "5"]
  /\ Earlier.parseChapterSelection strconv.ParseFloat "3-1" available
     = Ok []
  /\ Earlier.parseChapterSelection strconv.ParseFloat "1-2-3" available
     = Err (ErrInvalidRangeFormat "1-2-3")
  /\ Earlier.parseChapterSelection strconv.ParseFloat "-5" available
     = Err (ErrNum ErrSyntax)
  /\ Earlier.parseChapterSelection strconv.ParseFloat "5-" available
     = Err (ErrNum ErrSyntax)
  /\ Earlier.parseChapterSelection strconv.ParseFloat "NaN,NaN,1" []
     = Ok [S754_nan; S754_nan; mustParse "1"].
Proof. vm_compute. repeat split. Qed.

Lemma earlier_range_token_selects_witness :
  exists r,
    Earlier.parseChapterSelection strconv.ParseFloat "3-1" available = Ok r
    /\ (forall v, slicesContains r v
                  = slicesContains available v
                    && inRange (mustParse "3") (mustParse "1") v)
    /\ (forall v, In v r ->
                  In v available
                  /\ inRange (mustParse "3") (mustParse "1") v = true)
    /\ ascending r
    /\ (fle (mustParse "3") (mustParse "1") = true ->
        exists r0, parseChapterSelection strconv.ParseFloat "3-1" available = Ok r0
                   /\ sameNumbers r0 r)
    /\ (fgt (mustParse "3") (mustParse "1") = true -> r = []).
Proof.
  exact (earlier_range_token_selects strconv.ParseFloat available "3" "1"
           (mustParse "3") (mustParse "1")
           eq_refl eq_refl eq_refl eq_refl eq_refl eq_refl).
Defined.

(** [ParseFloat] also reads the text [NaN], which stands for no
    number: such a token is kept as often as it is written, since
    [chapterMap[NaN] = true] adds an entry each time. *)
Lemma nan_tokens_are_kept_twice :
  numberTokens strconv.ParseFloat (strings.Split "NaN,NaN,1" ",")
               [S754_nan; S754_nan; mustParse "1"]
  /\ numberTokens strconv.ParseFloat (strings.Split "NaN,1" ",")
                  [S754_nan; mustParse "1"]
  /\ parseChapterSelection strconv.ParseFloat "NaN,NaN,1" []
     = Ok [S754_nan; S754_nan; mustParse "1"]
  /\ parseChapterSelection strconv.ParseFloat "NaN,1" []
     = Ok [S754_nan; mustParse "1"]
  /\ parseChapterSelection strconv.ParseFloat "NaN,NaN,1" []
     <> parseChapterSelection strconv.ParseFloat "NaN,1" [].
Proof.
  split; [|split; [|split; [|split]]].
  - repeat constructor.
  - repeat constructor.
  - vm_compute. reflexivity.
  - vm_compute. reflexivity.
  - vm_compute. discriminate.
Qed.

Lemma number_list_sorted_unique_witness :
  exists r,
    parseChapterSelection strconv.ParseFloat "3,1,2,1" available = Ok r
    /\ ascending r
    /\ (forall v, slicesContains r v
                  = slicesContains (map mustParse ["3"; "1"; "2"; "1"]) v)
    /\ incl r (map mustParse ["3"; "1"; "2"; "1"])
    /\ (forall input' avail' xs',
          numberTokens strconv.ParseFloat (strings.Split input' ",") xs' ->
          Forall (fun x => isNaN x = false) xs' ->
          (forall v, slicesContains (map mustParse ["3"; "1"; "2"; "1"]) v
                     = slicesContains xs' v) ->
          exists r',
            parseChapterSelection strconv.ParseFloat input' avail' = Ok r'
            /\ sameNumbers r r'
            /\ (Forall (fun x => x <> S754_zero true)
                       (map mustParse ["3"; "1"; "2"; "1"]) ->
                Forall (fun x => x <> S754_zero true) xs' ->
                r = r')).
Proof.
  apply (number_list_sorted_unique strconv.ParseFloat "3,1,2,1" available
           (map mustParse ["3"; "1"; "2"; "1"])).
  - repeat constructor.
  - repeat constructor.
Defined.

(** The inputs ["3,1,2"], ["1,2,3"] and ["1,1,2,3,3"] select the same
    chapters. *)
Example number_list_order_and_repeats :
  parseChapterSelection strconv.ParseFloat "3,1,2" available
  = Ok (map mustParse ["1"; "2"; "3"])
  /\ parseChapterSelection strconv.ParseFloat "1,2,3" available
     = Ok (map mustParse ["1"; "2"; "3"])
  /\ parseChapterSelection strconv.ParseFloat "1,1,2,3,3" available
     = Ok (map mustParse ["1"; "2"; "3"]).
Proof. vm_compute. repeat split. Qed.

Lemma malformed_range_rejected_witness :
  isErr (parseChapterSelection strconv.ParseFloat "1,-5" available) = true
  /\ (forall m,
        parseParts strconv.ParseFloat ["1"] available [] = Ok m ->
        exists e,
          parseChapterSelection strconv.ParseFloat "1,-5" available = Err e
          /\ kindOf e = InvalidNumber).
Proof.
  exact (proj2 (malformed_range_rejected strconv.ParseFloat "1,-5" available
                  ["1"] [] "-5" eq_refl)
               "" "5" eq_refl (or_introl eq_refl)).
Defined.

Lemma empty_selection_is_ok_witness :
  parseChapterSelection strconv.ParseFloat "5-7,8-9" available = Ok [].
Proof.
  apply (empty_selection_is_ok strconv.ParseFloat "5-7,8-9" available).
  constructor; [|constructor; [|constructor]].
  - exists "5", "7", (mustParse "5"), (mustParse "7").
    repeat split; try reflexivity. repeat constructor.
  - exists "8", "9", (mustParse "8"), (mustParse "9").
    repeat split; try reflexivity. repeat constructor.
Defined.

(** The numbers scraped are the available chapters. *)
Example scraped_numbers : getChapterNumbers allChapters = available.
Proof. vm_compute. reflexivity. Qed.

Lemma single_number_unchecked_then_omitted_witness :
  exists x,
    strconv.ParseFloat (strings.TrimSpace "5") = Ok x
    /\ (slicesContains (map mustParse ["1"; "5"]) x = true
        \/ (isNaN x = true /\ In x (map mustParse ["1"; "5"])))
    /\ (forall avail', parseChapterSelection strconv.ParseFloat "5" avail' = Ok [x])
    /\ (forall c,
          In c (getSelectedChapters (map mustParse ["1"; "5"]) (chapterMapOf allChapters)) ->
          exists n, In n (map mustParse ["1"; "5"])
                    /\ mapaccess (chapterMapOf allChapters) n = Some c)
    /\ (forall l1 l2 n,
          map mustParse ["1"; "5"] = l1 ++ n :: l2 ->
          mapaccess (chapterMapOf allChapters) n = None ->
          getSelectedChapters (map mustParse ["1"; "5"]) (chapterMapOf allChapters)
          = getSelectedChapters (l1 ++ l2) (chapterMapOf allChapters)).
Proof.
  apply (single_number_unchecked_then_omitted strconv.ParseFloat "5,1" available
           (map mustParse ["1"; "5"]) "5" (chapterMapOf allChapters)).
  - vm_compute. reflexivity.
  - simpl. auto.
  - reflexivity.
Defined.

(** Chapter 5 is not available: selected with chapter 1 it is left out,
    selected alone it leaves nothing. *)
Example unavailable_number_is_omitted :
  parseChapterSelection strconv.ParseFloat "5,1" available
  = Ok (map mustParse ["1"; "5"])
  /\ getSelectedChapters (map mustParse ["1"; "5"]) (chapterMapOf allChapters)
     = [scraped "Chapter 1" "Romance Dawn"]
  /\ getSelectedChapters [mustParse "5"] (chapterMapOf allChapters) = [].
Proof. vm_compute. repeat split. Qed.

Lemma mapToSlice_any_order_witness :
  sortFloat64s (map mustParse ["2"; "3"; "1"])
  = mapToSlice [(mustParse "3", true); (mustParse "1", true); (mustParse "2", true)].
Proof.
  apply (mapToSlice_any_order strconv.ParseFloat ["3"; "1-2"] available).
  - vm_compute. reflexivity.
  - apply Permutation_sym.
    exact (Permutation_cons_append [mustParse "3"; mustParse "1"] (mustParse "2")).
Defined.

(** ** The parser as a union *)

Lemma selection_is_union_witness :
  slicesContains (map mustParse ["1"; "2"; "3"]) (mustParse "2")
  = existsb (fun part =>
               slicesContains (contribution strconv.ParseFloat available part)
                              (mustParse "2"))
            (strings.Split "1-2,3" ",").
Proof.
  apply (selection_is_union strconv.ParseFloat "1-2,3" available
           (map mustParse ["1"; "2"; "3"])).
  vm_compute. reflexivity.
Defined.

Lemma selection_in_order_witness :
  exists r1,
    [S754_nan; mustParse "1"; mustParse "2"]
    = repeat S754_nan
        (countNaN (flat_map (contribution strconv.ParseFloat available)
                            (strings.Split "2,NaN,1" ","))) ++ r1
    /\ Forall (fun e => isNaN e = false) r1
    /\ ascending r1.
Proof.
  apply (selection_in_order strconv.ParseFloat "2,NaN,1" available
           [S754_nan; mustParse "1"; mustParse "2"]).
  vm_compute. reflexivity.
Defined.

Lemma token_order_is_irrelevant_witness :
  exists r',
    parseChapterSelection strconv.ParseFloat "1-2,3" available = Ok r'
    /\ sameSlice (map mustParse ["1"; "2"; "3"]) r'.
Proof.
  apply (token_order_is_irrelevant strconv.ParseFloat "3,1-2" "1-2,3"
           available available (map mustParse ["1"; "2"; "3"])).
  - simpl. apply perm_swap.
  - apply Permutation_refl.
  - vm_compute. reflexivity.
Defined.

Lemma empty_and_signed_tokens_are_refused_witness :
  isErr (parseChapterSelection strconv.ParseFloat "1,,2" available) = true.
Proof.
  apply (empty_and_signed_tokens_are_refused "1,,2" available "").
  - simpl. auto.
  - left. reflexivity.
Defined.

(** The part [x-2] is the first that is not accepted. *)
Lemma selection_accepted_part_by_part_witness :
  isErr (parseChapterSelection strconv.ParseFloat "1,x-2,3-1" available)
  = negb (forallb (wellFormed strconv.ParseFloat) (strings.Split "1,x-2,3-1" ","))
  /\ parseChapterSelection strconv.ParseFloat "1,x-2,3-1" available
     = Err (partError strconv.ParseFloat "x-2").
Proof.
  split.
  - exact (proj1 (selection_accepted_part_by_part strconv.ParseFloat
                    "1,x-2,3-1" available)).
  - apply (proj2 (selection_accepted_part_by_part strconv.ParseFloat
                    "1,x-2,3-1" available) ["1"] "x-2" ["3-1"]);
      vm_compute; reflexivity.
Defined.

Lemma earlier_variant_agrees_witness :
  exists r',
    Earlier.parseChapterSelection strconv.ParseFloat "3,1-2,NaN" available = Ok r'
    /\ sameSlice (S754_nan :: map mustParse ["1"; "2"; "3"]) r'.
Proof.
  apply (proj1 (earlier_variant_agrees strconv.ParseFloat "3,1-2,NaN" available)).
  vm_compute. reflexivity.
Defined.

(** ** The chapters selected *)

(** Two chapters scraped with the number 2: the second is the one the
    map holds. *)
Lemma chapterMap_keeps_last_witness :
  mapaccess (chapterMapOf ([scraped "Chapter 2" "First"]
                           ++ scraped "Chapter 2" "Second"
                              :: [scraped "Chapter 3" "Third"]))
            (Number (scraped "Chapter 2" "Second"))
  = Some (scraped "Chapter 2" "Second")
  /\ (forall q,
        Forall (fun c => feq (Number c) q = false)
               ([scraped "Chapter 2" "First"]
                ++ scraped "Chapter 2" "Second" :: [scraped "Chapter 3" "Third"]) ->
        mapaccess (chapterMapOf ([scraped "Chapter 2" "First"]
                                 ++ scraped "Chapter 2" "Second"
                                    :: [scraped "Chapter 3" "Third"])) q
        = None).
Proof.
  apply (chapterMap_keeps_last [scraped "Chapter 2" "First"]
           [scraped "Chapter 3" "Third"] (scraped "Chapter 2" "Second")).
  - vm_compute. reflexivity.
  - repeat constructor.
Defined.

Lemma lookup_agrees_with_scan_witness :
  getSelectedChapters (map mustParse ["1"; "2"; "3"]) (chapterMapOf allChapters)
  = selectChapters (map mustParse ["1"; "2"; "3"]) allChapters
  /\ selectFirst (map mustParse ["1"; "2"; "3"]) allChapters
     = selectChapters (map mustParse ["1"; "2"; "3"]) allChapters.
Proof.
  apply (lookup_agrees_with_scan strconv.ParseFloat "1-2,3" allChapters).
  - repeat constructor.
  - vm_compute. reflexivity.
Defined.

(** The reads fail, do not parse or select nothing, until [1-2]. *)
Lemma selection_loop_returns_chapters_witness :
  [scraped "Chapter 1" "Romance Dawn"; scraped "Chapter 2" "They Call Him Luffy"] <> []
  /\ incl [scraped "Chapter 1" "Romance Dawn"; scraped "Chapter 2" "They Call Him Luffy"]
          allChapters
  /\ exists before input after chapterNumbers,
      [None; Some "9"; Some "x"; Some "1-2"; Some "3"]
      = before ++ Some input :: after
      /\ chapterSelectionLoop strconv.ParseFloat allChapters before = None
      /\ parseChapterSelection strconv.ParseFloat input (getChapterNumbers allChapters)
         = Ok chapterNumbers
      /\ [scraped "Chapter 1" "Romance Dawn"; scraped "Chapter 2" "They Call Him Luffy"]
         = selectChapters chapterNumbers allChapters.
Proof.
  apply (selection_loop_returns_chapters strconv.ParseFloat allChapters
           [None; Some "9"; Some "x"; Some "1-2"; Some "3"]).
  vm_compute. reflexivity.
Defined.

(** ** The prompts *)

(** A read that fails, a number out of range, then the second manga
    and, not read any more, the first. *)
Lemma manga_selection_agrees_witness :
  Archive.mangaSelection [onePiece; mkManga "/mangas/13/jujutsu-kaisen" "Jujutsu Kaisen"]
                         [None; Some 5%Z; Some 2%Z; Some 1%Z]
  = mangaSelection [onePiece; mkManga "/mangas/13/jujutsu-kaisen" "Jujutsu Kaisen"]
                   [None; Some 5%Z; Some 2%Z; Some 1%Z]
  /\ exists before n after,
      [None; Some 5%Z; Some 2%Z; Some 1%Z] = before ++ Some n :: after
      /\ Forall (fun read =>
                   match read with
                   | None => True
                   | Some k =>
                       ~ (1 <= k <= Z.of_nat
                                      (length [onePiece;
                                               mkManga "/mangas/13/jujutsu-kaisen"
                                                       "Jujutsu Kaisen"]))%Z
                   end) before
      /\ (1 <= n <= Z.of_nat
                      (length [onePiece;
                               mkManga "/mangas/13/jujutsu-kaisen" "Jujutsu Kaisen"]))%Z
      /\ nth_error [onePiece; mkManga "/mangas/13/jujutsu-kaisen" "Jujutsu Kaisen"]
                   (Z.to_nat (n - 1))
         = Some (mkManga "/mangas/13/jujutsu-kaisen" "Jujutsu Kaisen").
Proof.
  split.
  - exact (proj1 (manga_selection_agrees
                    [onePiece; mkManga "/mangas/13/jujutsu-kaisen" "Jujutsu Kaisen"]
                    [None; Some 5%Z; Some 2%Z; Some 1%Z])).
  - apply (proj1 (proj2 (manga_selection_agrees
                    [onePiece; mkManga "/mangas/13/jujutsu-kaisen" "Jujutsu Kaisen"]
                    [None; Some 5%Z; Some 2%Z; Some 1%Z]))).
    reflexivity.
Defined.

(** ** Names on disk *)

(** C5 on concrete chapters: the directory of chapter 5 is [005 ...],
    while the directory of chapter 2.5 is [2.5 ...] and that of chapter
    10.5 is [10.5 ...]: [%03g] pads the whole number text to three
    bytes, and the text of a fractional number has three already. *)
Example fractional_chapter_not_padded :
  chapterDirPath "/tmp" onePiece (scraped "Chapter 5" " Romance Dawn. ")
  = "/tmp/One Piece/005 Romance Dawn"
  /\ chapterDirPath "/tmp" onePiece (scraped "Chapter 2.5" "Special?")
     = "/tmp/One Piece/2.5 Special"
  /\ chapterDirPath "/tmp" onePiece (scraped "Chapter 10.5" "Extra")
     = "/tmp/One Piece/10.5 Extra"
  /\ fmt.fmtFloat true 3 (mustParse "2.5") = "2.5"
  /\ fmt.fmtFloat true 3 (mustParse "2.5") <> "002.5".
Proof. vm_compute. repeat split. discriminate. Qed.

Lemma image_names_padded_and_ordered_witness :
  (forall i imageURL,
      nth_error (ImageURLs (withImages chapter5 eightImages)) i = Some imageURL ->
      nth_error (imageFilenames "/tmp/One Piece/005 Romance Dawn"
                                (withImages chapter5 eightImages)) i
      = Some (filepath.Join ["/tmp/One Piece/005 Romance Dawn"; imageName i imageURL])
      /\ (forall front file,
             imageURL = file \/ imageURL = (front ++ "/" ++ file)%string ->
             strings.Contains file "/" = false ->
             (strings.Contains file "." = false ->
              imageName i imageURL = threeDigits (i + 1))
             /\ (forall stem e,
                    file = (stem ++ "." ++ e)%string ->
                    strings.Contains e "." = false ->
                    imageName i imageURL = (threeDigits (i + 1) ++ "." ++ e)%string))
      /\ (strings.Contains imageURL "?" = false ->
          strings.Contains imageURL "#" = false ->
          urlPath imageURL <> EmptyString ->
          imageName i imageURL
          = (threeDigits (i + 1) ++ urlPathExtension imageURL)%string))
  /\ (forall i j u v,
        i < j ->
        nth_error (ImageURLs (withImages chapter5 eightImages)) i = Some u ->
        nth_error (ImageURLs (withImages chapter5 eightImages)) j = Some v ->
        String.ltb (imageName i u) (imageName j v) = true
        /\ String.ltb (imageFilename "/tmp/One Piece/005 Romance Dawn" i u)
                      (imageFilename "/tmp/One Piece/005 Romance Dawn" j v) = true).
Proof.
  apply (image_names_padded_and_ordered "/tmp/One Piece/005 Romance Dawn"
           (withImages chapter5 eightImages)).
  simpl. lia.
Defined.

(** C6 on a URL with a query: the path of the URL of the second image
    is [/5/i.jpg], with the extension [.jpg], so that the file should be
    [002.jpg]; [filepath.Ext] is given the whole URL, and the file is
    named [002.2], from the last dot of the query.  A query without a
    dot is kept in the name, and a URL without a path gives the end of
    the host. *)
Lemma image_extension_is_not_of_the_url_path :
  urlPath "https://cdn.example/5/i.jpg?v=1.2" = "/5/i.jpg"%string
  /\ urlPathExtension "https://cdn.example/5/i.jpg?v=1.2" = ".jpg"%string
  /\ imageName 1 "https://cdn.example/5/i.jpg?v=1.2" = "002.2"%string
  /\ imageName 1 "https://cdn.example/5/i.jpg?v=1.2"
     <> (threeDigits 2 ++ urlPathExtension "https://cdn.example/5/i.jpg?v=1.2")%string
  /\ imageName 0 "https://cdn.example/5/a.jpg?token=abc" = "001.jpg?token=abc"%string
  /\ urlPathExtension "https://cdn.example" = ""%string
  /\ imageName 0 "https://cdn.example" = "001.example"%string.
Proof. vm_compute. repeat split. discriminate. Qed.

(** Image 7 becomes [007.jpg]; a URL without an extension gives a name
    without one. *)
Example image_seven :
  nth_error (imageFilenames "/tmp/One Piece/005 Romance Dawn"
                            (withImages chapter5 eightImages)) 6
  = Some "/tmp/One Piece/005 Romance Dawn/007.jpg"
  /\ imageName 6 "https://cdn.example/5/g.jpg" = "007.jpg"
  /\ imageName 7 "https://cdn.example/5/h" = "008"
  /\ imageName 999 "https://cdn.example/5/z.jpg" = "1000.jpg".
Proof. vm_compute. repeat split. Qed.

Lemma scraped_title_is_clean_witness :
  (illegalChar "?" = true ->
   strings.Contains (Title (scraped "One Piece Chapter 2.5" "Special?")) "?" = false)
  /\ (illegalChar "?" = false ->
      strings.Contains (Title (scraped "One Piece Chapter 2.5" "Special?")) "?"
      = strings.Contains (strings.Trim "Special?" " .") "?").
Proof.
  apply (scraped_title_is_clean strconv.ParseFloat onePiece "/chapters/1"
           "One Piece Chapter 2.5" "Special?"
           (scraped "One Piece Chapter 2.5" "Special?")).
  vm_compute. reflexivity.
Defined.


(** A title that ends with white space once it is cleaned, or that is
    empty: the directory loses the space after the number. *)
Example trimmed_directory :
  chapterDirPath "/tmp" onePiece (scraped "Chapter 5" "a ?") = "/tmp/One Piece/005 a"%string
  /\ chapterDirPath "/tmp" onePiece (scraped "Chapter 5" "...") = "/tmp/One Piece/005"%string.
Proof. vm_compute. split; reflexivity. Qed.

Lemma thousandth_image_is_out_of_order_witness :
  imageName 999 "https://cdn.example/5/z.jpg"
  = ("1000" ++ filepath.Ext "https://cdn.example/5/z.jpg")%string
  /\ String.ltb (imageName 999 "https://cdn.example/5/z.jpg")
                (imageName 100 "https://cdn.example/5/b.jpg") = true
  /\ String.ltb (imageFilename "/tmp/One Piece/005 Romance Dawn" 999
                               "https://cdn.example/5/z.jpg")
                (imageFilename "/tmp/One Piece/005 Romance Dawn" 100
                               "https://cdn.example/5/b.jpg") = true.
Proof.
  apply (thousandth_image_is_out_of_order "/tmp/One Piece/005 Romance Dawn" 100).
  lia.
Defined.

(** ** Chapter numbers *)

Lemma chapter_number_defaults_to_zero_witness :
  getChapterNumber strconv.ParseFloat "Prologue: Chapter One"
  = (S754_zero false, None).
Proof.
  apply (chapter_number_defaults_to_zero strconv.ParseFloat "Prologue: Chapter One").
  intros H. apply FindStringSubmatch_iff in H. apply H. vm_compute. reflexivity.
Defined.

Example chapter_numbers :
  getChapterNumber strconv.ParseFloat "One Piece Chapter 1093" = (mustParse "1093", None)
  /\ getChapterNumber strconv.ParseFloat "Chapter 12.5: Extra" = (mustParse "12.5", None)
  /\ getChapterNumber strconv.ParseFloat "Chapter 7." = (mustParse "7", None)
  /\ getChapterNumber strconv.ParseFloat "Chapter" = (S754_zero false, None)
  /\ getChapterNumber strconv.ParseFloat "chapter 12" = (S754_zero false, None).
Proof. vm_compute. repeat split. Qed.

Lemma chapter_number_of_name_witness :
  getChapterNumber strconv.ParseFloat
                   ("One Piece " ++ "Chapter " ++ "12" ++ ".5" ++ ": Extra")
  = match strconv.ParseFloat ("12" ++ ".5") with
    | Ok number => (number, None)
    | Err e => (S754_zero false, Some e)
    end.
Proof.
  apply (chapter_number_of_name strconv.ParseFloat "One Piece " "12" ".5" ": Extra").
  - reflexivity.
  - discriminate.
  - reflexivity.
  - right. exists "5". repeat split. discriminate.
  - reflexivity.
  - discriminate.
Defined.

(** ** The coordinator *)

(** One chapter with one image, from the start to the return of the
    coordinator. *)
Lemma coordinator_returns_after_all_workers_witness :
  Batch.workers (Batch.mkState Batch.CoReturned 0 [Batch.ChDone] 0 false) = 0
  /\ length (Batch.chapters (Batch.mkState Batch.CoReturned 0 [Batch.ChDone] 0 false)) = 1
  /\ Forall (fun ch => ch = Batch.ChDone)
            (Batch.chapters (Batch.mkState Batch.CoReturned 0 [Batch.ChDone] 0 false)).
Proof.
  apply (BatchProperties.coordinator_returns_after_all_workers 1); [|reflexivity].
  pose proof (Batch.reach_init 1) as R.
  pose proof (Batch.reach_step 1 _ _ R (Batch.co_add 0 0 [] 0)) as R1.
  pose proof (Batch.reach_step 1 _ _ R1 (Batch.co_go 0 1 [] 0)) as R2.
  pose proof (Batch.reach_step 1 _ _ R2
                (Batch.ch_fetched (Batch.CoLoop 0) 1 [Batch.ChFetch] 0 0 1 eq_refl)) as R3.
  pose proof (Batch.reach_step 1 _ _ R3
                (Batch.ch_add (Batch.CoLoop 0) 1 [Batch.ChLoop 1] 0 0 0 eq_refl)) as R4.
  pose proof (Batch.reach_step 1 _ _ R4
                (Batch.ch_go (Batch.CoLoop 0) 2 [Batch.ChGo 0] 0 0 0 eq_refl)) as R5.
  pose proof (Batch.reach_step 1 _ _ R5
                (Batch.ch_return (Batch.CoLoop 0) 2 [Batch.ChLoop 0] 1 0 eq_refl)) as R6.
  pose proof (Batch.reach_step 1 _ _ R6
                (Batch.worker_done (Batch.CoLoop 0) 1 [Batch.ChDone] 0)) as R7.
  pose proof (Batch.reach_step 1 _ _ R7 (Batch.co_wait 0 [Batch.ChDone] 0)) as R8.
  exact (Batch.reach_step 1 _ _ R8 (Batch.co_return [Batch.ChDone] 0)).
Defined.

(** A failed download ends the process at once, with the other
    downloads in flight: one chapter with two images, the first worker
    failing while the second runs.  The coordinator has not returned. *)
Example fatal_exit_abandons_workers :
  Batch.reachable 1
    (Batch.mkState (Batch.CoLoop 0) 3 [Batch.ChLoop 0] 2 true).
Proof.
  pose proof (Batch.reach_init 1) as R.
  pose proof (Batch.reach_step 1 _ _ R (Batch.co_add 0 0 [] 0)) as R1.
  pose proof (Batch.reach_step 1 _ _ R1 (Batch.co_go 0 1 [] 0)) as R2.
  pose proof (Batch.reach_step 1 _ _ R2
                (Batch.ch_fetched (Batch.CoLoop 0) 1 [Batch.ChFetch] 0 0 2 eq_refl)) as R3.
  pose proof (Batch.reach_step 1 _ _ R3
                (Batch.ch_add (Batch.CoLoop 0) 1 [Batch.ChLoop 2] 0 0 1 eq_refl)) as R4.
  pose proof (Batch.reach_step 1 _ _ R4
                (Batch.ch_go (Batch.CoLoop 0) 2 [Batch.ChGo 1] 0 0 1 eq_refl)) as R5.
  pose proof (Batch.reach_step 1 _ _ R5
                (Batch.ch_add (Batch.CoLoop 0) 2 [Batch.ChLoop 1] 1 0 0 eq_refl)) as R6.
  pose proof (Batch.reach_step 1 _ _ R6
                (Batch.ch_go (Batch.CoLoop 0) 3 [Batch.ChGo 0] 1 0 0 eq_refl)) as R7.
  exact (Batch.reach_step 1 _ _ R7
           (Batch.worker_fatal (Batch.CoLoop 0) 3 [Batch.ChLoop 0] 1)).
Qed.

(** The same chapter in the variants with a wait group per chapter. *)
Lemma coordinator_returns_after_all_chapters_witness :
  length (Nested.chapters
            (Nested.mkState Nested.CoReturned 0
               [Nested.mkChapterG Nested.ChDone 0 0] false)) = 1
  /\ Forall (fun ch => Nested.cpc ch = Nested.ChDone /\ Nested.cworkers ch = 0)
            (Nested.chapters
               (Nested.mkState Nested.CoReturned 0
                  [Nested.mkChapterG Nested.ChDone 0 0] false)).
Proof.
  apply (NestedProperties.coordinator_returns_after_all_chapters 1); [|reflexivity].
  pose proof (Nested.reach_init 1) as R.
  pose proof (Nested.reach_step 1 _ _ R (Nested.co_add 0 0 [])) as R1.
  pose proof (Nested.reach_step 1 _ _ R1 (Nested.co_go 0 1 [])) as R2.
  pose proof (Nested.reach_step 1 _ _ R2
                (Nested.ch_fetched (Nested.CoLoop 0) 1
                   [Nested.mkChapterG Nested.ChFetch 0 0] 0 1 0 0 eq_refl)) as R3.
  pose proof (Nested.reach_step 1 _ _ R3
                (Nested.ch_add (Nested.CoLoop 0) 1
                   [Nested.mkChapterG (Nested.ChLoop 1) 0 0] 0 0 0 0 eq_refl)) as R4.
  pose proof (Nested.reach_step 1 _ _ R4
                (Nested.ch_go (Nested.CoLoop 0) 1
                   [Nested.mkChapterG (Nested.ChGo 0) 1 0] 0 0 1 0 eq_refl)) as R5.
  pose proof (Nested.reach_step 1 _ _ R5
                (Nested.ch_wait (Nested.CoLoop 0) 1
                   [Nested.mkChapterG (Nested.ChLoop 0) 1 1] 0 1 1 eq_refl)) as R6.
  pose proof (Nested.reach_step 1 _ _ R6
                (Nested.worker_done (Nested.CoLoop 0) 1
                   [Nested.mkChapterG Nested.ChWait 1 1] 0 Nested.ChWait 1 0
                   eq_refl)) as R7.
  pose proof (Nested.reach_step 1 _ _ R7
                (Nested.ch_waited (Nested.CoLoop 0) 1
                   [Nested.mkChapterG Nested.ChWait 0 0] 0 0 eq_refl)) as R8.
  pose proof (Nested.reach_step 1 _ _ R8
                (Nested.ch_return (Nested.CoLoop 0) 1
                   [Nested.mkChapterG Nested.ChPast 0 0] 0 0 0 eq_refl)) as R9.
  pose proof (Nested.reach_step 1 _ _ R9
                (Nested.co_wait 0 [Nested.mkChapterG Nested.ChDone 0 0])) as R10.
  exact (Nested.reach_step 1 _ _ R10
           (Nested.co_return [Nested.mkChapterG Nested.ChDone 0 0])).
Defined.

(** One chapter, fetched, about to add its first image to the group. *)
Lemma counter_positive_at_add_witness :
  (0 <= Batch.wg (Batch.mkState (Batch.CoLoop 0) 1 [Batch.ChLoop 1] 0 false))%Z
  /\ (forall i n,
        nth_error (Batch.chapters
                     (Batch.mkState (Batch.CoLoop 0) 1 [Batch.ChLoop 1] 0 false)) i
        = Some (Batch.ChLoop (S n)) ->
        (1 <= Batch.wg (Batch.mkState (Batch.CoLoop 0) 1 [Batch.ChLoop 1] 0 false))%Z).
Proof.
  apply (BatchProperties.counter_positive_at_add 1).
  pose proof (Batch.reach_init 1) as R.
  pose proof (Batch.reach_step 1 _ _ R (Batch.co_add 0 0 [] 0)) as R1.
  pose proof (Batch.reach_step 1 _ _ R1 (Batch.co_go 0 1 [] 0)) as R2.
  exact (Batch.reach_step 1 _ _ R2
           (Batch.ch_fetched (Batch.CoLoop 0) 1 [Batch.ChFetch] 0 0 1 eq_refl)).
Defined.

(** ** The archive *)




(** An error of [zipWriter.Close] is printed and not returned: the
    directory is removed although no archive was written. *)
Example close_error_is_not_returned :
  exists fs' z,
    archiveChapter closeFails twoImages true "/tmp" onePiece chapter5 = (fs', None)
    /\ lookupDir fs' (chapterDirPath "/tmp" onePiece chapter5) = None
    /\ lookupArchive fs' (cbzFilename "/tmp" onePiece chapter5) = Some z
    /\ entries z = []
    /\ finished z = false.
Proof.
  eexists. eexists.
  split; [vm_compute; reflexivity|].
  split; [vm_compute; reflexivity|].
  split; [vm_compute; reflexivity|].
  split; reflexivity.
Qed.

Lemma archive_holds_every_file_witness :
  exists fs',
    createCbzArchive noFaults twoImages "/tmp/One Piece/005 Romance Dawn"
                     "/tmp/One Piece/005 Romance Dawn.cbz" = (fs', None)
    /\ lookupArchive fs' "/tmp/One Piece/005 Romance Dawn.cbz"
       = Some (mkZip (map (fun name => mkEntry name true) ["001.jpg"; "002.jpg"]) true)
    /\ dirs fs' = dirs twoImages
    /\ (forall q, String.eqb "/tmp/One Piece/005 Romance Dawn.cbz" q = false ->
                  lookupArchive fs' q = lookupArchive twoImages q).
Proof.
  apply (archive_holds_every_file noFaults twoImages "/tmp/One Piece/005 Romance Dawn"
           "/tmp/One Piece/005 Romance Dawn.cbz" ["001.jpg"; "002.jpg"]);
    try reflexivity.
  repeat constructor.
Defined.

Lemma close_error_still_deletes_directory_witness :
  exists fs',
    archiveChapter closeFails twoImages true "/tmp" onePiece chapter5 = (fs', None)
    /\ lookupDir fs' (chapterDirPath "/tmp" onePiece chapter5) = None
    /\ lookupArchive fs' (cbzFilename "/tmp" onePiece chapter5) = Some (mkZip [] false)
    /\ (forall z, lookupArchive fs' (cbzFilename "/tmp" onePiece chapter5) = Some z ->
                  ~ archiveComplete ["001.jpg"; "002.jpg"] z).
Proof.
  apply (close_error_still_deletes_directory closeFails twoImages "/tmp" onePiece
           chapter5 ["001.jpg"; "002.jpg"]); try reflexivity.
  repeat constructor.
Defined.

(** The copy of the second image fails. *)
Lemma failed_archive_is_partial_witness :
  exists z,
    lookupArchive
      (fst (createCbzArchive copyFails twoImages "/tmp/One Piece/005 Romance Dawn"
                             "/tmp/One Piece/005 Romance Dawn.cbz"))
      "/tmp/One Piece/005 Romance Dawn.cbz" = Some z
    /\ ((ECopy = EWalk
         /\ failWalk copyFails "/tmp/One Piece/005 Romance Dawn" = true
         /\ z = (if failZipClose copyFails then mkZip [] false else mkZip [] true))
        \/ exists pre name post,
            ["001.jpg"; "002.jpg"] = pre ++ name :: post
            /\ Forall (fun name =>
                         failOpen copyFails
                           (filepath.Join ["/tmp/One Piece/005 Romance Dawn"; name]) = false
                         /\ failZipCreate copyFails name = false
                         /\ failCopy copyFails
                              (filepath.Join ["/tmp/One Piece/005 Romance Dawn"; name])
                            = false) pre
            /\ ((ECopy = EOpen
                 /\ failOpen copyFails
                      (filepath.Join ["/tmp/One Piece/005 Romance Dawn"; name]) = true
                 /\ z = (if failZipClose copyFails then mkZip [] false
                         else mkZip (map (fun name => mkEntry name true) pre) true))
                \/ (ECopy = EZipCreate
                    /\ failOpen copyFails
                         (filepath.Join ["/tmp/One Piece/005 Romance Dawn"; name]) = false
                    /\ failZipCreate copyFails name = true
                    /\ z = mkZip [] false)
                \/ (ECopy = ECopy
                    /\ failOpen copyFails
                         (filepath.Join ["/tmp/One Piece/005 Romance Dawn"; name]) = false
                    /\ failZipCreate copyFails name = false
                    /\ failCopy copyFails
                         (filepath.Join ["/tmp/One Piece/005 Romance Dawn"; name]) = true
                    /\ z = (if failZipClose copyFails then mkZip [] false
                            else mkZip (map (fun name => mkEntry name true) pre
                                        ++ [mkEntry name false]) true)))).
Proof.
  apply (proj2 (proj2 (proj2
           (failed_archive_is_partial copyFails twoImages
              (fst (createCbzArchive copyFails twoImages "/tmp/One Piece/005 Romance Dawn"
                                     "/tmp/One Piece/005 Romance Dawn.cbz"))
              "/tmp/One Piece/005 Romance Dawn" "/tmp/One Piece/005 Romance Dawn.cbz"
              ["001.jpg"; "002.jpg"] ECopy eq_refl
              ltac:(vm_compute; reflexivity))))).
  reflexivity.
Defined.
